(** * Jarvis web console: streaming and synchronisation runtime

    A shallow embedding of the client-side runtime of the Jarvis console
    (websocket-manager.js, message-handler.js, settings-modal.js,
    theme-manager.js, variables-globals.js, utils.js and the
    connection watch of app-main.js) together with the properties its
    design document states about it.

    JavaScript numbers are IEEE 754 binary64 values and are modelled by
    Rocq's primitive floats; strings are kept as the bytes of their
    UTF-8 encoding; module-level [let] variables become fields of
    explicit state records; [setTimeout]/[clearTimeout] act on an
    explicit queue of pending timers. *)

From Stdlib Require Import Floats Ascii.
From stdpp Require Import gmap strings list fin_maps sorting.

Set Warnings "-inexact-float".

Local Open Scope string_scope.
Local Open Scope list_scope.

(** ** JavaScript values *)

Module JS.

(** What every object inherits: [Object.prototype] itself, which
    [o.__proto__] reads, and the functions it holds, named by the
    property that holds them. *)
Inductive builtin :=
| ObjectPrototype
| ObjectMethod (name : string).

(** JSON-like values, and the built-in objects met through the
    prototype of an object.  Arrays and objects are reference values in
    JavaScript: [ref] is the identity of the allocated array/object,
    and is what [===] compares.  An object made by [JSON.parse] or by
    an object literal has [Object.prototype] for prototype; [fields]
    are its own enumerable properties, in the order [for ... in] and
    [Object.keys] visit them. *)
#[local] Unset Elimination Schemes.
Inductive jsval : Type :=
| JUndefined
| JNull
| JBool (b : bool)
| JNum (x : float)
| JStr (s : string)
| JArr (ref : nat) (items : list jsval)
| JObj (ref : nat) (fields : list (string * jsval))
| JBuiltin (b : builtin).
#[local] Set Elimination Schemes.

Abbreviation props := (list (string * jsval)).

(** [typeof v] *)
Definition typeof (v : jsval) : string :=
  match v with
  | JUndefined => "undefined"
  | JNull => "object"
  | JBool _ => "boolean"
  | JNum _ => "number"
  | JStr _ => "string"
  | JArr _ _ => "object"
  | JObj _ _ => "object"
  | JBuiltin ObjectPrototype => "object"
  | JBuiltin (ObjectMethod _) => "function"
  end.

(** [Array.isArray(v)] *)
Definition isArray (v : jsval) : bool :=
  match v with JArr _ _ => true | _ => false end.

(** Two built-in objects are the same object. *)
Definition same_builtin (a b : builtin) : bool :=
  match a, b with
  | ObjectPrototype, ObjectPrototype => true
  | ObjectMethod x, ObjectMethod y => String.eqb x y
  | _, _ => false
  end.

(** [a === b].  Numbers compare with the IEEE equality (NaN differs
    from itself, the two zeros are equal); arrays, objects and
    functions compare by identity. *)
Definition strict_eq (a b : jsval) : bool :=
  match a, b with
  | JUndefined, JUndefined => true
  | JNull, JNull => true
  | JBool x, JBool y => Bool.eqb x y
  | JNum x, JNum y => PrimFloat.eqb x y
  | JStr x, JStr y => String.eqb x y
  | JArr r _, JArr r' _ => Nat.eqb r r'
  | JObj r _, JObj r' _ => Nat.eqb r r'
  | JBuiltin x, JBuiltin y => same_builtin x y
  | _, _ => false
  end.

(** [a !== b] *)
Definition strict_neq (a b : jsval) : bool := negb (strict_eq a b).

(** SameValueZero, the equality of the keys of a [Map]: [===], but for
    NaN, which is the same key as itself. *)
Definition same_value_zero (a b : jsval) : bool :=
  match a, b with
  | JNum x, JNum y => PrimFloat.eqb x y || (PrimFloat.is_nan x && PrimFloat.is_nan y)
  | _, _ => strict_eq a b
  end.

(** The values that are not objects: [undefined], and what [JSON.parse]
    returns besides arrays and objects.  Turning one of them into a
    string, as a template literal does, cannot throw. *)
Inductive primitive :=
| PUndefined
| PNull
| PBool (b : bool)
| PNum (x : float)
| PStr (s : string).

Definition value (p : primitive) : jsval :=
  match p with
  | PUndefined => JUndefined
  | PNull => JNull
  | PBool b => JBool b
  | PNum x => JNum x
  | PStr s => JStr s
  end.

(** [v] is [null] or [undefined]: reading a property of it throws. *)
Definition nullish (v : jsval) : bool :=
  match v with JUndefined | JNull => true | _ => false end.

(** Truthiness, as used by [if (v)]. *)
Definition truthy (v : jsval) : bool :=
  match v with
  | JUndefined | JNull => false
  | JBool b => b
  | JNum x => negb (PrimFloat.is_nan x || PrimFloat.is_zero x)
  | JStr s => negb (String.eqb s "")
  | JArr _ _ | JObj _ _ | JBuiltin _ => true
  end.

(** [s.length]: the number of UTF-16 code units of the string.  In the
    UTF-8 encoding a character of the basic plane takes one, two or
    three bytes and is one code unit; any other character takes four
    bytes and is two code units (a surrogate pair).  So the first byte
    of a character counts for one, or for two when it opens a four-byte
    sequence, and the bytes that continue a sequence count for
    nothing. *)
Definition code_units (byte : Ascii.ascii) : nat :=
  let n := Ascii.nat_of_ascii byte in
  if (n <? 128)%nat then 1%nat
  else if (n <? 192)%nat then 0%nat
  else if (n <? 240)%nat then 1%nat
  else 2%nat.

Fixpoint length16 (s : string) : nat :=
  match s with
  | EmptyString => 0%nat
  | String byte rest => (code_units byte + length16 rest)%nat
  end.

(** The names under which [Object.prototype] holds a function. *)
Definition object_methods : list string :=
  ["constructor"; "hasOwnProperty"; "isPrototypeOf"; "propertyIsEnumerable";
   "toLocaleString"; "toString"; "valueOf";
   "__defineGetter__"; "__defineSetter__"; "__lookupGetter__"; "__lookupSetter__"].

(** [Object.prototype[key]]: its functions, and [null] for its own
    prototype. *)
Definition prototype_get (key : string) : jsval :=
  if String.eqb key "__proto__" then JNull
  else if bool_decide (key ∈ object_methods) then JBuiltin (ObjectMethod key)
  else JUndefined.

(** [key in Object.prototype] *)
Definition inherited (key : string) : bool :=
  String.eqb key "__proto__" || bool_decide (key ∈ object_methods).

(** [o[key]] where [key] is an own property of [o] or is not a property
    of [o] at all, which then reads as [undefined]: the case of the
    fixed keys the program reads from the objects it builds itself. *)
Fixpoint get (o : props) (key : string) : jsval :=
  match o with
  | [] => JUndefined
  | (k, v) :: rest => if String.eqb k key then v else get rest key
  end.

(** [Object.prototype.hasOwnProperty.call(o, key)] *)
Fixpoint hasOwn (o : props) (key : string) : bool :=
  match o with
  | [] => false
  | (k, _) :: rest => String.eqb k key || hasOwn rest key
  end.

(** [o[key] = v] for a key other than [__proto__]: an existing own
    property keeps its position, a new one is added last. *)
Fixpoint set (o : props) (key : string) (v : jsval) : props :=
  match o with
  | [] => [(key, v)]
  | (k, w) :: rest =>
      if String.eqb k key then (k, v) :: rest else (k, w) :: set rest key v
  end.

(** [delete o[key]] *)
Fixpoint remove (o : props) (key : string) : props :=
  match o with
  | [] => []
  | (k, w) :: rest =>
      if String.eqb k key then rest else (k, w) :: remove rest key
  end.

(** [Object.keys(o)] *)
Definition keys (o : props) : list string := o.*1.

(** [Object.assign(target, source)] *)
Definition assign (target source : props) : props :=
  fold_left (fun acc kv => set acc (fst kv) (snd kv)) source target.

(** What an object whose prototype is [Object.prototype] reads under a
    key it has no own property for: its prototype under [__proto__],
    else what the prototype holds. *)
Definition inherited_get (key : string) : jsval :=
  if String.eqb key "__proto__" then JBuiltin ObjectPrototype
  else prototype_get key.

(** [o[key]] through the prototype chain, on an object whose prototype
    is [Object.prototype]: an own property hides an inherited one. *)
Definition read (o : props) (key : string) : jsval :=
  if hasOwn o key then get o key else inherited_get key.

(** [o[key] = v] on an object whose prototype is [Object.prototype] and
    that has no own property [__proto__].  The key [__proto__] reaches
    the setter [Object.prototype] holds for it: the prototype of [o]
    becomes [v] when [v] is an object or [null], and no own property is
    added. The properties a configuration inherits from its new
    prototype are data properties, so that later assignments still
    create own properties. *)
Definition put (o : props) (key : string) (v : jsval) : props :=
  if String.eqb key "__proto__" then o else set o key v.

(** Induction over values that reaches the items of arrays and the
    fields of objects. *)
Section Induction.
Variable P : jsval → Prop.
Hypothesis Hundef : P JUndefined.
Hypothesis Hnull : P JNull.
Hypothesis Hbool : ∀ b, P (JBool b).
Hypothesis Hnum : ∀ x, P (JNum x).
Hypothesis Hstr : ∀ s, P (JStr s).
Hypothesis Harr : ∀ r items, Forall P items → P (JArr r items).
Hypothesis Hobj : ∀ r fields, Forall (λ kv, P (snd kv)) fields → P (JObj r fields).
Hypothesis Hbuiltin : ∀ b, P (JBuiltin b).

Fixpoint jsval_ind (v : jsval) : P v :=
  match v with
  | JUndefined => Hundef
  | JNull => Hnull
  | JBool b => Hbool b
  | JNum x => Hnum x
  | JStr s => Hstr s
  | JArr r items =>
      Harr r items
        ((fix go (l : list jsval) : Forall P l :=
            match l with
            | [] => Forall_nil_2 P
            | v :: l' => Forall_cons_2 P v l' (jsval_ind v) (go l')
            end) items)
  | JObj r fields =>
      Hobj r fields
        ((fix go (l : list (string * jsval)) : Forall (λ kv, P (snd kv)) l :=
            match l with
            | [] => Forall_nil_2 _
            | kv :: l' => Forall_cons_2 _ kv l' (jsval_ind (snd kv)) (go l')
            end) fields)
  | JBuiltin b => Hbuiltin b
  end.
End Induction.

End JS.

(** ** Settings diff (settings-modal.js, [getChangedSettings]) *)

Module Diff.
Import JS.

(** The number carried by a numeric value (only used under the source's
    [isNumeric] test). *)
Definition num (v : jsval) : float :=
  match v with JNum x => x | _ => PrimFloat.nan end.

(** [current[key]].  A configuration is an object; [null] and
    [undefined] have no properties, and reading one of them throws a
    TypeError ([None]).  (The function is not meant for a baseline that
    is an array, a string, a number, a boolean or a function: their
    properties are not modelled, and all read as [undefined] here.) *)
Definition index (current : jsval) (key : string) : option jsval :=
  if nullish current then None
  else
    match current with
    | JObj _ fields => Some (read fields key)
    | JBuiltin ObjectPrototype => Some (prototype_get key)
    | _ => Some JUndefined
    end.

(** The body of the [for (const key in newSettings)] loop; [entries]
    are the own properties still to visit, [changes] the own properties
    of the object built so far, [recurse] the recursive call of
    [getChangedSettings].  [None] is an exception reaching the
    caller. *)
Fixpoint diff_entries (recurse : jsval → jsval → option props)
    (current : jsval) (entries : props) (changes : props) : option props :=
  match entries with
  | [] => Some changes
  | (key, newValue) :: rest =>
      match index current key with
      | None => None
      | Some currentValue =>
          if String.eqb (typeof newValue) "object" && strict_neq newValue JNull
             && negb (isArray newValue)
          then
            if negb (String.eqb (typeof currentValue) "object")
               || strict_eq currentValue JNull || isArray currentValue
            then diff_entries recurse current rest (put changes key newValue)
            else
              match recurse currentValue newValue with
              | None => None
              | Some nestedChanges =>
                  if (0 <? length (keys nestedChanges))%nat
                  then diff_entries recurse current rest (put changes key newValue)
                  else diff_entries recurse current rest changes
              end
          else if strict_neq currentValue newValue then
            let isNumeric :=
              String.eqb (typeof currentValue) "number"
              && String.eqb (typeof newValue) "number" in
            if isNumeric
               && (PrimFloat.abs (num currentValue - num newValue) <? 0.00001)%float
            then diff_entries recurse current rest changes
            else diff_entries recurse current rest (put changes key newValue)
          else diff_entries recurse current rest changes
      end
  end.

(** [getChangedSettings(current, newSettings)]: the own properties of
    the object it returns, or [None] when it throws.  The literal
    [0.00001] denotes the binary64 value [0x1.4f8b588e368f1p-17], in
    JavaScript as here.  [newSettings] is a configuration object;
    [for ... in] over anything else that can come out of [JSON.parse]
    besides an array or a string visits no key. *)
Fixpoint getChangedSettings (current newSettings : jsval) {struct newSettings} :
    option props :=
  match newSettings with
  | JObj _ entries => diff_entries getChangedSettings current entries []
  | _ => Some []
  end.

(** The decision taken by the loop body for one entry: does it execute
    [changes[key] = newValue]? *)
Definition entry_changes (recurse : jsval → jsval → option props)
    (currentValue newValue : jsval) : bool :=
  if String.eqb (typeof newValue) "object" && strict_neq newValue JNull
     && negb (isArray newValue)
  then
    if negb (String.eqb (typeof currentValue) "object")
       || strict_eq currentValue JNull || isArray currentValue
    then true
    else
      match recurse currentValue newValue with
      | Some nestedChanges => (0 <? length (keys nestedChanges))%nat
      | None => false
      end
  else
    strict_neq currentValue newValue
    && negb (String.eqb (typeof currentValue) "number"
             && String.eqb (typeof newValue) "number"
             && (PrimFloat.abs (num currentValue - num newValue) <? 0.00001)%float).

(** What one round of the loop makes of [changes], where reading
    [current[key]] does not throw. *)
Definition round (recurse : jsval → jsval → option props) (current : jsval)
    (changes : props) (entry : string * jsval) : props :=
  if entry_changes recurse (default JUndefined (index current (fst entry))) (snd entry)
  then put changes (fst entry) (snd entry)
  else changes.

(** *** The design document's reading of the algorithm *)

(** A plain (non-null, non-array) object. *)
Definition plain_object (v : jsval) : Prop :=
  (∃ r fields, v = JObj r fields) ∨ v = JBuiltin ObjectPrototype.

(** Two numbers closer than the epsilon, the difference being computed
    in binary64 as [Math.abs(c - n)]. *)
Definition within_epsilon (c n : jsval) : Prop :=
  ∃ a b, c = JNum a ∧ n = JNum b
         ∧ (PrimFloat.abs (a - b) <? 0.00001)%float = true.

(** [changed c n]: the proposed value [n] counts as changed against the
    baseline value [c].  A leaf is changed when it differs from the
    baseline leaf beyond the numeric tolerance; an object is changed
    when it replaces a non-object, or when something beneath it is
    changed.  What the proposal holds under the key [__proto__] does
    not count: assigning to that key of the diff adds no property. *)
Inductive changed : jsval → jsval → Prop :=
| changed_leaf c n :
    ¬ plain_object n → strict_neq c n = true → ¬ within_epsilon c n →
    changed c n
| changed_shape c n :
    plain_object n → ¬ plain_object c → changed c n
| changed_branch c r fields k v c' :
    plain_object c → (k, v) ∈ fields → k ≠ "__proto__" →
    index c k = Some c' → changed c' v →
    changed c (JObj r fields).

End Diff.

(** ** Timers of the event loop *)

(** Severity passed to [addLogEntry]. *)
Inductive level := Info | Success | Warning | Error.

(** A pending [setTimeout]: its id (a positive integer, hence truthy),
    its delay in milliseconds and the callback to run. *)
Record timer (C : Type) := Timer {
  timer_id : positive;
  timer_delay : Z;
  timer_callback : C
}.
Arguments Timer {C} _ _ _.
Arguments timer_id {C} _.
Arguments timer_delay {C} _.
Arguments timer_callback {C} _.

(** The timers not yet fired or cleared, oldest first, and the id the
    next [setTimeout] returns. *)
Record queue (C : Type) := Queue {
  pending : list (timer C);
  next_id : positive
}.
Arguments Queue {C} _ _.
Arguments pending {C} _.
Arguments next_id {C} _.

(** [setTimeout(cb, delay)]: returns the new id and the queue. *)
Definition setTimeout {C} (cb : C) (delay : Z) (q : queue C) : positive * queue C :=
  (next_id q,
   Queue (pending q ++ [Timer (next_id q) delay cb]) (Pos.succ (next_id q))).

(** [clearTimeout(id)] *)
Definition clearTimeout {C} (id : positive) (q : queue C) : queue C :=
  Queue (filter (λ t, timer_id t ≠ id) (pending q)) (next_id q).

(** The event loop takes timer [id] off the queue to run its callback;
    [None] when no such timer is pending. *)
Definition take_timer {C} (id : positive) (q : queue C) : option (C * queue C) :=
  match list_find (λ t, timer_id t = id) (pending q) with
  | Some (_, t) => Some (timer_callback t, clearTimeout id q)
  | None => None
  end.

(** ** Streaming response assembler (message-handler.js) *)

Module Assembler.

Definition BATCH_SIZE : nat := 5.
Definition BATCH_TIMEOUT : Z := 100.
Definition SCROLL_THRESHOLD : Z := 50.

(** A message bubble of the transcript: its kind (the second CSS
    class), its [id] attribute, the text of its [.message-content]
    child when it has one, and the texts of the [.message-time]
    children appended to it. *)
Record bubble := Bubble {
  bubble_kind : string;
  bubble_id : option string;
  content : option string;
  stamps : list string
}.

(** The [#dialogue-container] element. *)
Record container := Container {
  children : list bubble;
  scrollTop : Z
}.

(** The only callback this file hands to [setTimeout]. *)
Inductive callback := FlushTokenBuffer.

(** Module-level variables, the part of the document the file touches
    and the pending timers.  [scrollHeight] and [clientHeight] are what
    the browser's layout reports for the container. *)
Record state := State {
  tokenBuffer : string;
  bufferFlushTimer : option positive;
  timers : queue callback;
  dialogue : option container;
  scrollHeight : list bubble → Z;
  clientHeight : Z
}.

Definition with_buffer (b : string) (t : option positive) (q : queue callback)
    (s : state) : state :=
  State b t q (dialogue s) (scrollHeight s) (clientHeight s).

Definition with_dialogue (d : option container) (s : state) : state :=
  State (tokenBuffer s) (bufferFlushTimer s) (timers s) d
        (scrollHeight s) (clientHeight s).

(** [createMessageBubble(type, content)] *)
Definition createMessageBubble (type content : string) : bubble :=
  Bubble type None (Some content) [].

(** [addTimeStamp(messageDiv)], [now] being the text of
    [new Date().toLocaleTimeString()]. *)
Definition addTimeStamp (now : string) (b : bubble) : bubble :=
  Bubble (bubble_kind b) (bubble_id b) (content b) (stamps b ++ [now]).

Definition is_current (b : bubble) : bool :=
  match bubble_id b with
  | Some i => String.eqb i "current-response"
  | None => false
  end.

(** [document.getElementById('current-response')]: the first element in
    document order carrying that id. *)
Definition current_response (s : state) : option bubble :=
  match dialogue s with
  | Some c => List.find is_current (children c)
  | None => None
  end.

(** Applies [f] to the element [getElementById('current-response')]
    returns. *)
Fixpoint update_current (f : bubble → bubble) (bs : list bubble) : list bubble :=
  match bs with
  | [] => []
  | b :: rest => if is_current b then f b :: rest else b :: update_current f rest
  end.

(** [scrollToBottom()] *)
Definition scrollToBottom (s : state) : state :=
  match dialogue s with
  | Some c => with_dialogue (Some (Container (children c) (scrollHeight s (children c)))) s
  | None => s
  end.

(** [smartScrollToBottom()] *)
Definition smartScrollToBottom (s : state) : state :=
  match dialogue s with
  | None => s
  | Some c =>
      let isNearBottom :=
        (scrollHeight s (children c) - clientHeight s - SCROLL_THRESHOLD <=? scrollTop c)%Z in
      if isNearBottom
      then with_dialogue (Some (Container (children c) (scrollHeight s (children c)))) s
      else s
  end.

(** [resetTokenBuffer()] *)
Definition resetTokenBuffer (s : state) : state :=
  match bufferFlushTimer s with
  | Some id => with_buffer "" None (clearTimeout id (timers s)) s
  | None => with_buffer "" None (timers s) s
  end.

(** [flushTokenBuffer()] *)
Definition flushTokenBuffer (s : state) : state :=
  if String.eqb (tokenBuffer s) "" then s
  else
    match current_response s with
    | None => resetTokenBuffer s
    | Some currentResponse =>
        match content currentResponse, dialogue s with
        | Some text, Some c =>
            let appended b :=
              Bubble (bubble_kind b) (bubble_id b)
                     (Some (text +:+ tokenBuffer s)) (stamps b) in
            resetTokenBuffer
              (smartScrollToBottom
                 (with_dialogue
                    (Some (Container (update_current appended (children c)) (scrollTop c)))
                    s))
        | _, _ => resetTokenBuffer s
        end
    end.

(** [startNewAssistantResponse()] *)
Definition startNewAssistantResponse (s : state) : state :=
  let s := resetTokenBuffer s in
  match dialogue s with
  | None => s
  | Some c =>
      let messageDiv :=
        Bubble "assistant" (Some "current-response") (Some "") [] in
      scrollToBottom
        (with_dialogue (Some (Container (children c ++ [messageDiv]) (scrollTop c))) s)
  end.

(** [token.includes(c)] for an ASCII character [c], whose byte occurs in
    UTF-8 text only as that character. *)
Fixpoint includes (c : Ascii.ascii) (token : string) : bool :=
  match token with
  | EmptyString => false
  | String a rest => Ascii.eqb a c || includes c rest
  end.

(** [/[.!?]/.test(token)] *)
Definition strong_punctuation (token : string) : bool :=
  includes "."%char token || includes "!"%char token || includes "?"%char token.

(** [appendToCurrentResponse(token)], [token] being a string, as the
    content of an [llm_token] message is. *)
Definition appendToCurrentResponse (token : string) (s : state) : state :=
  let s := with_buffer (tokenBuffer s +:+ token) (bufferFlushTimer s) (timers s) s in
  if (BATCH_SIZE <=? JS.length16 (tokenBuffer s))%nat
     || includes "010"%char token
     || strong_punctuation token
  then flushTokenBuffer s
  else
    let q := match bufferFlushTimer s with
             | Some id => clearTimeout id (timers s)
             | None => timers s
             end in
    let '(id, q) := setTimeout FlushTokenBuffer BATCH_TIMEOUT q in
    with_buffer (tokenBuffer s) (Some id) q s.

(** [finishCurrentResponse()], [now] being the text of the current
    time. *)
Definition finishCurrentResponse (now : string) (s : state) : state :=
  let s := flushTokenBuffer s in
  match current_response s, dialogue s with
  | Some _, Some c =>
      let closed b := addTimeStamp now (Bubble (bubble_kind b) None (content b) (stamps b)) in
      scrollToBottom
        (with_dialogue (Some (Container (update_current closed (children c)) (scrollTop c))) s)
  | _, _ => s
  end.

(** The event loop fires timer [id]. *)
Definition fire (id : positive) (s : state) : state :=
  match take_timer id (timers s) with
  | Some (FlushTokenBuffer, q) =>
      flushTokenBuffer (with_buffer (tokenBuffer s) (bufferFlushTimer s) q s)
  | None => s
  end.

(** *** The design document's reading *)

(** The visible text of the open turn. *)
Definition open_turn_text (s : state) : option string :=
  match current_response s with
  | Some b => content b
  | None => None
  end.

(** "Flush immediately if the buffer's accumulated length reaches the
    threshold, or the fragment contains a line break, or the fragment
    contains terminal punctuation."  The length is that of the
    JavaScript string, in UTF-16 code units. *)
Definition contains (c : Ascii.ascii) (t : string) : Prop :=
  ∃ before after, t = before +:+ String c after.

Definition flush_immediately (buffer t : string) : Prop :=
  (5 ≤ JS.length16 (buffer +:+ t))%nat
  ∨ contains "010"%char t ∨ contains "."%char t
  ∨ contains "!"%char t ∨ contains "?"%char t.

(** "beginTurn opens a new turn, force-flushing and closing any previous
    open turn first": with a turn open and text pending, the turn that
    was open ends up holding its text followed by the pending text, and
    is no longer the open one. *)
Definition beginTurn_flushes_first (s : state) : Prop :=
  ∀ c i b text,
    dialogue s = Some c →
    current_response s = Some b →
    children c !! i = Some b →
    content b = Some text →
    tokenBuffer s ≠ "" →
    ∃ c' b', dialogue (startNewAssistantResponse s) = Some c'
             ∧ children c' !! i = Some b'
             ∧ content b' = Some (text +:+ tokenBuffer s)
             ∧ bubble_id b' = None.

(** The timers left once the pending deferred flush, if any, is
    cleared. *)
Definition cancel_flush (s : state) : queue callback :=
  match bufferFlushTimer s with
  | Some id => clearTimeout id (timers s)
  | None => timers s
  end.

(** A state with an open turn showing "Hel", "lo" waiting in the buffer
    and its deferred flush armed. *)
Definition turn_with_pending_text : state :=
  State "lo" (Some 1%positive)
    (Queue [Timer 1%positive 100 FlushTokenBuffer] 2%positive)
    (Some (Container
             [Bubble "assistant" (Some "current-response") (Some "Hel") []] 0))
    (λ bs, 20 * Z.of_nat (length bs))%Z 100.

End Assembler.

(** ** Session statistics (variables-globals.js) *)

Module Stats.
Local Open Scope float_scope.

(** [Math.min(a, b)] and [Math.max(a, b)] on numbers: NaN if either
    argument is NaN, and the negative zero counts as smaller than the
    positive one. *)
Definition Math_min (a b : float) : float :=
  if PrimFloat.is_nan a || PrimFloat.is_nan b then PrimFloat.nan
  else if a <? b then a
  else if b <? a then b
  else if PrimFloat.get_sign a then a else b.

Definition Math_max (a b : float) : float :=
  if PrimFloat.is_nan a || PrimFloat.is_nan b then PrimFloat.nan
  else if a <? b then b
  else if b <? a then a
  else if PrimFloat.get_sign a then b else a.

(** The [stats] object. [messages] and [tokens] are counters. *)
Record stats := Stats_ {
  messages : Z;
  tokens : Z;
  totalTime : float;
  ttsEfficiency : float
}.

(** The initial value of [stats], also what [resetStats()] assigns. *)
Definition initial : stats := Stats_ 0 0 0 100.

(** [updateTTSEfficiency(success)] *)
Definition updateTTSEfficiency (success : bool) (st : stats) : stats :=
  if success
  then Stats_ (messages st) (tokens st) (totalTime st)
              (Math_min 100 (ttsEfficiency st + 0.1))
  else Stats_ (messages st) (tokens st) (totalTime st)
              (Math_max 0 (ttsEfficiency st - 1)).

(** A sequence of [updateTTSEfficiency] calls, first call first. *)
Definition updates (calls : list bool) (st : stats) : stats :=
  fold_left (λ st success, updateTTSEfficiency success st) calls st.

(** The closed interval [[0, 100]], with the comparisons of binary64
    (they fail on NaN). *)
Definition in_range (x : float) : Prop :=
  (0 <=? x) = true ∧ (x <=? 100) = true.

End Stats.

(** ** Binary64 values as scaled integers

    The efficiency statistic is a JavaScript number. Its bounds are
    checked on the integer [m * 2 ^ (e + bias)] that a finite binary64
    value of mantissa [m] and exponent [e] denotes, once scaled by the
    smallest positive value. *)

Module Binary64.
Local Open Scope Z_scope.

(** The exponent bias used to compare values as integers: every binary64
    exponent [e] has [0 <= e + bias]. *)
Definition bias : Z := 1074.

(** The outcome [r] of a rounding has sign [sx] and, scaled, is at most
    [B]; an overflow to infinity needs [B] beyond the largest finite
    value. *)
Definition rounded (sx : bool) (B : Z) (r : spec_float) : Prop :=
  match r with
  | S754_zero s => s = sx
  | S754_finite s m e => s = sx ∧ 0 <= e + bias ∧ Zpos m * 2 ^ (e + bias) <= B
  | S754_infinity s => s = sx ∧ 2 ^ (972 + bias) <= B
  | S754_nan => False
  end.

(** The literals [100], [1] and [0.1] of [updateTTSEfficiency], as
    binary64 mantissa and exponent. *)
Definition c100 : spec_float := S754_finite false 7036874417766400 (-46).
Definition c1 : spec_float := S754_finite false 4503599627370496 (-52).
Definition c01 : spec_float := S754_finite false 7205759403792794 (-56).

End Binary64.

(** ** Message router (websocket-manager.js) *)

Module Router.

(** A decoded inbound message, as far as the router looks at it:
    [data.type], which is [undefined] when the message has no such
    property (or is a number, a string, a boolean or an array), and the
    message itself for the handlers.  The type of a message of the
    protocol is a string; any value that is not itself an array or an
    object is covered here. *)
Record envelope := Envelope {
  msg_type : JS.primitive;
  payload : JS.jsval
}.

(** The texts this part of the file passes to [addLogEntry], kept with
    the values they interpolate. The summary line prints
    [(routingTimeSum / totalMessages).toFixed(3)] and the three leading
    [type:count] pairs. *)
Inductive log_message :=
| LogUnknownType (type : JS.primitive)
| LogRoutingSummary (totalMessages : Z) (routingTimeSum : float)
    (top3 : list (JS.primitive * Z))
| LogMetricsReset.

(** [routingMetrics]; [mostFrequent] is a [Map], which iterates in
    insertion order. *)
Record routingMetrics := Metrics {
  totalMessages : Z;
  routingTimeSum : float;
  unknownTypes : Z;
  mostFrequent : list (JS.primitive * Z)
}.

(** Two keys of a [Map] are the same key. *)
Definition same_key (a b : JS.primitive) : bool :=
  JS.same_value_zero (JS.value a) (JS.value b).

(** [Map.prototype.get] and [Map.prototype.set] on an insertion-ordered
    map. *)
Fixpoint map_get (m : list (JS.primitive * Z)) (key : JS.primitive) : option Z :=
  match m with
  | [] => None
  | (k, v) :: rest => if same_key k key then Some v else map_get rest key
  end.

Fixpoint map_set (m : list (JS.primitive * Z)) (key : JS.primitive) (v : Z) :
    list (JS.primitive * Z) :=
  match m with
  | [] => [(key, v)]
  | (k, w) :: rest =>
      if same_key k key then (k, v) :: rest else (k, w) :: map_set rest key v
  end.

(** [messageRoutes.get(type)]: the routes are registered under strings
    ([initializeMessageRoutes]), and a [Map] finds nothing under a key
    of another type. *)
Definition route {handler} (routes : gmap string handler) (type : JS.primitive) :
    option handler :=
  match type with
  | JS.PStr t => routes !! t
  | _ => None
  end.

(** [entries.sort((a, b) => b[1] - a[1])]: by decreasing count, equal
    counts keeping their order. *)
Fixpoint insert_by_count (x : JS.primitive * Z) (sorted : list (JS.primitive * Z)) :
    list (JS.primitive * Z) :=
  match sorted with
  | [] => [x]
  | y :: rest =>
      if (snd y <? snd x)%Z then x :: y :: rest
      else y :: insert_by_count x rest
  end.

Definition sort_by_count (entries : list (JS.primitive * Z)) :
    list (JS.primitive * Z) :=
  fold_left (λ sorted x, insert_by_count x sorted) entries [].

(** How a handler call ends. *)
Inductive outcome := Returned | Threw.

Section WithHandlers.
(** The registered handlers and [addLogEntry] belong to the rest of the
    application: [app] is the state they act on; a handler either
    returns or throws, leaving a state in both cases. *)
Context {handler app : Type}.
Variable run_handler : handler → envelope → app → app * outcome.
Variable addLogEntry : log_message → level → app → app.

(** [messageRoutes], [routingMetrics] and the rest of the application. *)
Record state := State {
  messageRoutes : gmap string handler;
  metrics : routingMetrics;
  application : app
}.

(** [logRoutingMetrics()] *)
Definition logRoutingMetrics (st : state) : state :=
  let m := metrics st in
  let top3 := take 3 (sort_by_count (mostFrequent m)) in
  State (messageRoutes st) m
    (addLogEntry (LogRoutingSummary (totalMessages m) (routingTimeSum m) top3)
       Info (application st)).

(** [routeWebSocketMessage(data)]; [startTime] and [endTime] are the
    two readings of [performance.now()]. *)
Definition routeWebSocketMessage (startTime endTime : float) (data : envelope)
    (st : state) : state * outcome :=
  let m := metrics st in
  let count := default 0%Z (map_get (mostFrequent m) (msg_type data)) in
  let m := Metrics (totalMessages m + 1) (routingTimeSum m) (unknownTypes m)
             (map_set (mostFrequent m) (msg_type data) (count + 1)) in
  let handled :=
    match route (messageRoutes st) (msg_type data) with
    | Some handler =>
        let '(a, out) := run_handler handler data (application st) in
        (State (messageRoutes st) m a, out)
    | None =>
        (State (messageRoutes st)
           (Metrics (totalMessages m) (routingTimeSum m) (unknownTypes m + 1)
              (mostFrequent m))
           (addLogEntry (LogUnknownType (msg_type data)) Warning (application st)),
         Returned)
    end in
  match handled with
  | (st, Threw) => (st, Threw)
  | (st, Returned) =>
      let m := metrics st in
      let routingTime := (endTime - startTime)%float in
      let st := State (messageRoutes st)
                  (Metrics (totalMessages m) (routingTimeSum m + routingTime)%float
                     (unknownTypes m) (mostFrequent m))
                  (application st) in
      if (totalMessages (metrics st) mod 100 =? 0)%Z
      then (logRoutingMetrics st, Returned)
      else (st, Returned)
  end.

(** [resetRoutingMetrics()] *)
Definition resetRoutingMetrics (st : state) : state :=
  State (messageRoutes st) (Metrics 0 0 0 [])
    (addLogEntry LogMetricsReset Info (application st)).

End WithHandlers.

Arguments state : clear implicits.

End Router.

(** ** Connection manager (websocket-manager.js) *)

Module Connection.

(** [WebSocket.readyState] *)
Inductive readyState := CONNECTING | OPEN | CLOSING | CLOSED.

(** The callback [handleWebSocketClose] hands to [setTimeout]. *)
Inductive callback := Reconnect.

Inductive log_message :=
| LogConnecting
| LogEstablished
| LogClosed
| LogReconnecting
| LogSocketError (message : string)
| LogNotConnected
| LogAutoReconnect
| LogPageHidden
| LogPageVisible.

(** [isConnected], [ws] (an index into the sockets created so far, whose
    [readyState] the browser maintains), the pending timers, and what
    the file hands to its collaborators: log entries, custom events,
    calls to [loadCurrentConfig], frames passed to [ws.send]. *)
Record state := State {
  isConnected : bool;
  ws : option nat;
  sockets : list readyState;
  timers : queue callback;
  log : list (log_message * level);
  events : list string;
  config_loads : nat;
  sent : list JS.jsval
}.

Definition addLogEntry (m : log_message) (l : level) (c : state) : state :=
  State (isConnected c) (ws c) (sockets c) (timers c) (log c ++ [(m, l)])
        (events c) (config_loads c) (sent c).

Definition dispatchEvent (e : string) (c : state) : state :=
  State (isConnected c) (ws c) (sockets c) (timers c) (log c)
        (events c ++ [e]) (config_loads c) (sent c).

Definition set_isConnected (b : bool) (c : state) : state :=
  State b (ws c) (sockets c) (timers c) (log c) (events c) (config_loads c) (sent c).

(** [initializeWebSocket()]: [new WebSocket(wsUrl)] starts a connection
    attempt. *)
Definition initializeWebSocket (c : state) : state :=
  let c := addLogEntry LogConnecting Info c in
  State (isConnected c) (Some (length (sockets c))) (sockets c ++ [CONNECTING])
        (timers c) (log c) (events c) (config_loads c) (sent c).

(** [handleWebSocketOpen()] *)
Definition handleWebSocketOpen (c : state) : state :=
  let c := set_isConnected true c in
  let c := addLogEntry LogEstablished Success c in
  let c := State (isConnected c) (ws c) (sockets c) (timers c) (log c)
                 (events c) (S (config_loads c)) (sent c) in
  dispatchEvent "websocketConnected" c.

(** The function [handleWebSocketClose] passes to [setTimeout]. *)
Definition reconnect (c : state) : state :=
  if negb (isConnected c)
  then initializeWebSocket (addLogEntry LogReconnecting Info c)
  else c.

(** [handleWebSocketClose()] *)
Definition handleWebSocketClose (c : state) : state :=
  let c := set_isConnected false c in
  let c := addLogEntry LogClosed Warning c in
  let c := dispatchEvent "websocketDisconnected" c in
  let '(_, q) := setTimeout Reconnect 3000 (timers c) in
  State (isConnected c) (ws c) (sockets c) q (log c) (events c)
        (config_loads c) (sent c).

(** [handleWebSocketError(error)] *)
Definition handleWebSocketError (message : string) (c : state) : state :=
  addLogEntry (LogSocketError message) Error c.

(** [sendWebSocketMessage(message)] *)
Definition sendWebSocketMessage (message : JS.jsval) (c : state) : state * bool :=
  match ws c with
  | None => (addLogEntry LogNotConnected Error c, false)
  | Some i =>
      match sockets c !! i with
      | Some OPEN =>
          (State (isConnected c) (ws c) (sockets c) (timers c) (log c)
                 (events c) (config_loads c) (sent c ++ [message]), true)
      | _ => (addLogEntry LogNotConnected Error c, false)
      end
  end.

(** The event loop fires timer [id]. *)
Definition fire (id : positive) (c : state) : state :=
  match take_timer id (timers c) with
  | Some (Reconnect, q) =>
      reconnect (State (isConnected c) (ws c) (sockets c) q (log c) (events c)
                       (config_loads c) (sent c))
  | None => c
  end.

(** The connection check [startBackgroundServices] of app-main.js runs
    every 30 seconds. *)
Definition checkConnection (c : state) : state :=
  let closed :=
    match ws c with
    | Some i => match sockets c !! i with Some CLOSED => true | _ => false end
    | None => false
    end in
  if negb (isConnected c) && closed
  then initializeWebSocket (addLogEntry LogAutoReconnect Info c)
  else c.

(** [handleVisibilityChange()] of app-main.js, [hidden] being
    [document.hidden]. *)
Definition handleVisibilityChange (hidden : bool) (c : state) : state :=
  if hidden then addLogEntry LogPageHidden Info c
  else
    let c := addLogEntry LogPageVisible Info c in
    if negb (isConnected c) then initializeWebSocket c else c.

(** What the page can observe happening to the connection: the events
    of its sockets, the reconnect timers going off, the periodic
    connection check and the page being hidden or shown again.  These
    are the occasions on which the program itself calls
    [initializeWebSocket] once started; [JarvisDebug.forceReconnect],
    which the advanced debug mode offers to whoever types at the
    console, is not one of them. *)
Inductive event :=
| SocketOpened (i : nat)
| SocketClosed (i : nat)
| SocketErrored (message : string)
| TimerFired (id : positive)
| CheckElapsed
| VisibilityChanged (hidden : bool).

Definition set_readyState (i : nat) (r : readyState) (c : state) : state :=
  State (isConnected c) (ws c) (<[i := r]> (sockets c)) (timers c) (log c)
        (events c) (config_loads c) (sent c).

Definition handle (e : event) (c : state) : state :=
  match e with
  | SocketOpened i => handleWebSocketOpen (set_readyState i OPEN c)
  | SocketClosed i => handleWebSocketClose (set_readyState i CLOSED c)
  | SocketErrored message => handleWebSocketError message c
  | TimerFired id => fire id c
  | CheckElapsed => checkConnection c
  | VisibilityChanged hidden => handleVisibilityChange hidden c
  end.

Definition run (es : list event) (c : state) : state :=
  fold_left (λ c e, handle e c) es c.

(** Number of connection attempts made so far. *)
Definition attempts (c : state) : nat := length (sockets c).

End Connection.

(** ** Settings modal and theme handlers (settings-modal.js, theme-manager.js) *)

Module Settings.
Import JS.

Definition PREVIEW_DEBOUNCE_DELAY : Z := 250.
Definition LOCALSTORAGE_DEBOUNCE_DELAY : Z := 500.

(** An entry of [VISUAL_FIELDS]. *)
Record field := Field {
  key : string;
  handler : string;
  immediate : bool
}.

Definition VISUAL_FIELDS : list (string * field) :=
  [ ("interface-background", Field "background" "setBackground" false);
    ("background-opacity", Field "background_opacity" "setBackgroundOpacity" true) ].

(** The entry [fields] holds under [elementId]. *)
Fixpoint field_of (fields : list (string * field)) (elementId : string) : option field :=
  match fields with
  | [] => None
  | (id, f) :: rest => if String.eqb id elementId then Some f else field_of rest elementId
  end.

(** [VISUAL_FIELDS[elementId]], as [triggerVisualPreview] reads it.
    Under a name every object inherits there is a built-in object,
    truthy, whose [key], [handler] and [immediate] are [undefined]:
    the value is then queued under the key ['undefined'] and the
    preview debounced.  (The ids the listeners of [initializeSliders]
    pass are those of the two entries.) *)
Definition visual_field (elementId : string) : option field :=
  match field_of VISUAL_FIELDS elementId with
  | Some f => Some f
  | None =>
      if inherited elementId then Some (Field "undefined" "undefined" false) else None
  end.

(** The functions handed to [setTimeout]: the preview flush, the
    storage save, and the deadline of the [n]-th settings commit. *)
Inductive callback :=
| CbFlushVisualPreview
| CbLocalStorageSave
| CbCommitTimeout (n : nat).

(** What the theme handlers and the modal do to the document. *)
Inductive dom_op :=
| DomBodyClass (theme : jsval)
| DomBackgroundCleared
| DomBackgroundImage (imagePath : string)
| DomOpacityStyle (opacity : jsval)
| DomModalHidden.

Inductive log_message :=
| LogThemeUnknown (theme : jsval)
| LogThemeApplied (theme : jsval)
| LogBackground (path : jsval)
| LogBackgroundDefault
| LogSettingsClosed
| LogSelectiveSave
| LogNoChange
| LogVisualApplied
| LogSaved (changes : nat)
| LogSaveError (message : string)
| LogSaveTypeError.

(** The page outside the modal's own variables: [localStorage], the
    document, the log, and the globals the theme handlers use.  An
    entry of [localStorage] is a string made from the value written,
    by [JSON.stringify] for [jarvis-settings] and by the conversion to
    a string for the others; it is kept here as the value written.
    [themes] are the own keys of [themesConfig.themes], each holding
    the (truthy) description of a theme, in the order of
    [Object.keys]; [themes_loaded] tells whether [themesConfig.themes]
    exists at all.  [ui_settings] are the entries other than [theme]
    that [saveSettings()] of utils.js writes. *)
Record page := Page {
  localStorage : gmap string jsval;
  dom : list dom_op;
  log : list (log_message * level);
  currentTheme : jsval;
  themes : list string;
  dialogue_section : bool;
  settings_modal : bool;
  settingsModalOpen : bool;
  ui_settings : props;
  themes_loaded : bool
}.

Definition setItem (k : string) (v : jsval) (p : page) : page :=
  Page (<[k := v]> (localStorage p)) (dom p) (log p) (currentTheme p) (themes p)
       (dialogue_section p) (settings_modal p) (settingsModalOpen p) (ui_settings p)
       (themes_loaded p).

Definition addDom (op : dom_op) (p : page) : page :=
  Page (localStorage p) (dom p ++ [op]) (log p) (currentTheme p) (themes p)
       (dialogue_section p) (settings_modal p) (settingsModalOpen p) (ui_settings p)
       (themes_loaded p).

Definition addLogEntry (m : log_message) (l : level) (p : page) : page :=
  Page (localStorage p) (dom p) (log p ++ [(m, l)]) (currentTheme p) (themes p)
       (dialogue_section p) (settings_modal p) (settingsModalOpen p) (ui_settings p)
       (themes_loaded p).

(** [JSON.parse(localStorage.getItem('jarvis-settings') || '{}')] *)
Definition savedSettings (p : page) : props :=
  match localStorage p !! "jarvis-settings" with
  | Some (JObj _ fields) => fields
  | _ => []
  end.

(** [localStorage.setItem('jarvis-settings', JSON.stringify(o))] *)
Definition storeSettings (o : props) (p : page) : page :=
  setItem "jarvis-settings" (JObj 0 o) p.

(** [saveSettings()] of utils.js *)
Definition saveSettings (p : page) : page :=
  storeSettings (("theme", currentTheme p) :: ui_settings p) p.

(** The property key [themes[theme]] looks under: a string is its own
    key, and [undefined], [null] and the booleans go by their names.
    (A number, an array or an object is looked up under its string
    form, which is not modelled: it is taken not to be the id of a
    theme.) *)
Definition theme_key (theme : jsval) : option string :=
  match theme with
  | JStr t => Some t
  | JUndefined => Some "undefined"
  | JNull => Some "null"
  | JBool true => Some "true"
  | JBool false => Some "false"
  | _ => None
  end.

(** [themesConfig?.themes?.[theme]] is truthy: [theme] is the id of a
    loaded theme, or the name of a property [themesConfig.themes]
    inherits from [Object.prototype]. *)
Definition theme_known (theme : jsval) (p : page) : bool :=
  match theme_key theme with
  | Some t => bool_decide (t ∈ themes p) || (themes_loaded p && inherited t)
  | None => false
  end.

(** [setTheme(theme)] of theme-manager.js *)
Definition setTheme (theme : jsval) (p : page) : page :=
  if negb (theme_known theme p) then addLogEntry (LogThemeUnknown theme) Error p
  else
    let p := Page (localStorage p) (dom p) (log p) theme (themes p)
                  (dialogue_section p) (settings_modal p) (settingsModalOpen p)
                  (ui_settings p) (themes_loaded p) in
    let p := addDom (DomBodyClass theme) p in
    let p := saveSettings p in
    addLogEntry (LogThemeApplied theme) Success p.

Definition is_string (v : jsval) : bool :=
  match v with JStr _ => true | _ => false end.

(** [setBackground(backgroundPath)] of theme-manager.js: the page it
    leaves, whether it returns or throws.  Given a truthy value that
    is not a string it throws a TypeError at
    [backgroundPath.startsWith], the old background already cleared. *)
Definition setBackground (backgroundPath : jsval) (p : page) : page :=
  if negb (dialogue_section p) then p
  else
    let p := addDom DomBackgroundCleared p in
    if truthy backgroundPath && strict_neq backgroundPath (JStr "default")
    then
      match backgroundPath with
      | JStr path =>
          let imagePath :=
            if String.prefix "images/" path
            then "static/" +:+ path
            else "static/images/" +:+ path in
          let p := addDom (DomBackgroundImage imagePath) p in
          let p := addLogEntry (LogBackground backgroundPath) Info p in
          setItem "jarvis-background" backgroundPath p
      | _ => p
      end
    else
      let p := addLogEntry LogBackgroundDefault Info p in
      setItem "jarvis-background" (JStr "default") p.

(** [setBackground(backgroundPath)] throws. *)
Definition setBackground_throws (backgroundPath : jsval) (p : page) : bool :=
  dialogue_section p && truthy backgroundPath && negb (is_string backgroundPath).

(** [setBackgroundOpacity(opacity)] of theme-manager.js *)
Definition setBackgroundOpacity (opacity : jsval) (p : page) : page :=
  let p := addDom (DomOpacityStyle opacity) p in
  setItem "jarvis-background-opacity" opacity p.

(** A settings commit waiting for its [config_updated] response: the id
    of its deadline timer, whether its [message] listener is still
    registered, how its promise was resolved if it was, and the number
    of changes it sent. *)
Record commit := Commit {
  c_timeout : positive;
  c_listening : bool;
  c_settled : option bool;
  c_count : nat
}.

(** The module-level variables of settings-modal.js, the timers, the
    page, the connection and the commits started so far. *)
Record state := State {
  previewTimer : option positive;
  localStorageTimer : option positive;
  batchedChanges : props;
  lastAppliedValues : gmap string jsval;
  timers : queue callback;
  view : page;
  conn : Connection.state;
  commits : list commit
}.

Definition with_view (p : page) (s : state) : state :=
  State (previewTimer s) (localStorageTimer s) (batchedChanges s)
        (lastAppliedValues s) (timers s) p (conn s) (commits s).

Definition with_timers (q : queue callback) (s : state) : state :=
  State (previewTimer s) (localStorageTimer s) (batchedChanges s)
        (lastAppliedValues s) q (view s) (conn s) (commits s).

Definition with_batch (b : props) (s : state) : state :=
  State (previewTimer s) (localStorageTimer s) b
        (lastAppliedValues s) (timers s) (view s) (conn s) (commits s).

Definition with_applied (m : gmap string jsval) (s : state) : state :=
  State (previewTimer s) (localStorageTimer s) (batchedChanges s)
        m (timers s) (view s) (conn s) (commits s).

Definition with_commits (cs : list commit) (s : state) : state :=
  State (previewTimer s) (localStorageTimer s) (batchedChanges s)
        (lastAppliedValues s) (timers s) (view s) (conn s) cs.

(** [lastAppliedValues[key]]: the value recorded under the key, or
    what the object inherits under that name.  (The keys under which
    the program records a value are those of [VISUAL_FIELDS] and of
    the light changes, none of which is [__proto__].) *)
Definition lastApplied (s : state) (key : string) : jsval :=
  default (inherited_get key) (lastAppliedValues s !! key).

(** The [switch (handlerName)] of [applyVisualChange]. *)
Definition call_handler (handlerName : string) (value : jsval) (p : page) : page :=
  if String.eqb handlerName "setTheme" then setTheme value p
  else if String.eqb handlerName "setBackground" then setBackground value p
  else if String.eqb handlerName "setBackgroundOpacity" then setBackgroundOpacity value p
  else p.

(** [applyVisualChange(key, value, handlerName)] *)
Definition applyVisualChange (key : string) (value : jsval) (handlerName : string)
    (s : state) : state :=
  if strict_eq (lastApplied s key) value then s
  else
    let s := with_applied (<[key := value]> (lastAppliedValues s)) s in
    with_view (call_handler handlerName value (view s)) s.

(** [debouncedLocalStorageSave()] *)
Definition debouncedLocalStorageSave (s : state) : state :=
  let q := match localStorageTimer s with
           | Some id => clearTimeout id (timers s)
           | None => timers s
           end in
  let '(id, q) := setTimeout CbLocalStorageSave LOCALSTORAGE_DEBOUNCE_DELAY q in
  State (previewTimer s) (Some id) (batchedChanges s) (lastAppliedValues s) q
        (view s) (conn s) (commits s).

(** The function [debouncedLocalStorageSave] hands to [setTimeout]; it
    reads [batchedChanges] when it runs. *)
Definition localStorageSave (s : state) : state :=
  with_view (storeSettings (assign (savedSettings (view s)) (batchedChanges s)) (view s)) s.

(** The function [flushVisualPreview] applies to each entry of
    [batchedChanges]. *)
Definition preview_entry (s : state) (entry : string * jsval) : state :=
  let '(key, value) := entry in
  match List.find (λ f, String.eqb (Settings.key f) key) (VISUAL_FIELDS.*2) with
  | Some f => if negb (immediate f) then applyVisualChange key value (handler f) s else s
  | None => s
  end.

(** [flushVisualPreview()] *)
Definition flushVisualPreview (s : state) : state :=
  debouncedLocalStorageSave (fold_left preview_entry (batchedChanges s) s).

(** [triggerVisualPreview(elementId, value)] *)
Definition triggerVisualPreview (elementId : string) (value : jsval) (s : state) : state :=
  match visual_field elementId with
  | None => s
  | Some f =>
      let s := with_batch (set (batchedChanges s) (key f) value) s in
      if immediate f then applyVisualChange (key f) value (handler f) s
      else
        let q := match previewTimer s with
                 | Some id => clearTimeout id (timers s)
                 | None => timers s
                 end in
        let '(id, q) := setTimeout CbFlushVisualPreview PREVIEW_DEBOUNCE_DELAY q in
        State (Some id) (localStorageTimer s) (batchedChanges s)
              (lastAppliedValues s) q (view s) (conn s) (commits s)
  end.

(** [flushBatchedChanges()] *)
Definition flushBatchedChanges (s : state) : state :=
  let s := match previewTimer s with
           | Some id => flushVisualPreview (with_timers (clearTimeout id (timers s)) s)
           | None => s
           end in
  let s := match localStorageTimer s with
           | Some id => debouncedLocalStorageSave (with_timers (clearTimeout id (timers s)) s)
           | None => s
           end in
  with_batch [] s.


(** [closeSettings()] *)
Definition closeSettings (s : state) : state :=
  let s := flushBatchedChanges s in
  if settings_modal (view s)
  then
    let p := addDom DomModalHidden (view s) in
    let p := Page (localStorage p) (dom p) (log p) (currentTheme p) (themes p)
                  (dialogue_section p) (settings_modal p) false (ui_settings p)
                  (themes_loaded p) in
    with_view (addLogEntry LogSettingsClosed Info p) s
  else s.

(** The function [applyLightChanges] applies to each entry of [changes]:
    an entry equal to the cached value is deleted from [changes], any
    other is recorded in the cache. *)
Definition skip_applied (acc : props * state) (entry : string * jsval) : props * state :=
  let '(changes, s) := acc in
  let '(key, value) := entry in
  if strict_eq (lastApplied s key) value
  then (remove changes key, s)
  else (changes, with_applied (<[key := value]> (lastAppliedValues s)) s).

(** [applyLightChanges(changes)]: the object it was given, as it
    leaves it, with the new state, whether it returns or throws; it
    throws when [setBackground] does, which it calls without a
    [try]. *)
Definition applyLightChanges (changes : props) (s : state) : props * state :=
  let '(changes, s) := fold_left skip_applied changes (changes, s) in
  if (length (keys changes) =? 0)%nat then (changes, s)
  else
    let p := view s in
    let p := if truthy (get changes "theme")
             then setTheme (get changes "theme") p else p in
    if truthy (get changes "background")
       && setBackground_throws (get changes "background") p
    then (changes, with_view (setBackground (get changes "background") p) s)
    else
      let p := if truthy (get changes "background")
               then setBackground (get changes "background") p else p in
      let p := if strict_neq (get changes "background_opacity") JUndefined
               then setBackgroundOpacity (get changes "background_opacity") p else p in
      let p := storeSettings (assign (savedSettings p) changes) p in
      (changes, with_view p s).

(** [applyLightChanges(changes)] throws. *)
Definition applyLightChanges_throws (changes : props) (s : state) : bool :=
  let '(changes, s) := fold_left skip_applied changes (changes, s) in
  if (length (keys changes) =? 0)%nat then false
  else
    let p := view s in
    let p := if truthy (get changes "theme")
             then setTheme (get changes "theme") p else p in
    truthy (get changes "background")
    && setBackground_throws (get changes "background") p.

(** The values [saveSettingsFromModal] reads from the form controls:
    the [value] of a control is a string, and [?.value] gives
    [undefined] when the control is missing; [parseFloat] and
    [parseInt], applied to the value or to the default that [||] puts
    in its place, give a number. *)
Record form := Form {
  personality : option string;
  voice_speed : float;
  voice_volume : float;
  llm_model : option string;
  llm_temperature : float;
  theme : option string;
  background : option string;
  background_opacity : float;
  audio_device : option string
}.

(** [document.getElementById(id)?.value] *)
Definition control (value : option string) : jsval :=
  match value with
  | Some v => JStr v
  | None => JUndefined
  end.

Definition f_personality (f : form) : jsval := control (personality f).
Definition f_voice_speed (f : form) : jsval := JNum (voice_speed f).
Definition f_voice_volume (f : form) : jsval := JNum (voice_volume f).
Definition f_llm_model (f : form) : jsval := control (llm_model f).
Definition f_llm_temperature (f : form) : jsval := JNum (llm_temperature f).
Definition f_theme (f : form) : jsval := control (theme f).
Definition f_background (f : form) : jsval := control (background f).
Definition f_background_opacity (f : form) : jsval := JNum (background_opacity f).
Definition f_audio_device (f : form) : jsval := control (audio_device f).

(** [o?.[key]], and [o[key]] on an object, for the fixed keys read from
    the server's configuration, none of which is the name of a
    property the value inherits. *)
Definition opt_get (o : jsval) (key : string) : jsval :=
  match o with
  | JObj _ fields => get fields key
  | _ => JUndefined
  end.

(** The local helper [addChange]. *)
Definition addChange (key : string) (newValue currentValue : jsval) (changes : props) : props :=
  if strict_neq newValue currentValue then set changes key newValue else changes.

(** The object [changes] once [saveSettingsFromModal] is through with
    its [addChange] calls.  When [currentSettings] is [null] or
    [undefined], reading [currentSettings.voice] for the first call
    throws, and [changes] is still empty. *)
Definition detect_changes (f : form) (currentSettings : jsval) : props :=
  if nullish currentSettings then []
  else
  let voice := opt_get currentSettings "voice" in
  let output := opt_get (opt_get currentSettings "audio") "output" in
  let input := opt_get (opt_get currentSettings "audio") "input" in
  let llm := opt_get currentSettings "llm" in
  let interface := opt_get currentSettings "interface" in
  let changes := [] in
  let changes := addChange "personality" (f_personality f) (opt_get voice "personality") changes in
  let changes := addChange "voice_speed" (f_voice_speed f) (opt_get output "speed") changes in
  let changes := addChange "voice_volume" (f_voice_volume f) (opt_get output "volume") changes in
  let changes := addChange "llm_model" (f_llm_model f) (opt_get llm "model") changes in
  let changes := addChange "llm_temperature" (f_llm_temperature f) (opt_get llm "temperature") changes in
  let changes := addChange "theme" (f_theme f) (opt_get interface "theme") changes in
  let changes := addChange "background" (f_background f) (opt_get interface "background") changes in
  let changes := addChange "background_opacity" (f_background_opacity f)
                   (opt_get interface "background_opacity") changes in
  addChange "audio_device" (f_audio_device f) (opt_get input "device_index") changes.

Definition light_keys : list string :=
  ["theme"; "background"; "background_opacity"; "voice_speed"; "voice_volume"].

(** The white space and line terminators of one byte that
    [String.prototype.trim] strips: tab, line feed, vertical tab, form
    feed, carriage return and space. *)
Definition ascii_space (a : Ascii.ascii) : bool :=
  (Ascii.eqb a " " || Ascii.eqb a "009" || Ascii.eqb a "010"
   || Ascii.eqb a "011" || Ascii.eqb a "012" || Ascii.eqb a "013")%char.

(** The third byte of the white space that starts with the bytes E2 80:
    U+2000 to U+200A, U+2028, U+2029 and U+202F. *)
Definition general_space (a : Ascii.ascii) : bool :=
  let n := Ascii.nat_of_ascii a in
  ((128 <=? n) && (n <=? 138) || (n =? 168) || (n =? 169) || (n =? 175))%nat.

(** [s.trim()] is empty: every character of [s] is white space or a
    line terminator.  Besides those of one byte these are U+00A0 (C2
    A0), U+1680 (E1 9A 80), those that start with E2 80, U+205F (E2 81
    9F), U+3000 (E3 80 80) and U+FEFF (EF BB BF). *)
Fixpoint blank (s : string) : bool :=
  match s with
  | EmptyString => true
  | String a rest =>
      if ascii_space a then blank rest
      else
        match rest with
        | String b rest' =>
            if (Ascii.eqb a "194" && Ascii.eqb b "160")%char then blank rest'
            else
              match rest' with
              | String c rest'' =>
                  ((Ascii.eqb a "225" && Ascii.eqb b "154" && Ascii.eqb c "128")
                   || (Ascii.eqb a "226" && Ascii.eqb b "128" && general_space c)
                   || (Ascii.eqb a "226" && Ascii.eqb b "129" && Ascii.eqb c "159")
                   || (Ascii.eqb a "227" && Ascii.eqb b "128" && Ascii.eqb c "128")
                   || (Ascii.eqb a "239" && Ascii.eqb b "187" && Ascii.eqb c "191"))%char
                  && blank rest''
              | EmptyString => false
              end
        | EmptyString => false
        end
  end.

(** The code after the [await] of the correlated response: success is
    logged and the modal closed, failure is thrown and logged by the
    [catch]. *)
Definition commit_result (success : bool) (count : nat) (s : state) : state :=
  if success
  then closeSettings (with_view (addLogEntry (LogSaved count) Success (view s)) s)
  else with_view (addLogEntry (LogSaveError "Timeout ou erreur serveur") Error (view s)) s.

(** [resolve(b)] of the promise of commit [n]: only the first call
    settles it, and the code waiting on it then runs. *)
Definition resolve (n : nat) (b : bool) (s : state) : state :=
  match commits s !! n with
  | Some c =>
      match c_settled c with
      | Some _ => s
      | None =>
          let c := Commit (c_timeout c) (c_listening c) (Some b) (c_count c) in
          commit_result b (c_count c) (with_commits (<[n := c]> (commits s)) s)
      end
  | None => s
  end.

(** [saveSettingsFromModal()], given the values of the form controls
    and the configuration [getCurrentServerConfig()] returned.  An
    exception is caught at the end of the function and logged, as
    'Erreur sauvegarde: ' followed by its message: [LogSaveError] with
    the message of the errors the function throws itself,
    [LogSaveTypeError] with the message the JavaScript engine gives the
    TypeError of reading a property of [null] or [undefined].
    ([applyLightChanges] and [trim] do not throw here: the background
    and the personality are values of form controls, strings.) *)
Definition saveSettingsFromModal (f : form) (currentSettings : jsval) (s : state) : state :=
  let s := with_view (addLogEntry LogSelectiveSave Info (view s)) s in
  let s := flushBatchedChanges s in
  if nullish currentSettings
  then with_view (addLogEntry LogSaveTypeError Error (view s)) s
  else
  let changes := detect_changes f currentSettings in
  if (length (keys changes) =? 0)%nat
  then closeSettings (with_view (addLogEntry LogNoChange Info (view s)) s)
  else
    let lightChanges :=
      List.filter (λ kv, bool_decide (fst kv ∈ light_keys)) changes in
    let heavyChanges :=
      List.filter (λ kv, negb (bool_decide (fst kv ∈ light_keys))) changes in
    let '(lightChanges, s) :=
      if (0 <? length (keys lightChanges))%nat
      then
        let '(l, s) := applyLightChanges lightChanges s in
        (l, with_view (addLogEntry LogVisualApplied Success (view s)) s)
      else (lightChanges, s) in
    let allChangesToSave := assign (assign [] lightChanges) heavyChanges in
    if (0 <? length (keys allChangesToSave))%nat
    then
      let personality_blank :=
        match get allChangesToSave "personality" with
        | JStr p => negb (String.eqb p "") && blank p
        | _ => false
        end in
      if personality_blank
      then with_view (addLogEntry (LogSaveError "Personnalité requise") Error (view s)) s
      else if negb (Connection.isConnected (conn s))
      then with_view (addLogEntry (LogSaveError "Connexion WebSocket requise") Error (view s)) s
      else
        let n := length (commits s) in
        let '(timeout, q) := setTimeout (CbCommitTimeout n) 5000 (timers s) in
        let count := length (keys allChangesToSave) in
        let s := with_commits (commits s ++ [Commit timeout true None count])
                   (with_timers q s) in
        let '(c, sent) :=
          Connection.sendWebSocketMessage
            (JObj 0 [("type", JStr "config_update");
                     ("config", JObj 0 allChangesToSave)])
            (conn s) in
        let s := State (previewTimer s) (localStorageTimer s) (batchedChanges s)
                       (lastAppliedValues s) (timers s) (view s) c (commits s) in
        if negb sent
        then resolve n false (with_timers (clearTimeout timeout (timers s)) s)
        else s
    else closeSettings s.

(** The listener [handleResponse] of commit [n] receives [data], the
    parsed frame ([None] when [JSON.parse] throws). *)
Definition handleResponse (data : option jsval) (n : nat) (s : state) : state :=
  match data, commits s !! n with
  | Some (JObj _ fields), Some c =>
      if strict_eq (get fields "type") (JStr "config_updated")
      then
        let s := with_timers (clearTimeout (c_timeout c) (timers s)) s in
        let c := Commit (c_timeout c) false (c_settled c) (c_count c) in
        let s := with_commits (<[n := c]> (commits s)) s in
        resolve n (strict_eq (get fields "success") (JBool true)) s
      else s
  | _, _ => s
  end.

(** A frame arrives: the listeners registered at that moment run, in
    registration order. *)
Definition on_message (data : option jsval) (s : state) : state :=
  let listening :=
    List.filter (λ n, match commits s !! n with
                      | Some c => c_listening c
                      | None => false
                      end) (seq 0 (length (commits s))) in
  fold_left (λ s n, handleResponse data n s) listening s.

(** The event loop fires timer [id]. *)
Definition fire (id : positive) (s : state) : state :=
  match take_timer id (timers s) with
  | Some (cb, q) =>
      let s := with_timers q s in
      match cb with
      | CbFlushVisualPreview => flushVisualPreview s
      | CbLocalStorageSave => localStorageSave s
      | CbCommitTimeout n => resolve n false s
      end
  | None => s
  end.

(** What can happen to the modal. *)
Inductive event :=
| Edited (elementId : string) (value : jsval)
| Closed
| Saved (f : form) (currentSettings : jsval)
| Message (data : option jsval)
| TimerFired (id : positive).

Definition handle (e : event) (s : state) : state :=
  match e with
  | Edited elementId value => triggerVisualPreview elementId value s
  | Closed => closeSettings s
  | Saved f currentSettings => saveSettingsFromModal f currentSettings s
  | Message data => on_message data s
  | TimerFired id => fire id s
  end.

Definition run (es : list event) (s : state) : state :=
  fold_left (λ s e, handle e s) es s.

(** The fields of the stored [jarvis-settings] entry. *)
Definition stored (s : state) : props := savedSettings (view s).

(** [data] is a frame the commits' listeners react to: an object whose
    [type] is [config_updated]. *)
Definition is_response (data : option jsval) : bool :=
  match data with
  | Some (JObj _ fields) => strict_eq (get fields "type") (JStr "config_updated")
  | _ => false
  end.

(** Timer ids kept in variables were handed out by [setTimeout], and a
    pending deadline belongs to a commit already started. *)
Definition fresh (s : state) : Prop :=
  (∀ p, previewTimer s = Some p → (p < next_id (timers s))%positive)
  ∧ (∀ p, localStorageTimer s = Some p → (p < next_id (timers s))%positive)
  ∧ (∀ t m, t ∈ pending (timers s) → timer_callback t = CbCommitTimeout m →
       (m < length (commits s))%nat)
  ∧ (∀ t, t ∈ pending (timers s) → (timer_id t < next_id (timers s))%positive).

(** Commit [n] is waiting: not resolved, still listening, and its
    deadline timer [id], of 5000 ms, is pending. *)
Definition waiting (n : nat) (id : positive) (s : state) : Prop :=
  (id < next_id (timers s))%positive
  ∧ previewTimer s ≠ Some id
  ∧ localStorageTimer s ≠ Some id
  ∧ (∃ c, commits s !! n = Some c ∧ c_timeout c = id
          ∧ c_settled c = None ∧ c_listening c = true)
  ∧ Timer id 5000 (CbCommitTimeout n) ∈ pending (timers s)
  ∧ (∀ t, t ∈ pending (timers s) →
       timer_callback t = CbCommitTimeout n ↔ timer_id t = id).

(** Commit [n] has been resolved with [b]. *)
Definition settled (n : nat) (b : bool) (s : state) : Prop :=
  ∃ c, commits s !! n = Some c ∧ c_settled c = Some b.

(** An event that neither delivers a [config_updated] response nor
    fires timer [id]. *)
Definition quiet (id : positive) (e : event) : Prop :=
  match e with
  | Message data => is_response data = false
  | TimerFired i => i ≠ id
  | _ => True
  end.

(** Commit [n] has not been resolved yet. *)
Definition unsettled (n : nat) (s : state) : Prop :=
  ∃ c, commits s !! n = Some c ∧ c_settled c = None.

(** The configuration of a server on which nothing has been set: the
    values the form shows by default. *)
Definition server_defaults : jsval :=
  JObj 1 [("audio", JObj 2 [("output", JObj 3 [("speed", JNum 1); ("volume", JNum 90)])]);
          ("llm", JObj 4 [("temperature", JNum 0.7)]);
          ("interface", JObj 5 [("background_opacity", JNum 30)])].

(** A form in which only the model has been chosen. *)
Definition model_chosen : form :=
  Form None 1 90 (Some "qwen2.5:7b") 0.7 None None 30 None.

(** The variables the commit protocol depends on. *)
Definition protocol (s : state) :=
  (previewTimer s, localStorageTimer s, timers s, commits s, conn s).

(** Resolved commits of [cs] are resolved the same way in [cs']. *)
Definition keeps_outcomes (cs cs' : list commit) : Prop :=
  ∀ n c b, cs !! n = Some c → c_settled c = Some b →
           ∃ c', cs' !! n = Some c' ∧ c_settled c' = Some b.

(** A freshly opened modal on a connected page: nothing queued, nothing
    cached, nothing stored. *)
Definition opened : state :=
  State None None [] ∅ (Queue [] 1%positive)
    (Page ∅ [] [] (JStr "dark") ["dark"; "light"] true true true
       [("voiceVisible", JBool false)] true)
    (Connection.State true (Some 0%nat) [Connection.OPEN] (Queue [] 1%positive)
       [] [] 0 [])
    [].

(** The user picks a background in the modal. *)
Definition background_edited : state :=
  triggerVisualPreview "interface-background" (JStr "space.jpg") opened.

End Settings.

(** ** A streamed conversation (message-handler.js, seen from its callers) *)

Module Stream.
Import Assembler.

(** [addUserMessage(content)] *)
Definition addUserMessage (content : string) (s : state) : state :=
  match dialogue s with
  | None => s
  | Some c =>
      scrollToBottom
        (with_dialogue
           (Some (Container (children c ++ [createMessageBubble "user" content])
                    (scrollTop c))) s)
  end.

(** What the router and the page make the assembler do: the handlers of
    [message_processing_start], [llm_token] and [llm_complete], a
    transcription or a message typed by the user, the [beforeunload]
    listener, and the event loop firing a timer. *)
Inductive event :=
| TurnStarted
| Token (token : string)
| TurnCompleted (now : string)
| UserMessage (content : string)
| Unloading
| TimerFired (id : positive).

Definition handle (e : event) (s : state) : state :=
  match e with
  | TurnStarted => startNewAssistantResponse s
  | Token token => appendToCurrentResponse token s
  | TurnCompleted now => finishCurrentResponse now s
  | UserMessage content => addUserMessage content s
  | Unloading => resetTokenBuffer s
  | TimerFired id => fire id s
  end.

Definition run (es : list event) (s : state) : state :=
  fold_left (λ s e, handle e s) es s.

(** The events of a response being streamed: tokens, and timers going
    off in between. *)
Definition streaming (e : event) : Prop :=
  match e with
  | Token _ | TimerFired _ => True
  | _ => False
  end.

(** The tokens of a trace, joined in arrival order. *)
Fixpoint tokens_of (es : list event) : string :=
  match es with
  | [] => ""
  | Token token :: rest => token +:+ tokens_of rest
  | _ :: rest => tokens_of rest
  end.

(** The transcript holds the bubbles [before], none of which is marked
    [current-response], then the open turn showing [shown], then the
    bubbles [after]. *)
Definition open_turn (before : list bubble) (kind shown : string)
    (times : list string) (after : list bubble) (s : state) : Prop :=
  Forall (λ b, is_current b = false) before
  ∧ ∃ top, dialogue s =
           Some (Container
                   (before
                    ++ Bubble kind (Some "current-response") (Some shown) times
                    :: after) top).

(** At most one deferred flush is pending, and it is the one
    [bufferFlushTimer] names, armed for [BATCH_TIMEOUT]. *)
Definition one_flush_pending (s : state) : Prop :=
  (length (pending (timers s)) ≤ 1)%nat
  ∧ ∀ t, t ∈ pending (timers s) →
         bufferFlushTimer s = Some (timer_id t) ∧ timer_delay t = BATCH_TIMEOUT.

(** A page that has just been loaded: an empty transcript of height
    [height], nothing buffered, no timer. *)
Definition loaded (height : list bubble → Z) (client : Z) : state :=
  State "" None (Queue [] 1%positive) (Some (Container [] 0)) height client.

End Stream.

(** ** Inbound frames (websocket-manager.js, [handleWebSocketMessage]) *)

Module Inbound.
Import Router.

(** What [JSON.parse] makes of [event.data]: it throws, or returns
    [null], which has no properties, or returns a value whose [type]
    can be read (and is not itself an array or an object). *)
Inductive decoded :=
| NotJSON
| Null
| Data (data : envelope).

(** A frame as [handleWebSocketMessage] meets it: what [JSON.parse]
    makes of [event.data], the two readings of [performance.now()]
    taken while routing, and the message of the error caught, if one is
    thrown. *)
Record frame := Frame {
  parsed : decoded;
  startTime : float;
  endTime : float;
  error_message : string
}.

Section WithHandlers.
Context {handler app : Type}.
Variable run_handler : handler → envelope → app → app * outcome.
Variable addLogEntry : log_message → level → app → app.
(** The [addLogEntry] call of the [catch] block, given the message of
    the error. *)
Variable logParseError : string → app → app.

(** [routeWebSocketMessage(null)]: the message is counted, then reading
    [data.type] throws a TypeError. *)
Definition route_null (st : state handler app) : state handler app * outcome :=
  let m := metrics st in
  (State (messageRoutes st)
     (Metrics (totalMessages m + 1) (routingTimeSum m) (unknownTypes m)
        (mostFrequent m))
     (application st),
   Threw).

(** [handleWebSocketMessage(event)] *)
Definition handleWebSocketMessage (f : frame) (st : state handler app) :
    state handler app :=
  let caught st :=
    State (messageRoutes st) (metrics st)
      (logParseError (error_message f) (application st)) in
  match parsed f with
  | NotJSON => caught st
  | Null => caught (fst (route_null st))
  | Data data =>
      match routeWebSocketMessage run_handler addLogEntry
              (startTime f) (endTime f) data st with
      | (st, Returned) => st
      | (st, Threw) => caught st
      end
  end.

(** The frames of a session, oldest first. *)
Definition receive (fs : list frame) (st : state handler app) : state handler app :=
  fold_left (λ st f, handleWebSocketMessage f st) fs st.

End WithHandlers.

(** The frames that parse to a value with a readable [type]. *)
Definition messages (fs : list frame) : list envelope :=
  omap (λ f, match parsed f with Data data => Some data | _ => None end) fs.

(** [JSON.parse] returns on the frame. *)
Definition parses (f : frame) : bool :=
  match parsed f with NotJSON => false | _ => true end.

(** How many frames of [fs] parse. *)
Definition count_parsed (fs : list frame) : nat :=
  length (filter (λ f, parses f = true) fs).

(** How many messages of [ms] carry the type [t]. *)
Definition count_type (t : JS.primitive) (ms : list envelope) : nat :=
  length (filter (λ m, same_key (msg_type m) t = true) ms).

(** How many messages of [ms] have a type without a route in [routes]. *)
Definition count_unknown {handler} (routes : gmap string handler)
    (ms : list envelope) : nat :=
  length (filter (λ m, route routes (msg_type m) = None) ms).

(** The count recorded for [t], zero when there is none. *)
Definition recorded (m : routingMetrics) (t : JS.primitive) : Z :=
  default 0%Z (map_get (mostFrequent m) t).

End Inbound.

(** ** A connection over time (websocket-manager.js) *)

Module Session.
Import Connection.

Definition is_close (e : event) : bool :=
  match e with SocketClosed _ => true | _ => false end.

(** Number of close events in a trace. *)
Definition closes (es : list event) : nat := length (List.filter is_close es).

(** The periodic connection check, or the page coming back to the
    foreground: the two occasions on which app-main.js looks whether
    the connection is gone. *)
Definition is_check (e : event) : bool :=
  match e with CheckElapsed | VisibilityChanged false => true | _ => false end.

(** Number of such occasions in a trace. *)
Definition checks (es : list event) : nat := length (List.filter is_check es).

(** [sendTextMessage(content)] *)
Definition sendTextMessage (content : string) (c : state) : state * bool :=
  sendWebSocketMessage
    (JS.JObj 0 [("type", JS.JStr "text_message"); ("text", JS.JStr content)]) c.

(** [requestVoiceInput()] *)
Definition requestVoiceInput (c : state) : state * bool :=
  sendWebSocketMessage (JS.JObj 0 [("type", JS.JStr "voice_input")]) c.

End Session.

(** ** The conversation (message-handler.js: sending, voice, clearing) *)

Module Chat.
Import Assembler.

(** The texts this part of the file passes to [addLogEntry]; the one
    for a sent message shows its first 50 characters. *)
Inductive log_message :=
| LogEmptyMessage
| LogSendNeedsConnection
| LogMessageSent (message : string)
| LogVoiceNeedsConnection
| LogAlreadyListening
| LogVoiceStarting
| LogConversationCleared.

(** The transcript and token buffer, the connection, the session
    statistics, the value of the [#message-input] field, [isListening],
    the statistics each [updateStatsDisplay()] call put on the page, and
    the log. *)
Record state := State {
  transcript : Assembler.state;
  link : Connection.state;
  stats : Stats.stats;
  input : string;
  isListening : bool;
  displayed : list Stats.stats;
  log : list (log_message * level)
}.

Definition addLogEntry (m : log_message) (l : level) (s : state) : state :=
  State (transcript s) (link s) (stats s) (input s) (isListening s)
        (displayed s) (log s ++ [(m, l)]).

Definition with_transcript (t : Assembler.state) (s : state) : state :=
  State t (link s) (stats s) (input s) (isListening s) (displayed s) (log s).

Definition with_link (c : Connection.state) (s : state) : state :=
  State (transcript s) c (stats s) (input s) (isListening s) (displayed s) (log s).

(** [updateStatsDisplay()] of variables-globals.js *)
Definition updateStatsDisplay (s : state) : state :=
  State (transcript s) (link s) (stats s) (input s) (isListening s)
        (displayed s ++ [stats s]) (log s).

(** [setInputValue(value)], and the user typing in the field. *)
Definition setInputValue (value : string) (s : state) : state :=
  State (transcript s) (link s) (stats s) value (isListening s) (displayed s) (log s).

(** [setListeningState(listening)] *)
Definition setListeningState (listening : bool) (s : state) : state :=
  State (transcript s) (link s) (stats s) (input s) listening (displayed s) (log s).

(** What [clearConversation] leaves in the container: one system
    bubble, whose text is that of the markup assigned to [innerHTML]. *)
Definition cleared_notice : bubble :=
  Bubble "system" None
    (Some (String "010" ("                    🗑️ Conversation effacée"
                         +:+ String "010" "                ")))
    [].

(** [clearConversation()], [confirmed] being the answer to [confirm]. *)
Definition clearConversation (confirmed : bool) (s : state) : state :=
  let s := with_transcript (resetTokenBuffer (transcript s)) s in
  if negb confirmed then s
  else
    match dialogue (transcript s) with
    | None => s
    | Some c =>
        let s := with_transcript
                   (with_dialogue (Some (Container [cleared_notice] (scrollTop c)))
                      (transcript s)) s in
        let s := State (transcript s) (link s) Stats.initial (input s)
                       (isListening s) (displayed s) (log s) in
        addLogEntry LogConversationCleared Info (updateStatsDisplay s)
    end.

(** [toggleVoiceInput()] *)
Definition toggleVoiceInput (s : state) : state :=
  if negb (Connection.isConnected (link s))
  then addLogEntry LogVoiceNeedsConnection Error s
  else if isListening s then addLogEntry LogAlreadyListening Info s
  else
    let '(c, sent) := Session.requestVoiceInput (link s) in
    let s := with_link c s in
    if sent then addLogEntry LogVoiceStarting Info s else s.

Section WithTrim.
(** [String.prototype.trim] *)
Variable trim : string → string.

(** [sendMessage()] *)
Definition sendMessage (s : state) : state :=
  let message := trim (input s) in
  if String.eqb message "" then addLogEntry LogEmptyMessage Warning s
  else if negb (Connection.isConnected (link s))
  then addLogEntry LogSendNeedsConnection Error s
  else
    let s := with_transcript (Stream.addUserMessage message (transcript s)) s in
    let '(c, sent) := Session.sendTextMessage message (link s) in
    let s := with_link c s in
    if sent
    then
      let counted :=
        Stats.Stats_ (Stats.messages (stats s) + 1) (Stats.tokens (stats s))
          (Stats.totalTime (stats s)) (Stats.ttsEfficiency (stats s)) in
      let s := State (transcript s) (link s) counted "" (isListening s)
                     (displayed s) (log s) in
      addLogEntry (LogMessageSent message) Info (updateStatsDisplay s)
    else s.

(** What happens on the page: typing, Ctrl+Enter, the microphone
    button, the listening notifications of the server, and what reaches
    the connection and the transcript. *)
Inductive event :=
| Typed (value : string)
| SendPressed
| MicPressed
| Listening (listening : bool)
| Socket (e : Connection.event)
| Flow (e : Stream.event).

Definition handle (e : event) (s : state) : state :=
  match e with
  | Typed value => setInputValue value s
  | SendPressed => sendMessage s
  | MicPressed => toggleVoiceInput s
  | Listening listening => setListeningState listening s
  | Socket e => with_link (Connection.handle e (link s)) s
  | Flow e => with_transcript (Stream.handle e (transcript s)) s
  end.

Definition run (es : list event) (s : state) : state :=
  fold_left (λ s e, handle e s) es s.

End WithTrim.

(** A frame is a [text_message]. *)
Definition is_text (frame : JS.jsval) : bool :=
  match frame with
  | JS.JObj _ fields => JS.strict_eq (JS.get fields "type") (JS.JStr "text_message")
  | _ => false
  end.

(** Number of text messages that went out on the connection. *)
Definition text_frames (c : Connection.state) : Z :=
  Z.of_nat (length (List.filter is_text (Connection.sent c))).

(** The socket [ws] refers to is open. *)
Definition socket_open (c : Connection.state) : Prop :=
  ∃ i, Connection.ws c = Some i ∧ Connection.sockets c !! i = Some Connection.OPEN.

End Chat.

(** ** Configurations the diff is run on *)

Module Config.
Import JS Diff.


End Config.

(** ** Saving from the modal, step by step (settings-modal.js) *)

Module Saving.
Import JS Settings.

(** The state in which [saveSettingsFromModal] compares the form with
    the server's configuration: the save has been announced in the log
    and the pending previews flushed. *)
Definition flushed_for_save (s : state) : state :=
  flushBatchedChanges (with_view (addLogEntry LogSelectiveSave Info (view s)) s).


(** A change is already in the Last-Applied Cache of [s]. *)
Definition cached (s : state) (k : string) (v : jsval) : Prop :=
  strict_eq (lastApplied s k) v = true.

(** Every pending timer got its id from [setTimeout]. *)
Definition ids_fresh (s : state) : Prop :=
  ∀ t, t ∈ pending (timers s) → (timer_id t < next_id (timers s))%positive.

(** The timers left once the pending preview, if any, is cleared. *)
Definition cancel_preview (s : state) : queue callback :=
  match previewTimer s with
  | Some id => clearTimeout id (timers s)
  | None => timers s
  end.

(** The user changes the background select several times in a row. *)
Definition pick_backgrounds (values : list jsval) (s : state) : state :=
  run (Edited "interface-background" <$> values) s.

(** The user picked a background and the preview timer went off: the
    background is on the page and in the cache. *)
Definition background_previewed : state :=
  fire 1%positive background_edited.

(** A form in which only the background has been chosen. *)
Definition background_chosen : form :=
  Form None 1 90 None 0.7 None (Some "space.jpg") 30 None.

(** The modal of [opened], on a page that has lost its connection. *)
Definition offline : state :=
  State None None [] ∅ (Queue [] 1%positive) (view opened)
    (Connection.State false (Some 0%nat) [Connection.CLOSED] (Queue [] 1%positive)
       [] [] 0 [])
    [].

End Saving.

(** ** Themes over time (theme-manager.js) *)

Module Theme.
Import JS Settings.

(** The texts [toggleTheme] and [initializeTheme] pass to
    [addLogEntry], with the values they interpolate. *)
Inductive log_message :=
| LogNotLoaded
| LogSwitching (current next : jsval)
| LogInitializing (theme : jsval).

(** What the functions read of [themesConfig.config]: [cycle_order], an
    array of theme ids when present, and [default_theme]. *)
Record config := Config {
  cycle_order : option (list string);
  default_theme : jsval
}.

(** The page, [themesConfig] ([None] until themes.json is loaded; from
    then on [themesConfig.themes] exists, [themes_loaded] holds of the
    page and the ids of [themesConfig.themes], in the order of
    [Object.keys], are the [themes] of the page) and the log entries of
    this part of the file. *)
Record state := State {
  page : Settings.page;
  themesConfig : option config;
  notes : list (log_message * level)
}.

Definition note (m : log_message) (l : level) (s : state) : state :=
  State (page s) (themesConfig s) (notes s ++ [(m, l)]).

Definition with_page (p : Settings.page) (s : state) : state :=
  State p (themesConfig s) (notes s).

(** [themes.indexOf(v)] *)
Fixpoint indexOf (themes : list string) (v : jsval) : Z :=
  match themes with
  | [] => -1
  | x :: rest =>
      if strict_eq (JStr x) v then 0
      else let i := indexOf rest v in if (i <? 0)%Z then -1 else (i + 1)%Z
  end.

(** [themes[(currentIndex + 1) % themes.length]]; the remainder by zero
    is NaN, and indexing by it gives [undefined]. *)
Definition next_in_cycle (themes : list string) (currentIndex : Z) : jsval :=
  if (length themes =? 0)%nat then JUndefined
  else
    match themes !! Z.to_nat ((currentIndex + 1) mod Z.of_nat (length themes)) with
    | Some x => JStr x
    | None => JUndefined
    end.

(** [toggleTheme()] *)
Definition toggleTheme (s : state) : state :=
  match themesConfig s with
  | None => note LogNotLoaded Error s
  | Some cfg =>
      let themes := default (Settings.themes (page s)) (cycle_order cfg) in
      let currentIndex := indexOf themes (currentTheme (page s)) in
      let next := next_in_cycle themes currentIndex in
      let s := note (LogSwitching (currentTheme (page s)) next) Info s in
      with_page (setTheme next (page s)) s
  end.

(** [initializeTheme(defaultTheme)]; [loadSavedSettings()] reads the
    [jarvis-settings] entry. *)
Definition initializeTheme (defaultTheme : jsval) (s : state) : state :=
  let saved := get (savedSettings (page s)) "theme" in
  let configured :=
    match themesConfig s with
    | Some cfg => default_theme cfg
    | None => JUndefined
    end in
  let themeToApply :=
    if truthy saved then saved
    else if truthy configured then configured
    else defaultTheme in
  let s := note (LogInitializing themeToApply) Info s in
  with_page (setTheme themeToApply (page s)) s.

(** [theme] names neither a loaded theme nor a property every object
    inherits: [themesConfig.themes[theme]] is [undefined]. *)
Definition unknown_theme (theme : jsval) (p : Settings.page) : Prop :=
  ∃ t, theme_key theme = Some t ∧ t ∉ Settings.themes p ∧ inherited t = false.

(** [toggleTheme()] called [n] times. *)
Definition toggles (n : nat) (s : state) : state := Nat.iter n toggleTheme s.

(** The cycle [toggleTheme] follows. *)
Definition cycle (s : state) : list string :=
  match themesConfig s with
  | Some cfg => default (Settings.themes (page s)) (cycle_order cfg)
  | None => []
  end.

End Theme.

(** ** Resetting the settings (settings-modal.js) *)

Module Reset.
Import JS Settings.

(** The texts [resetSettings] passes to [addLogEntry]. *)
Inductive log_message :=
| LogReset
| LogResetError (message : string).

(** The modal and the log entries of [resetSettings]. *)
Record state := State {
  modal : Settings.state;
  notes : list (log_message * level)
}.

Definition note (m : log_message) (l : level) (s : state) : state :=
  State (modal s) (notes s ++ [(m, l)]).





End Reset.

(** * Properties *)

Section JSFacts.
Import JS.

Lemma get_set_eq o key v : get (set o key v) key = v.
Proof.
  induction o as [|[k w] rest IH]; simpl.
  - by rewrite String.eqb_refl.
  - destruct (String.eqb k key) eqn:E; simpl; rewrite E; auto.
Qed.

Lemma get_set_ne o key key' v :
  key ≠ key' → get (set o key v) key' = get o key'.
Proof.
  intros Hne. induction o as [|[k w] rest IH]; simpl.
  - destruct (String.eqb key key') eqn:E; auto.
    apply String.eqb_eq in E. done.
  - destruct (String.eqb k key) eqn:E; simpl.
    + apply String.eqb_eq in E. subst k.
      destruct (String.eqb key key') eqn:E'; auto.
      apply String.eqb_eq in E'. done.
    + destruct (String.eqb k key'); auto.
Qed.

Lemma hasOwn_set o key key' v :
  hasOwn (set o key v) key' = String.eqb key key' || hasOwn o key'.
Proof.
  induction o as [|[k w] rest IH]; simpl.
  - done.
  - destruct (String.eqb k key) eqn:E; simpl.
    + apply String.eqb_eq in E. subst k.
      by destruct (String.eqb key key').
    + rewrite IH. destruct (String.eqb k key'), (String.eqb key key'); done.
Qed.

Lemma get_not_own o key : hasOwn o key = false → get o key = JUndefined.
Proof.
  induction o as [|[k w] rest IH]; simpl; auto.
  destruct (String.eqb k key); simpl; [done | auto].
Qed.

Lemma set_nonempty o key v : set o key v ≠ [].
Proof. destruct o as [|[k w] rest]; simpl; [done|]. by destruct (String.eqb k key). Qed.

Lemma hasOwn_elem o key : hasOwn o key = true ↔ key ∈ keys o.
Proof.
  unfold keys. induction o as [|[k w] rest IH]; simpl.
  - split; [done | by intros ?%elem_of_nil].
  - rewrite elem_of_cons, orb_true_iff, IH, String.eqb_eq. naive_solver.
Qed.

Lemma keys_unique (o : props) key v v' :
  NoDup (keys o) → (key, v) ∈ o → (key, v') ∈ o → v = v'.
Proof.
  unfold keys. induction o as [|[k w] rest IH]; simpl.
  - by intros _ ?%elem_of_nil.
  - intros [Hk Hnd]%NoDup_cons [E1|Hin1]%elem_of_cons [E2|Hin2]%elem_of_cons.
    + congruence.
    + injection E1 as -> ->. destruct Hk. by apply (list_elem_of_fmap_2 fst _ (k, v')).
    + injection E2 as -> ->. destruct Hk. by apply (list_elem_of_fmap_2 fst _ (k, v)).
    + eauto.
Qed.

End JSFacts.

(** ** The settings diff *)

Section DiffFacts.
Import JS Diff.

Lemma plain_object_test v :
  String.eqb (typeof v) "object" && strict_neq v JNull && negb (isArray v) = true
  ↔ plain_object v.
Proof.
  unfold plain_object. destruct v as [| | | | | | |[|name]]; simpl; split; try done;
    try (by intros [(? & ? & [=])|[=]]); eauto.
Qed.

Lemma not_plain_object_test v :
  negb (String.eqb (typeof v) "object") || strict_eq v JNull || isArray v = true
  ↔ ¬ plain_object v.
Proof.
  rewrite <- plain_object_test. unfold strict_neq.
  destruct (String.eqb (typeof v) "object"), (strict_eq v JNull), (isArray v);
    simpl; split; try done; by intros [].
Qed.

Lemma plain_object_nullish v : plain_object v → nullish v = false.
Proof. by intros [(r & fields & ->)| ->]. Qed.

Lemma index_nullish current key :
  nullish current = false →
  index current key = Some (default JUndefined (index current key)).
Proof.
  unfold index. intros ->. by destruct current as [| | | | | | |[|name]].
Qed.

Lemma index_Some_nullish current key c :
  index current key = Some c → nullish current = false.
Proof. unfold index. by destruct (nullish current). Qed.

Lemma index_throws current key : nullish current = true → index current key = None.
Proof. unfold index. by intros ->. Qed.

Variable recurse : jsval → jsval → option props.

Lemma diff_entries_rounds current entries changes :
  nullish current = false →
  Forall (λ kv, ∀ c, plain_object c → is_Some (recurse c (snd kv))) entries →
  diff_entries recurse current entries changes
  = Some (fold_left (round recurse current) entries changes).
Proof.
  intros Hcur. revert changes.
  induction entries as [|[key newValue] rest IH]; intros changes Hrec; [done|].
  apply Forall_cons in Hrec as [Hrec Hrest]. simpl in Hrec.
  cbn [diff_entries fold_left]. unfold round at 2. cbn [fst snd].
  destruct (index current key) as [c|] eqn:Hidx;
    [|by rewrite (index_nullish current key Hcur) in Hidx].
  change (default JUndefined (Some c)) with c.
  unfold entry_changes.
  destruct (String.eqb (typeof newValue) "object" && strict_neq newValue JNull
            && negb (isArray newValue)).
  - destruct (negb (String.eqb (typeof c) "object") || strict_eq c JNull || isArray c)
      eqn:Hc; [by apply IH|].
    apply not_true_iff_false in Hc. rewrite not_plain_object_test in Hc.
    assert (Hplain : plain_object c).
    { destruct c as [| | | | | | |[|name]];
        try (destruct Hc; by intros [(? & ? & [=])|[=]]).
      - left. by eexists _, _.
      - by right. }
    destruct (Hrec c Hplain) as [nested ->].
    destruct (0 <? length (keys nested))%nat; by apply IH.
  - destruct (strict_neq c newValue); [|by apply IH]. simpl.
    destruct (String.eqb (typeof c) "number" && String.eqb (typeof newValue) "number"
              && (PrimFloat.abs (num c - num newValue) <? 0.00001)%float);
      by apply IH.
Qed.

Lemma diff_entries_throws current entry entries changes :
  nullish current = true →
  diff_entries recurse current (entry :: entries) changes = None.
Proof.
  intros Hcur. destruct entry as [key newValue]. simpl.
  by rewrite (index_throws current key Hcur).
Qed.

Lemma rounds_cons current entry rest changes :
  fold_left (round recurse current) (entry :: rest) changes
  = fold_left (round recurse current) rest (round recurse current changes entry).
Proof. done. Qed.

Lemma round_nonempty current changes entry :
  round recurse current changes entry ≠ [] ↔
  changes ≠ []
  ∨ (fst entry ≠ "__proto__"
     ∧ entry_changes recurse (default JUndefined (index current (fst entry))) (snd entry)
       = true).
Proof.
  unfold round, put.
  destruct (entry_changes recurse _ _); [|naive_solver].
  destruct (String.eqb (fst entry) "__proto__") eqn:E.
  - apply String.eqb_eq in E. naive_solver.
  - apply String.eqb_neq in E. split; [by right|]. intros _. apply set_nonempty.
Qed.

Lemma rounds_nonempty current entries changes :
  (0 <? length (keys (fold_left (round recurse current) entries changes)))%nat = true ↔
  changes ≠ [] ∨
  ∃ k v, (k, v) ∈ entries ∧ k ≠ "__proto__"
         ∧ entry_changes recurse (default JUndefined (index current k)) v = true.
Proof.
  revert changes. induction entries as [|[k v] rest IH]; intros changes.
  - simpl. unfold keys. rewrite Nat.ltb_lt, length_fmap. split.
    + intros Hlen. left. intros ->. simpl in Hlen. lia.
    + intros [Hne|(? & ? & []%elem_of_nil & _)].
      destruct changes; [done | simpl; lia].
  - rewrite rounds_cons, IH, round_nonempty. simpl. split.
    + intros [[Hne|[Hk Hch]]|(k' & v' & Hin & Hk & Hch)].
      * by left.
      * right. exists k, v. split; [left | done].
      * right. exists k', v'. split; [by right | done].
    + intros [Hne|(k' & v' & Hin & Hk & Hch)].
      * left. by left.
      * apply elem_of_cons in Hin as [[= -> ->]|Hin].
        -- left. by right.
        -- right. by exists k', v'.
Qed.

Lemma rounds_get_other current entries changes key :
  key ∉ keys entries →
  get (fold_left (round recurse current) entries changes) key = get changes key
  ∧ hasOwn (fold_left (round recurse current) entries changes) key = hasOwn changes key.
Proof.
  unfold keys. revert changes.
  induction entries as [|[k v] rest IH]; intros changes Hk; [done|].
  rewrite rounds_cons. simpl in Hk.
  apply not_elem_of_cons in Hk as [Hne Hk].
  destruct (IH (round recurse current changes (k, v)) Hk) as [-> ->].
  unfold round, put. simpl.
  destruct (entry_changes recurse _ v); [|done].
  destruct (String.eqb k "__proto__"); [done|].
  rewrite get_set_ne, hasOwn_set by done.
  destruct (String.eqb k key) eqn:E; [|done].
  apply String.eqb_eq in E. done.
Qed.

Lemma rounds_proto current entries changes :
  hasOwn (fold_left (round recurse current) entries changes) "__proto__"
  = hasOwn changes "__proto__".
Proof.
  revert changes. induction entries as [|[k v] rest IH]; intros changes; [done|].
  rewrite rounds_cons, IH. unfold round, put. simpl.
  destruct (entry_changes recurse _ v); [|done].
  destruct (String.eqb k "__proto__") eqn:E; [done|].
  rewrite hasOwn_set, E. done.
Qed.

Lemma rounds_included current entries changes key v :
  NoDup (keys entries) → (key, v) ∈ entries → key ≠ "__proto__" →
  entry_changes recurse (default JUndefined (index current key)) v = true →
  get (fold_left (round recurse current) entries changes) key = v
  ∧ hasOwn (fold_left (round recurse current) entries changes) key = true.
Proof.
  unfold keys. revert changes.
  induction entries as [|[k w] rest IH]; intros changes Hnd Hin Hproto Hch.
  { by apply elem_of_nil in Hin. }
  simpl in Hnd. apply NoDup_cons in Hnd as [Hk Hnd].
  rewrite rounds_cons.
  apply elem_of_cons in Hin as [[= <- <-]|Hin]; [|by apply IH].
  destruct (rounds_get_other current rest (round recurse current changes (key, v))
              key Hk) as [-> ->].
  unfold round, put. simpl. rewrite Hch.
  apply String.eqb_neq in Hproto. rewrite Hproto.
  by rewrite get_set_eq, hasOwn_set, String.eqb_refl.
Qed.

Lemma rounds_excluded current entries changes key v :
  NoDup (keys entries) → (key, v) ∈ entries →
  entry_changes recurse (default JUndefined (index current key)) v = false →
  hasOwn (fold_left (round recurse current) entries changes) key = hasOwn changes key.
Proof.
  unfold keys. revert changes.
  induction entries as [|[k w] rest IH]; intros changes Hnd Hin Hch.
  { by apply elem_of_nil in Hin. }
  simpl in Hnd. apply NoDup_cons in Hnd as [Hk Hnd].
  rewrite rounds_cons.
  apply elem_of_cons in Hin as [[= <- <-]|Hin].
  - destruct (rounds_get_other current rest (round recurse current changes (key, v))
                key Hk) as [_ ->].
    unfold round. simpl. by rewrite Hch.
  - rewrite IH by done. unfold round, put. simpl.
    destruct (entry_changes recurse _ w); [|done].
    destruct (String.eqb k "__proto__"); [done|].
    rewrite hasOwn_set.
    destruct (String.eqb k key) eqn:E; [|done].
    apply String.eqb_eq in E. subst k.
    destruct Hk. by apply (list_elem_of_fmap_2 fst _ (key, v)).
Qed.


End DiffFacts.

Section DiffClaims.
Import JS Diff.

Lemma getChangedSettings_returns newSettings :
  ∀ current, nullish current = false → is_Some (getChangedSettings current newSettings).
Proof.
  induction newSettings as [| |b|x|s|r items _|r fields IH|b] using jsval_ind;
    intros current Hcur; try done.
  simpl. rewrite diff_entries_rounds; [done|done|].
  eapply Forall_impl; [exact IH|]. intros kv Hkv c Hc. simpl in Hkv.
  by apply Hkv, plain_object_nullish.
Qed.

Lemma getChangedSettings_rounds current r entries :
  nullish current = false →
  getChangedSettings current (JObj r entries)
  = Some (fold_left (round getChangedSettings current) entries []).
Proof.
  intros Hcur. simpl. apply diff_entries_rounds; [done|].
  apply Forall_forall. intros kv _ c Hc.
  by apply getChangedSettings_returns, plain_object_nullish.
Qed.

(** On a baseline that is [null] or [undefined] the call throws as soon
    as the proposal has a property. *)
Lemma getChangedSettings_throws current r entry entries :
  nullish current = true →
  getChangedSettings current (JObj r (entry :: entries)) = None.
Proof. intros Hcur. simpl. by apply diff_entries_throws. Qed.

(** The diff never has an own property [__proto__]. *)
Lemma getChangedSettings_no_proto current newSettings changes :
  getChangedSettings current newSettings = Some changes →
  hasOwn changes "__proto__" = false.
Proof.
  destruct newSettings as [| | | | | |r entries|]; try (by intros [= <-]).
  destruct (nullish current) eqn:Hcur.
  - destruct entries as [|entry entries]; [by intros [= <-]|].
    by rewrite getChangedSettings_throws.
  - rewrite getChangedSettings_rounds by done. intros [= <-].
    by rewrite rounds_proto.
Qed.

(** A changed object that the proposal holds under [__proto__] is not
    reported: the assignment gives the diff a prototype, not a
    property. *)
Example getChangedSettings_proto_key :
  getChangedSettings (JObj 1 []) (JObj 2 [("__proto__", JObj 3 [("x", JNum 1)])])
  = Some [].
Proof. reflexivity. Qed.

Lemma within_epsilon_test c n :
  String.eqb (typeof c) "number" && String.eqb (typeof n) "number"
  && (PrimFloat.abs (num c - num n) <? 0.00001)%float = true
  ↔ within_epsilon c n.
Proof.
  unfold within_epsilon. split.
  - destruct c as [| | | | | | |[|?]], n as [| | | | | | |[|?]]; simpl; try done. eauto.
  - intros (a & b & -> & -> & H). simpl. exact H.
Qed.

Lemma entry_changes_leaf recurse c n :
  ¬ plain_object n →
  entry_changes recurse c n = true ↔
  strict_neq c n = true ∧ ¬ within_epsilon c n.
Proof.
  intros Hn. unfold entry_changes.
  rewrite <- plain_object_test, not_true_iff_false in Hn. rewrite Hn.
  by rewrite andb_true_iff, negb_true_iff, <- not_true_iff_false,
    within_epsilon_test.
Qed.

Lemma entry_changes_object recurse c n :
  plain_object n →
  entry_changes recurse c n = true ↔
  ¬ plain_object c
  ∨ (plain_object c
     ∧ ∃ nested, recurse c n = Some nested
                 ∧ (0 <? length (keys nested))%nat = true).
Proof.
  intros Hn. unfold entry_changes.
  apply plain_object_test in Hn. rewrite Hn.
  destruct (negb (String.eqb (typeof c) "object") || strict_eq c JNull || isArray c)
    eqn:Hc.
  - apply not_plain_object_test in Hc. naive_solver.
  - apply not_true_iff_false in Hc. rewrite not_plain_object_test in Hc.
    assert (plain_object c).
    { destruct c as [| | | | | | |[|name]];
        try (destruct Hc; by intros [(? & ? & [=])|[=]]).
      - left. by eexists _, _.
      - by right. }
    destruct (recurse c n) as [nested|]; naive_solver.
Qed.

(** The loop body's decision agrees with the document's notion of a
    changed value. *)
Lemma entry_changes_changed c n :
  entry_changes getChangedSettings c n = true ↔ changed c n.
Proof.
  revert c. induction n as [| |b|x|s|r items _|r fields IH|[|name]] using jsval_ind;
    intros c.
  1-6,9: (rewrite entry_changes_leaf by (by intros [(? & ? & [=])|[=]]); split;
        [ intros [? ?]; apply changed_leaf; [by intros [(? & ? & [=])|[=]] | done | done]
        | inversion 1 as [| ? ? [(? & ? & [=])|[=]] |]; subst; done ]).
  - rewrite entry_changes_object by (left; by eexists _, _).
    rewrite Forall_forall in IH. split.
    + intros [Hc|[Hc (nested & Hrec & Hne)]].
      { apply changed_shape; [left; by eexists _, _|done]. }
      rewrite getChangedSettings_rounds in Hrec by (by apply plain_object_nullish).
      injection Hrec as <-.
      apply rounds_nonempty in Hne as [?|(k & v & Hin & Hk & Hch)]; [done|].
      apply (changed_branch c r fields k v (default JUndefined (index c k)));
        [done..| |].
      * by apply index_nullish, plain_object_nullish.
      * by apply (IH (k, v)).
    + inversion 1 as [? ? Hn|? ? _ Hc|? ? ? k v c' Hc Hin Hk Hidx Hch]; subst.
      * destruct Hn. left. by eexists _, _.
      * by left.
      * right. split; [done|].
        rewrite getChangedSettings_rounds by (by apply plain_object_nullish).
        eexists. split; [done|]. apply rounds_nonempty. right.
        exists k, v. split; [done|]. split; [done|].
        rewrite Hidx. simpl. by apply (IH (k, v)).
  - rewrite entry_changes_object by (by right). split.
    + intros [Hc|[Hc (nested & Hrec & Hne)]].
      * apply changed_shape; [by right|done].
      * injection Hrec as <-. done.
    + inversion 1 as [? ? Hn|? ? _ Hc|]; subst.
      * destruct Hn. by right.
      * by left.
Qed.

(** C4. The diff of baseline [{a:{x:1,y:2}}] against proposal
    [{a:{x:1,y:3}}] is [{a:{x:1,y:3}}], the whole nested object; and in
    general every nested object of the proposal that counts as changed
    against the baseline (a leaf beneath it differs, or it replaces a
    non-object) is put into the diff whole, under its key.  The general
    statement is about a baseline that is a configuration object (the
    call throws on [null] and [undefined]) and about keys other than
    [__proto__], at every level of the proposal (the diff never gets an
    own property of that name). *)
Theorem getChangedSettings_whole_branch :
  getChangedSettings
    (JObj 1 [("a", JObj 2 [("x", JNum 1); ("y", JNum 2)])])
    (JObj 3 [("a", JObj 4 [("x", JNum 1); ("y", JNum 3)])])
  = Some [("a", JObj 4 [("x", JNum 1); ("y", JNum 3)])]
  ∧ ∀ current r0 entries key r fields c,
      plain_object current →
      NoDup (keys entries) →
      (key, JObj r fields) ∈ entries →
      key ≠ "__proto__" →
      index current key = Some c →
      changed c (JObj r fields) →
      ∃ changes,
        getChangedSettings current (JObj r0 entries) = Some changes
        ∧ hasOwn changes key = true
        ∧ get changes key = JObj r fields.
Proof.
  split; [reflexivity|].
  intros current r0 entries key r fields c Hcur Hnd Hin Hkey Hidx Hch.
  apply entry_changes_changed in Hch.
  rewrite getChangedSettings_rounds by (by apply plain_object_nullish).
  eexists. split; [done|].
  destruct (rounds_included getChangedSettings current entries []
              key (JObj r fields) Hnd Hin Hkey) as [-> ->]; [|done].
  by rewrite Hidx.
Qed.

Lemma getChangedSettings_whole_branch_witness :
  let current := JObj 1 [("a", JObj 2 [("x", JNum 1); ("y", JNum 2)]); ("b", JNum 5)] in
  let entries := [("b", JNum 5); ("a", JObj 4 [("x", JNum 1); ("y", JNum 3)])] in
  ∃ changes,
    getChangedSettings current (JObj 3 entries) = Some changes
    ∧ hasOwn changes "a" = true
    ∧ get changes "a" = JObj 4 [("x", JNum 1); ("y", JNum 3)].
Proof.
  intros current entries.
  refine (proj2 getChangedSettings_whole_branch current 3 entries "a" 4
            [("x", JNum 1); ("y", JNum 3)]
            (JObj 2 [("x", JNum 1); ("y", JNum 2)]) _ _ _ _ _ _).
  - left. by eexists _, _.
  - unfold keys. simpl. apply NoDup_cons. split.
    + intros [?|?%elem_of_nil]%elem_of_cons; done.
    + apply NoDup_singleton.
  - right. left.
  - done.
  - reflexivity.
  - apply (changed_branch _ _ _ "y" (JNum 3) (JNum 2)).
    + left. by eexists _, _.
    + right. left.
    + done.
    + reflexivity.
    + apply changed_leaf.
      * by intros [(? & ? & [=])|[=]].
      * reflexivity.
      * intros (a & b & [= <-] & [= <-] & H). vm_compute in H. done.
Defined.

(** C5. The diff of baseline [{t:0.700000001}] against proposal
    [{t:0.7}] is empty; and in general a key whose baseline and proposed
    values are both numbers with [Math.abs(baseline - proposed)] below
    [0.00001] is left out of the diff. *)
Theorem getChangedSettings_epsilon :
  getChangedSettings (JObj 1 [("t", JNum 0.700000001)])
                     (JObj 2 [("t", JNum 0.7)]) = Some []
  ∧ ∀ current r0 entries key a b,
      NoDup (keys entries) →
      (key, JNum b) ∈ entries →
      index current key = Some (JNum a) →
      (PrimFloat.abs (a - b) <? 0.00001)%float = true →
      ∃ changes,
        getChangedSettings current (JObj r0 entries) = Some changes
        ∧ hasOwn changes key = false.
Proof.
  split; [reflexivity|].
  intros current r0 entries key a b Hnd Hin Hcur Heps.
  rewrite getChangedSettings_rounds by (by eapply index_Some_nullish).
  eexists. split; [done|].
  rewrite (rounds_excluded getChangedSettings current entries [] key
             (JNum b) Hnd Hin); [done|].
  apply not_true_iff_false. rewrite entry_changes_leaf.
  - intros [_ Hne]. apply Hne. exists a, b. by rewrite Hcur.
  - by intros [(? & ? & [=])|[=]].
Qed.

Lemma getChangedSettings_epsilon_witness :
  ∃ changes,
    getChangedSettings
      (JObj 1 [("t", JNum 0.700000001); ("m", JStr "a")])
      (JObj 2 [("m", JStr "b"); ("t", JNum 0.7)]) = Some changes
    ∧ hasOwn changes "t" = false.
Proof.
  refine (proj2 getChangedSettings_epsilon _ 2 _ "t" 0.700000001%float 0.7%float _ _ _ _).
  - unfold keys. simpl. apply NoDup_cons. split.
    + intros [?|?%elem_of_nil]%elem_of_cons; done.
    + apply NoDup_singleton.
  - right. left.
  - reflexivity.
  - reflexivity.
Defined.

End DiffClaims.

(** ** The streaming response assembler *)

Section AssemblerClaims.
Import Assembler.

Lemma includes_contains c t : includes c t = true ↔ contains c t.
Proof.
  unfold contains. induction t as [|a rest IH]; simpl.
  - split; [done|]. intros ([|??] & after & H); discriminate H.
  - rewrite orb_true_iff, IH, Ascii.eqb_eq. split.
    + intros [->|(before & after & ->)].
      * by exists "", rest.
      * by exists (String a before), after.
    + intros ([|b before] & after & H); simpl in H; injection H as -> ->.
      * by left.
      * right. by exists before, after.
Qed.

Lemma flush_test buffer token :
  (BATCH_SIZE <=? JS.length16 (buffer +:+ token))%nat
  || includes "010"%char token || strong_punctuation token = true
  ↔ flush_immediately buffer token.
Proof.
  unfold flush_immediately, strong_punctuation, BATCH_SIZE.
  rewrite !orb_true_iff, Nat.leb_le, !includes_contains. tauto.
Qed.

Lemma resetTokenBuffer_spec s :
  resetTokenBuffer s = with_buffer "" None (cancel_flush s) s.
Proof. unfold resetTokenBuffer, cancel_flush. by destruct (bufferFlushTimer s). Qed.

Lemma find_update_current f bs b :
  List.find is_current bs = Some b →
  is_current (f b) = true →
  List.find is_current (update_current f bs) = Some (f b).
Proof.
  induction bs as [|x rest IH]; simpl; [done|].
  destruct (is_current x) eqn:E; simpl.
  - intros [= ->] ->. done.
  - rewrite E. auto.
Qed.

Lemma flushTokenBuffer_buffer s :
  tokenBuffer s ≠ "" →
  tokenBuffer (flushTokenBuffer s) = ""
  ∧ bufferFlushTimer (flushTokenBuffer s) = None
  ∧ timers (flushTokenBuffer s) = cancel_flush s.
Proof.
  intros Hne. unfold flushTokenBuffer.
  destruct (String.eqb (tokenBuffer s) "") eqn:E.
  { by apply String.eqb_eq in E. }
  destruct (current_response s) as [cur|]; [|by rewrite resetTokenBuffer_spec].
  destruct (content cur) as [text|], (dialogue s) as [c|] eqn:Hd;
    rewrite resetTokenBuffer_spec; try done.
  unfold smartScrollToBottom. simpl.
  by destruct (_ <=? _)%Z.
Qed.

Lemma flushTokenBuffer_text s text :
  tokenBuffer s ≠ "" →
  open_turn_text s = Some text →
  open_turn_text (flushTokenBuffer s) = Some (text +:+ tokenBuffer s).
Proof.
  intros Hne. unfold open_turn_text, flushTokenBuffer.
  destruct (String.eqb (tokenBuffer s) "") eqn:E.
  { by apply String.eqb_eq in E. }
  destruct (current_response s) as [cur|] eqn:Hcur; [|done].
  intros Htext. rewrite Htext.
  unfold current_response in Hcur.
  destruct (dialogue s) as [c|] eqn:Hd; [|done].
  rewrite resetTokenBuffer_spec.
  assert (Hfind := find_update_current
    (λ b, Bubble (bubble_kind b) (bubble_id b) (Some (text +:+ tokenBuffer s)) (stamps b))
    (children c) cur Hcur).
  assert (Hid : is_current cur = true) by (by apply find_some in Hcur as [_ ?]).
  specialize (Hfind Hid).
  unfold smartScrollToBottom, current_response. simpl.
  destruct (_ <=? _)%Z; simpl; by rewrite Hfind.
Qed.

Lemma flushTokenBuffer_no_turn s :
  current_response s = None →
  dialogue (flushTokenBuffer s) = dialogue s.
Proof.
  intros Hcur. unfold flushTokenBuffer. rewrite Hcur.
  destruct (String.eqb (tokenBuffer s) ""); [done|].
  by rewrite resetTokenBuffer_spec.
Qed.

(** C1 (as the code has it). [startNewAssistantResponse] empties the
    append buffer and cancels the pending deferred flush without
    flushing: the pending text is discarded, the visible text of every
    bubble already in the transcript stays what it was, and a new empty
    assistant bubble marked [current-response] is appended after them
    when the container exists. *)
Theorem startNewAssistantResponse_resets s :
  tokenBuffer (startNewAssistantResponse s) = ""
  ∧ bufferFlushTimer (startNewAssistantResponse s) = None
  ∧ timers (startNewAssistantResponse s) = cancel_flush s
  ∧ match dialogue s with
    | None => dialogue (startNewAssistantResponse s) = None
    | Some c =>
        ∃ c' earlier,
          dialogue (startNewAssistantResponse s) = Some c'
          ∧ children c'
            = earlier ++ [Bubble "assistant" (Some "current-response") (Some "") []]
          ∧ content <$> earlier = content <$> children c
    end.
Proof.
  unfold startNewAssistantResponse. rewrite resetTokenBuffer_spec. simpl.
  destruct (dialogue s) as [c|] eqn:Hd; simpl; repeat split; try done.
  by eexists _, (children c).
Qed.

(** C1 (as stated) fails: with the turn showing "Hel" and "lo" pending,
    starting a new response leaves the old bubble at "Hel". *)
Lemma startNewAssistantResponse_discards :
  ¬ beginTurn_flushes_first turn_with_pending_text.
Proof.
  intros H.
  destruct (H (Container [Bubble "assistant" (Some "current-response") (Some "Hel") []] 0)
              0%nat (Bubble "assistant" (Some "current-response") (Some "Hel") [])
              "Hel" eq_refl eq_refl eq_refl eq_refl)
    as (c' & b' & Hd & Hb & Hc & _); [done|].
  vm_compute in Hd. injection Hd as <-.
  simpl in Hb. injection Hb as <-. discriminate Hc.
Qed.

(** C3. [appendToCurrentResponse(token)] flushes during the call exactly
    when the buffer, once the token is appended, holds at least 5
    characters (UTF-16 code units, as [tokenBuffer.length] counts
    them), or the token contains a line break or one of [. ! ?].
    In that case the whole buffer goes to the open turn's text (or is
    dropped when no turn is open), the buffer is empty afterwards and
    no deferred flush stays armed.  Otherwise the transcript is not
    touched, the buffer keeps the appended text, the previously armed
    timer is cleared and one new 100 ms flush timer is armed. *)
Theorem appendToCurrentResponse_flush_policy token s :
  let buffered :=
    with_buffer (tokenBuffer s +:+ token) (bufferFlushTimer s) (timers s) s in
  let s' := appendToCurrentResponse token s in
  (flush_immediately (tokenBuffer s) token →
     s' = flushTokenBuffer buffered
     ∧ tokenBuffer s' = ""
     ∧ bufferFlushTimer s' = None
     ∧ timers s' = cancel_flush s
     ∧ (∀ text, open_turn_text s = Some text →
          open_turn_text s' = Some (text +:+ (tokenBuffer s +:+ token)))
     ∧ (current_response s = None → dialogue s' = dialogue s))
  ∧ (¬ flush_immediately (tokenBuffer s) token →
     dialogue s' = dialogue s
     ∧ tokenBuffer s' = tokenBuffer s +:+ token
     ∧ bufferFlushTimer s' = Some (next_id (timers s))
     ∧ pending (timers s') =
         (pending (cancel_flush s)
          ++ [Timer (next_id (timers s)) 100 FlushTokenBuffer])%list).
Proof.
  intros buffered s'. subst s'. unfold appendToCurrentResponse.
  fold buffered.
  assert (Hb : tokenBuffer buffered = tokenBuffer s +:+ token) by done.
  rewrite Hb.
  destruct ((BATCH_SIZE <=? JS.length16 (tokenBuffer s +:+ token))%nat
            || includes "010"%char token || strong_punctuation token) eqn:E.
  - split; [|intros Hn; destruct Hn; by apply flush_test].
    intros Hflush.
    assert (Hne : tokenBuffer buffered ≠ "").
    { rewrite Hb. intros Hempty. rewrite Hempty in E. simpl in E.
      destruct (tokenBuffer s), token; try discriminate Hempty.
      discriminate E. }
    destruct (flushTokenBuffer_buffer buffered Hne) as (-> & -> & ->).
    repeat split; try done.
    + intros text Ht. rewrite <- Hb. by apply flushTokenBuffer_text.
    + intros Hc. by apply (flushTokenBuffer_no_turn buffered).
  - split; [intros Hf%flush_test; congruence|].
    intros _. unfold cancel_flush. simpl.
    by destruct (bufferFlushTimer s).
Qed.

(** The threshold counts code units, not bytes: "né" after "lo" makes
    four, and waits for the timer; one more letter makes five, and is
    flushed at once. *)
Example appendToCurrentResponse_counts_code_units :
  tokenBuffer (appendToCurrentResponse "né" turn_with_pending_text) = "loné"
  ∧ bufferFlushTimer (appendToCurrentResponse "né" turn_with_pending_text)
    = Some 2%positive
  ∧ open_turn_text (appendToCurrentResponse "né" turn_with_pending_text) = Some "Hel"
  ∧ open_turn_text (appendToCurrentResponse "née" turn_with_pending_text)
    = Some "Hellonée".
Proof. repeat split. Qed.

Lemma appendToCurrentResponse_flush_policy_witness :
  tokenBuffer (appendToCurrentResponse "." turn_with_pending_text) = ""
  ∧ open_turn_text (appendToCurrentResponse "." turn_with_pending_text)
    = Some "Hello.".
Proof.
  destruct (proj1 (appendToCurrentResponse_flush_policy "." turn_with_pending_text))
    as (_ & Hbuf & _ & _ & Htext & _).
  - right. right. left. by exists "", "".
  - split; [exact Hbuf | exact (Htext "Hel" eq_refl)].
Defined.

End AssemblerClaims.

(** ** The message router *)

Section RouterClaims.
Import Router.
Context {handler app : Type}.
Variable run_handler : handler → envelope → app → app * outcome.
Variable addLogEntry : log_message → level → app → app.

(** C6. Dispatching an envelope whose type has no registered handler
    returns normally, adds exactly one to [unknownTypes], hands the
    warning naming the type to [addLogEntry] (followed by the periodic
    summary when the message count reaches a multiple of 100), counts
    the message, and leaves [messageRoutes] as it was. *)
Theorem routeWebSocketMessage_unknown_type startTime endTime data
    (st : Router.state handler app) :
  route (messageRoutes st) (msg_type data) = None →
  let result := routeWebSocketMessage run_handler addLogEntry startTime endTime data st in
  let warned :=
    addLogEntry (LogUnknownType (msg_type data)) Warning (application st) in
  snd result = Returned
  ∧ unknownTypes (metrics (fst result)) = (unknownTypes (metrics st) + 1)%Z
  ∧ totalMessages (metrics (fst result)) = (totalMessages (metrics st) + 1)%Z
  ∧ messageRoutes (fst result) = messageRoutes st
  ∧ (application (fst result) = warned
     ∨ ∃ total time top3,
         application (fst result) =
         addLogEntry (LogRoutingSummary total time top3) Info warned).
Proof.
  intros Hroute. unfold routeWebSocketMessage. rewrite Hroute. simpl.
  destruct ((totalMessages (metrics st) + 1) mod 100 =? 0)%Z; simpl.
  - repeat split. right. by eexists _, _, _.
  - repeat split. by left.
Qed.

End RouterClaims.

Lemma routeWebSocketMessage_unknown_type_witness :
  let st := Router.State (∅ : gmap string unit)
              (Router.Metrics 0 0 0 []) ([] : list (Router.log_message * level)) in
  let result :=
    Router.routeWebSocketMessage (λ _ _ a, (a, Router.Returned))
      (λ m l a, a ++ [(m, l)]) 0 1 (Router.Envelope (JS.PStr "bogus") (JS.JObj 0 [("type", JS.JStr "bogus")])) st in
  snd result = Router.Returned
  ∧ Router.unknownTypes (Router.metrics (fst result)) = 1%Z.
Proof.
  intros st result.
  destruct (routeWebSocketMessage_unknown_type (λ _ _ a, (a, Router.Returned))
              (λ m l a, a ++ [(m, l)]) 0 1 (Router.Envelope (JS.PStr "bogus") (JS.JObj 0 [("type", JS.JStr "bogus")])) st)
    as (Hout & Hunknown & _).
  - reflexivity.
  - split; [exact Hout | exact Hunknown].
Defined.

(** ** The connection manager *)

Section ConnectionClaims.
Import Connection.

Lemma take_timer_gone {C} id (q q' : queue C) cb :
  take_timer id q = Some (cb, q') →
  ∀ t, t ∈ pending q' → timer_id t ≠ id.
Proof.
  unfold take_timer. destruct (list_find _ _) as [[i found]|]; [|done].
  intros [= _ <-] t Hin. simpl in Hin.
  by apply list_elem_of_filter in Hin as [? _].
Qed.

(** C8. A socket close marks the session disconnected and arms exactly
    one timer, of 3000 ms, without attempting anything itself.  When
    that timer fires it is taken off the queue, so it fires once; it
    opens one new socket if the session is still disconnected at that
    moment and does nothing at all otherwise. *)
Theorem handleWebSocketClose_one_reconnect c :
  isConnected (handleWebSocketClose c) = false
  ∧ attempts (handleWebSocketClose c) = attempts c
  ∧ pending (timers (handleWebSocketClose c)) =
      (pending (timers c) ++ [Timer (next_id (timers c)) 3000 Reconnect])%list
  ∧ ∀ id later q,
      take_timer id (timers later) = Some (Reconnect, q) →
      (∀ t, t ∈ pending (timers (fire id later)) → timer_id t ≠ id)
      ∧ (isConnected later = true →
           attempts (fire id later) = attempts later
           ∧ sockets (fire id later) = sockets later
           ∧ ws (fire id later) = ws later)
      ∧ (isConnected later = false →
           attempts (fire id later) = S (attempts later)
           ∧ sockets (fire id later) = (sockets later ++ [CONNECTING])%list).
Proof.
  split; [done|]. split; [done|]. split; [done|].
  intros id later q Htake. unfold fire. rewrite Htake. unfold reconnect. simpl.
  split; [|split].
  - intros t Hin. apply (take_timer_gone id (timers later) q Reconnect Htake).
    by destruct (isConnected later).
  - by intros ->.
  - intros ->. simpl. split; [|done].
    unfold attempts. simpl. rewrite length_app. simpl. lia.
Qed.

Lemma handleWebSocketClose_one_reconnect_witness :
  let c := State true (Some 0%nat) [OPEN] (Queue [] 1%positive) [] [] 0 [] in
  let closed := handleWebSocketClose c in
  attempts (fire 1%positive (handleWebSocketOpen closed)) = attempts closed
  ∧ attempts (fire 1%positive closed) = S (attempts closed).
Proof.
  intros c closed.
  destruct (handleWebSocketClose_one_reconnect c) as (_ & _ & _ & Hfire).
  split.
  - refine (proj1 (proj1 (proj2 (Hfire 1%positive (handleWebSocketOpen closed) _ _)) _));
      reflexivity.
  - refine (proj1 (proj2 (proj2 (Hfire 1%positive closed _ _)) _)); reflexivity.
Defined.

End ConnectionClaims.

(** ** The settings modal *)

Section SettingsClaims.
Import JS Settings.
#[local] Arguments String.eqb : simpl never.

Lemma strict_eq_string (s : string) : strict_eq (JStr s) (JStr s) = true.
Proof. simpl. apply String.eqb_refl. Qed.

Lemma lastApplied_insert s key value key' :
  lastApplied (with_applied (<[key := value]> (lastAppliedValues s)) s) key' =
  if decide (key = key') then value else lastApplied s key'.
Proof.
  unfold lastApplied. simpl. rewrite lookup_insert.
  by destruct (decide (key = key')).
Qed.

Lemma applyVisualChange_skip key value handlerName s :
  strict_eq (lastApplied s key) value = true →
  applyVisualChange key value handlerName s = s.
Proof. intros H. unfold applyVisualChange. by rewrite H. Qed.

Lemma applyVisualChange_twice key value handlerName s :
  strict_eq value value = true →
  applyVisualChange key value handlerName (applyVisualChange key value handlerName s)
  = applyVisualChange key value handlerName s.
Proof.
  intros Hrefl.
  destruct (strict_eq (lastApplied s key) value) eqn:E.
  - rewrite (applyVisualChange_skip key value handlerName s E).
    exact (applyVisualChange_skip key value handlerName s E).
  - apply applyVisualChange_skip. unfold applyVisualChange. rewrite E.
    unfold lastApplied. simpl. by rewrite lookup_insert_eq.
Qed.

Lemma hasOwn_remove o key key' :
  NoDup (keys o) →
  hasOwn (remove o key) key' = hasOwn o key' && negb (String.eqb key key').
Proof.
  unfold keys. induction o as [|[k w] rest IH]; simpl; [done|].
  intros [Hk Hnd]%NoDup_cons.
  destruct (String.eqb k key) eqn:E; simpl.
  - apply String.eqb_eq in E. subst k.
    destruct (String.eqb key key') eqn:E'; simpl.
    + apply String.eqb_eq in E'. subst key'.
      apply not_true_iff_false. rewrite hasOwn_elem. exact Hk.
    + by rewrite andb_true_r.
  - rewrite IH by done.
    destruct (String.eqb k key') eqn:E'; simpl; [|done].
    apply String.eqb_eq in E'. subst key'.
    by rewrite String.eqb_sym, E.
Qed.

Lemma keys_remove_NoDup o key : NoDup (keys o) → NoDup (keys (remove o key)).
Proof.
  unfold keys. induction o as [|[k w] rest IH]; simpl; [done|].
  intros [Hk Hnd]%NoDup_cons.
  destruct (String.eqb k key); simpl; [done|].
  apply NoDup_cons. split; [|auto].
  intros Hin. apply Hk.
  apply hasOwn_elem. apply hasOwn_elem in Hin.
  rewrite hasOwn_remove in Hin by done.
  by apply andb_true_iff in Hin as [? _].
Qed.

Lemma no_keys_nil (o : props) : (∀ k, hasOwn o k = false) → o = [].
Proof.
  destruct o as [|[k w] rest]; [done|]. intros H. specialize (H k).
  simpl in H. by rewrite String.eqb_refl in H.
Qed.

(** What the first loop of [applyLightChanges] does to the cache and to
    the object. *)
Lemma skip_applied_fold entries changes s :
  NoDup (keys entries) → NoDup (keys changes) →
  let r := fold_left skip_applied entries (changes, s) in
  snd r = with_applied (lastAppliedValues (snd r)) s
  ∧ NoDup (keys (fst r))
  ∧ (∀ k, k ∉ keys entries →
       lastApplied (snd r) k = lastApplied s k
       ∧ hasOwn (fst r) k = hasOwn changes k)
  ∧ (∀ k v, (k, v) ∈ entries →
       (strict_eq (lastApplied s k) v = true →
          lastApplied (snd r) k = lastApplied s k ∧ hasOwn (fst r) k = false)
       ∧ (strict_eq (lastApplied s k) v = false →
          lastApplied (snd r) k = v ∧ hasOwn (fst r) k = hasOwn changes k)).
Proof.
  revert changes s. unfold keys.
  induction entries as [|[k v] rest IH]; intros changes s Hnd Hch; simpl.
  { split; [by destruct s|]. split; [done|]. split; [done|].
    intros k v Hin. by apply elem_of_nil in Hin. }
  simpl in Hnd. apply NoDup_cons in Hnd as [Hk Hnd].
  destruct (strict_eq (lastApplied s k) v) eqn:E.
  - destruct (IH (remove changes k) s Hnd (keys_remove_NoDup _ _ Hch))
      as (Hs & Hnd' & Hother & Hin).
    split; [done|]. split; [done|]. split.
    + intros k' [Hne Hk']%not_elem_of_cons.
      destruct (Hother k' Hk') as [-> ->]. split; [done|].
      rewrite hasOwn_remove by done.
      destruct (String.eqb k k') eqn:E'; [|by rewrite andb_true_r].
      apply String.eqb_eq in E'. congruence.
    + intros k' v' [[= -> ->]|Hin']%elem_of_cons.
      * destruct (Hother k Hk) as [-> ->].
        rewrite hasOwn_remove, String.eqb_refl, andb_false_r by done.
        split; [done|congruence].
      * destruct (Hin k' v' Hin') as [H1 H2].
        assert (k ≠ k').
        { intros ->. apply Hk. by apply (list_elem_of_fmap_2 fst _ (k', v')). }
        split; [exact H1|]. intros Hf. destruct (H2 Hf) as [-> ->].
        split; [done|]. rewrite hasOwn_remove by done.
        destruct (String.eqb k k') eqn:E'; [|by rewrite andb_true_r].
        apply String.eqb_eq in E'. congruence.
  - destruct (IH changes (with_applied (<[k := v]> (lastAppliedValues s)) s) Hnd Hch)
      as (Hs & Hnd' & Hother & Hin).
    split; [by rewrite Hs|]. split; [done|]. split.
    + intros k' [Hne Hk']%not_elem_of_cons.
      destruct (Hother k' Hk') as [-> ->]. split; [|done].
      rewrite lastApplied_insert. by destruct (decide (k = k')).
    + intros k' v' [[= -> ->]|Hin']%elem_of_cons.
      * destruct (Hother k Hk) as [-> ->].
        rewrite lastApplied_insert. destruct (decide (k = k)); [|done].
        split; [congruence|done].
      * assert (k ≠ k').
        { intros ->. apply Hk. by apply (list_elem_of_fmap_2 fst _ (k', v')). }
        destruct (Hin k' v' Hin') as [H1 H2].
        rewrite lastApplied_insert in H1, H2.
        destruct (decide (k = k')); [done|]. by split.
Qed.

Lemma applyLightChanges_cache changes s :
  lastAppliedValues (snd (applyLightChanges changes s)) =
  lastAppliedValues (snd (fold_left skip_applied changes (changes, s))).
Proof.
  unfold applyLightChanges.
  destruct (fold_left skip_applied changes (changes, s)) as [ch s1]. simpl.
  destruct (length (keys ch) =? 0)%nat; [done|].
  by destruct (truthy (get ch "background") && _).
Qed.

Lemma skip_applied_fold_equal entries changes s :
  (∀ k v, (k, v) ∈ entries → strict_eq (lastApplied s k) v = true) →
  snd (fold_left skip_applied entries (changes, s)) = s.
Proof.
  revert changes. induction entries as [|[k v] rest IH]; intros changes Hall; [done|].
  simpl. rewrite (Hall k v) by left. apply IH.
  intros k' v' Hin. apply Hall. by right.
Qed.

Lemma applyLightChanges_skip changes s :
  NoDup (keys changes) →
  (∀ k v, (k, v) ∈ changes → strict_eq (lastApplied s k) v = true) →
  applyLightChanges changes s = ([], s).
Proof.
  intros Hnd Hall.
  destruct (skip_applied_fold changes changes s Hnd Hnd) as (_ & _ & Hother & Hin).
  assert (Hs := skip_applied_fold_equal changes changes s Hall).
  unfold applyLightChanges.
  destruct (fold_left skip_applied changes (changes, s)) as [ch s1]. simpl in *.
  subst s1.
  assert (ch = []) as ->; [|done].
  apply no_keys_nil. intros k.
  destruct (decide (k ∈ keys changes)) as [Hk|Hk].
  - apply list_elem_of_fmap in Hk as ([k' v] & -> & Hk).
    by destruct (proj1 (Hin k' v Hk) (Hall k' v Hk)).
  - destruct (Hother k Hk) as [_ ->].
    apply not_true_iff_false. by rewrite hasOwn_elem.
Qed.

(** C9. A light change whose value is strictly equal to the
    Last-Applied Cache entry of its key is not applied again:
    [applyVisualChange] returns at once, and [applyLightChanges] deletes
    such an entry from the object it applies and, when nothing is left,
    returns without touching the page.  Consequently applying the same
    change twice in succession leaves the state the first application
    produced, for every value that is strictly equal to itself. *)
Theorem light_change_idempotent :
  (∀ key value handlerName s,
     strict_eq (lastApplied s key) value = true →
     applyVisualChange key value handlerName s = s)
  ∧ (∀ key value handlerName s,
       strict_eq value value = true →
       applyVisualChange key value handlerName
         (applyVisualChange key value handlerName s)
       = applyVisualChange key value handlerName s)
  ∧ (∀ changes s key value,
       NoDup (keys changes) → (key, value) ∈ changes →
       strict_eq (lastApplied s key) value = true →
       hasOwn (fst (applyLightChanges changes s)) key = false)
  ∧ (∀ changes s,
       NoDup (keys changes) →
       (∀ k v, (k, v) ∈ changes → strict_eq (lastApplied s k) v = true) →
       snd (applyLightChanges changes s) = s)
  ∧ (∀ changes s,
       NoDup (keys changes) →
       (∀ k v, (k, v) ∈ changes → strict_eq v v = true) →
       snd (applyLightChanges changes (snd (applyLightChanges changes s)))
       = snd (applyLightChanges changes s)).
Proof.
  split; [exact applyVisualChange_skip|].
  split; [exact applyVisualChange_twice|].
  split; [|split].
  - intros changes s key value Hnd Hin Heq.
    destruct (skip_applied_fold changes changes s Hnd Hnd) as (_ & _ & _ & Hentries).
    destruct (proj1 (Hentries key value Hin) Heq) as [_ Hgone].
    unfold applyLightChanges.
    destruct (fold_left skip_applied changes (changes, s)) as [ch s1]. simpl in *.
    destruct (length (keys ch) =? 0)%nat; [done|].
    by destruct (truthy (get ch "background") && _).
  - intros changes s Hnd Hall. by rewrite applyLightChanges_skip.
  - intros changes s Hnd Hrefl.
    rewrite (applyLightChanges_skip changes (snd (applyLightChanges changes s)));
      [done..|].
    intros k v Hin. unfold lastApplied. rewrite applyLightChanges_cache.
    destruct (skip_applied_fold changes changes s Hnd Hnd) as (_ & _ & _ & Hentries).
    destruct (Hentries k v Hin) as [H1 H2]. fold (lastApplied (snd (fold_left skip_applied changes (changes, s))) k).
    destruct (strict_eq (lastApplied s k) v) eqn:E.
    + destruct (H1 eq_refl) as [-> _]. done.
    + destruct (H2 eq_refl) as [-> _]. by apply (Hrefl k).
Qed.

Lemma light_change_idempotent_witness :
  let changes := [("background", JStr "space.jpg"); ("background_opacity", JNum 40)] in
  snd (applyLightChanges changes (snd (applyLightChanges changes opened)))
  = snd (applyLightChanges changes opened)
  ∧ applyVisualChange "background" (JStr "space.jpg") "setBackground"
      (applyVisualChange "background" (JStr "space.jpg") "setBackground" opened)
    = applyVisualChange "background" (JStr "space.jpg") "setBackground" opened.
Proof.
  intros changes. split.
  - refine (proj2 (proj2 (proj2 (proj2 light_change_idempotent))) changes opened _ _).
    + unfold keys. simpl. apply NoDup_cons. split.
      * intros [?|?%elem_of_nil]%elem_of_cons; done.
      * apply NoDup_singleton.
    + intros k v [[= -> ->]|[[= -> ->]|?%elem_of_nil]%elem_of_cons]%elem_of_cons;
        [reflexivity | reflexivity | done].
  - refine (proj1 (proj2 light_change_idempotent) _ _ _ _ _). reflexivity.
Defined.

Lemma savedSettings_storeSettings o p : savedSettings (storeSettings o p) = o.
Proof. unfold savedSettings, storeSettings. simpl. by rewrite lookup_insert_eq. Qed.

Lemma savedSettings_setItem k v p :
  k ≠ "jarvis-settings" → savedSettings (setItem k v p) = savedSettings p.
Proof. intros Hk. unfold savedSettings. simpl. by rewrite lookup_insert_ne. Qed.

Lemma savedSettings_setBackground v p :
  savedSettings (setBackground v p) = savedSettings p.
Proof.
  unfold setBackground. destruct (dialogue_section p); simpl; [|done].
  destruct (truthy v && strict_neq v (JStr "default"));
    [|by rewrite savedSettings_setItem].
  destruct v; try done. by rewrite savedSettings_setItem.
Qed.

Lemma savedSettings_setBackgroundOpacity v p :
  savedSettings (setBackgroundOpacity v p) = savedSettings p.
Proof. unfold setBackgroundOpacity. by rewrite savedSettings_setItem. Qed.

Lemma preview_entry_keeps s entry :
  stored (preview_entry s entry) = stored s
  ∧ batchedChanges (preview_entry s entry) = batchedChanges s.
Proof.
  destruct entry as [k v]. unfold preview_entry. simpl.
  destruct (String.eqb "background" k); simpl.
  - unfold applyVisualChange. destruct (strict_eq _ _); [done|].
    unfold stored. simpl. unfold call_handler. simpl.
    by rewrite savedSettings_setBackground.
  - by destruct (String.eqb "background_opacity" k).
Qed.

Lemma preview_fold_keeps entries s :
  stored (fold_left preview_entry entries s) = stored s
  ∧ batchedChanges (fold_left preview_entry entries s) = batchedChanges s.
Proof.
  revert s. induction entries as [|e rest IH]; intros s; [done|].
  simpl. destruct (IH (preview_entry s e)) as [-> ->].
  apply preview_entry_keeps.
Qed.

Lemma debouncedLocalStorageSave_keeps s :
  stored (debouncedLocalStorageSave s) = stored s
  ∧ batchedChanges (debouncedLocalStorageSave s) = batchedChanges s.
Proof. done. Qed.

Lemma flushVisualPreview_keeps s :
  stored (flushVisualPreview s) = stored s
  ∧ batchedChanges (flushVisualPreview s) = batchedChanges s.
Proof.
  unfold flushVisualPreview.
  destruct (debouncedLocalStorageSave_keeps (fold_left preview_entry (batchedChanges s) s))
    as [-> ->].
  apply preview_fold_keeps.
Qed.

Lemma flushBatchedChanges_keeps s :
  stored (flushBatchedChanges s) = stored s
  ∧ batchedChanges (flushBatchedChanges s) = [].
Proof.
  unfold flushBatchedChanges. split; [|done].
  destruct (previewTimer s) as [id|].
  - destruct (flushVisualPreview_keeps (with_timers (clearTimeout id (timers s)) s))
      as [Hst _].
    destruct (localStorageTimer _); exact Hst.
  - by destruct (localStorageTimer s).
Qed.

Lemma closeSettings_keeps s :
  stored (closeSettings s) = stored s ∧ batchedChanges (closeSettings s) = [].
Proof.
  unfold closeSettings.
  destruct (flushBatchedChanges_keeps s) as [Hst Hb].
  by destruct (settings_modal (view (flushBatchedChanges s))).
Qed.

Lemma fire_empty_batch id s :
  batchedChanges s = [] →
  stored (fire id s) = stored s ∧ batchedChanges (fire id s) = [].
Proof.
  intros Hb. unfold fire.
  destruct (take_timer id (timers s)) as [[[| |n] q]|]; [| | |done].
  - destruct (flushVisualPreview_keeps (with_timers q s)) as [-> ->]. done.
  - unfold localStorageSave, stored. simpl. rewrite Hb.
    by rewrite savedSettings_storeSettings.
  - unfold resolve. simpl.
    destruct (commits s !! n) as [c|]; [|done].
    by destruct (c_settled c).
Qed.

(** Closing the modal puts no queued edit into [jarvis-settings]: not
    during the call, and not when timers fire afterwards. *)
Lemma fires_empty_batch ids s :
  batchedChanges s = [] →
  stored (run (TimerFired <$> ids) s) = stored s.
Proof.
  revert s. induction ids as [|id ids IH]; intros s Hb; [done|].
  simpl. destruct (fire_empty_batch id s Hb) as [Hst' Hb'].
  unfold run in IH. by rewrite IH.
Qed.

(** Closing the modal puts no queued edit into [jarvis-settings]: not
    during the call, and not when timers fire afterwards. *)
Lemma closeSettings_never_stores s ids :
  stored (run (TimerFired <$> ids) (closeSettings s)) = stored s.
Proof.
  destruct (closeSettings_keeps s) as [Hst Hb].
  by rewrite fires_empty_batch.
Qed.

(** C2 (at the failing input). The user picks a background: the edit is
    queued in [batchedChanges] behind the 250 ms preview timer.
    Closing the modal applies it to the page, but instead of writing it
    to [jarvis-settings] re-arms the 500 ms storage timer and empties
    [batchedChanges]; when that timer fires it stores an object without
    the edit.  Left alone, the two timers would have stored it. *)
Theorem closeSettings_drops_queued_edit :
  batchedChanges background_edited = [("background", JStr "space.jpg")]
  ∧ pending (timers background_edited) = [Timer 1%positive 250 CbFlushVisualPreview]
  ∧ (let closed := closeSettings background_edited in
     dom (view closed) =
       [DomBackgroundCleared; DomBackgroundImage "static/images/space.jpg";
        DomModalHidden]
     ∧ batchedChanges closed = []
     ∧ stored closed = []
     ∧ pending (timers closed) = [Timer 3%positive 500 CbLocalStorageSave]
     ∧ stored (fire 3%positive closed) = []
     ∧ pending (timers (fire 3%positive closed)) = [])
  ∧ stored (fire 2%positive (fire 1%positive background_edited))
    = [("background", JStr "space.jpg")].
Proof. repeat split; vm_compute; reflexivity. Qed.

(** *** The correlated wait of a settings commit *)

Lemma elem_of_clearTimeout {C} (t : timer C) id q :
  t ∈ pending (clearTimeout id q) ↔ t ∈ pending q ∧ timer_id t ≠ id.
Proof. unfold clearTimeout. simpl. rewrite list_elem_of_filter. tauto. Qed.

Lemma take_timer_Some {C} id (q q' : queue C) cb :
  take_timer id q = Some (cb, q') →
  q' = clearTimeout id q
  ∧ ∃ t, t ∈ pending q ∧ timer_id t = id ∧ timer_callback t = cb.
Proof.
  unfold take_timer.
  destruct (list_find _ _) as [[i found]|] eqn:E; [|done].
  intros [= <- <-]. split; [done|].
  apply list_find_Some in E as (Hi & Hid & _).
  exists found. split; [by eapply list_elem_of_lookup_2 | done].
Qed.

Lemma take_timer_pending {C} id (q : queue C) t :
  t ∈ pending q → timer_id t = id →
  ∃ cb, take_timer id q = Some (cb, clearTimeout id q).
Proof.
  intros Hin Hid. unfold take_timer.
  destruct (list_find_elem_of (λ t, timer_id t = id) (pending q) t Hin Hid)
    as [[i found] ->].
  by eexists.
Qed.

Lemma waiting_ext n id s s' :
  protocol s' = protocol s → waiting n id s → waiting n id s'.
Proof. unfold protocol, waiting. intros [= -> -> -> -> _]. done. Qed.

Lemma protocol_applyVisualChange k v h s :
  protocol (applyVisualChange k v h s) = protocol s.
Proof. unfold applyVisualChange. by destruct (strict_eq _ _). Qed.

Lemma protocol_preview_fold entries s :
  protocol (fold_left preview_entry entries s) = protocol s.
Proof.
  revert s. induction entries as [|[k v] rest IH]; intros s; [done|].
  simpl. rewrite IH. unfold preview_entry. simpl.
  destruct (String.eqb "background" k); simpl.
  - apply protocol_applyVisualChange.
  - by destruct (String.eqb "background_opacity" k).
Qed.

Lemma protocol_skip_fold entries changes s :
  protocol (snd (fold_left skip_applied entries (changes, s))) = protocol s.
Proof.
  revert changes s. induction entries as [|[k v] rest IH]; intros changes s; [done|].
  simpl. destruct (strict_eq _ _); by rewrite IH.
Qed.

Lemma protocol_applyLightChanges changes s :
  protocol (snd (applyLightChanges changes s)) = protocol s.
Proof.
  unfold applyLightChanges.
  assert (H := protocol_skip_fold changes changes s).
  destruct (fold_left skip_applied changes (changes, s)) as [ch s1].
  simpl in *. destruct (length (keys ch) =? 0)%nat; [done|].
  by destruct (truthy (get ch "background") && _).
Qed.

Lemma waiting_clear n id p s :
  p ≠ id → waiting n id s →
  waiting n id (with_timers (clearTimeout p (timers s)) s).
Proof.
  intros Hp (Hlt & Hpt & Hlt' & Hc & Hin & Hcb).
  unfold waiting. simpl.
  split; [done|]. split; [done|]. split; [done|]. split; [done|]. split.
  - apply elem_of_clearTimeout. split; [done|]. simpl. congruence.
  - intros t [Ht _]%elem_of_clearTimeout. by apply Hcb.
Qed.

Lemma waiting_debounced n id s :
  waiting n id s → waiting n id (debouncedLocalStorageSave s).
Proof.
  intros Hw. unfold debouncedLocalStorageSave.
  assert (Hw' : waiting n id
    (with_timers match localStorageTimer s with
                 | Some id0 => clearTimeout id0 (timers s)
                 | None => timers s
                 end s)).
  { destruct (localStorageTimer s) as [p|] eqn:E.
    - apply waiting_clear; [|done]. destruct Hw as (_ & _ & Hl & _). congruence.
    - by destruct s. }
  destruct Hw' as (Hlt & Hpt & _ & Hc & Hin & Hcb). simpl in *.
  set (q := match localStorageTimer s with
            | Some id0 => clearTimeout id0 (timers s)
            | None => timers s
            end) in *.
  unfold waiting. simpl.
  split; [lia|]. split; [done|]. split; [intros [= <-]; lia|].
  split; [done|]. split; [apply elem_of_app; by left|].
  intros t [Ht|Ht]%elem_of_app; [by apply Hcb|].
  apply list_elem_of_singleton in Ht as ->. simpl. split; [done | lia].
Qed.

Lemma waiting_flushVisualPreview n id s :
  waiting n id s → waiting n id (flushVisualPreview s).
Proof.
  intros Hw. unfold flushVisualPreview. apply waiting_debounced.
  by apply (waiting_ext n id s), Hw; [apply protocol_preview_fold].
Qed.

Lemma waiting_arm n id s s' cb d :
  waiting n id s → cb ≠ CbCommitTimeout n →
  timers s' = snd (setTimeout cb d (timers s)) →
  (∀ c, commits s !! n = Some c → commits s' !! n = Some c) →
  (previewTimer s' = previewTimer s ∨ previewTimer s' = Some (next_id (timers s))) →
  (localStorageTimer s' = localStorageTimer s
   ∨ localStorageTimer s' = Some (next_id (timers s))) →
  waiting n id s'.
Proof.
  intros (Hlt & Hpt & Hlt' & (c & Hc & Hrest) & Hin & Hcb) Hne Ht Hcs Hp Hl.
  unfold waiting. rewrite Ht. simpl.
  split; [lia|].
  split; [destruct Hp as [->| ->]; [done|intros [= <-]; lia]|].
  split; [destruct Hl as [->| ->]; [done|intros [= <-]; lia]|].
  split; [exists c; split; [by apply Hcs | done]|].
  split; [apply elem_of_app; by left|].
  intros t [Hin'|Hin']%elem_of_app; [by apply Hcb|].
  apply list_elem_of_singleton in Hin' as ->. simpl. split; [done | lia].
Qed.

Lemma waiting_flushBatchedChanges n id s :
  waiting n id s → waiting n id (flushBatchedChanges s).
Proof.
  intros Hw. unfold flushBatchedChanges.
  set (s1 := match previewTimer s with
             | Some p => flushVisualPreview (with_timers (clearTimeout p (timers s)) s)
             | None => s
             end).
  assert (Hw1 : waiting n id s1).
  { subst s1. destruct (previewTimer s) as [p|] eqn:E; [|done].
    apply waiting_flushVisualPreview, waiting_clear; [|done].
    destruct Hw as (_ & Hp & _). congruence. }
  clearbody s1.
  apply (waiting_ext n id
    match localStorageTimer s1 with
    | Some l => debouncedLocalStorageSave (with_timers (clearTimeout l (timers s1)) s1)
    | None => s1
    end); [done|].
  destruct (localStorageTimer s1) as [l|] eqn:E; [|done].
  apply waiting_debounced, waiting_clear; [|done].
  destruct Hw1 as (_ & _ & Hl & _). congruence.
Qed.

Lemma waiting_closeSettings n id s :
  waiting n id s → waiting n id (closeSettings s).
Proof.
  intros Hw%waiting_flushBatchedChanges. unfold closeSettings.
  by destruct (settings_modal (view (flushBatchedChanges s))).
Qed.

Lemma waiting_triggerVisualPreview n id elementId value s :
  waiting n id s → waiting n id (triggerVisualPreview elementId value s).
Proof.
  intros Hw. unfold triggerVisualPreview.
  destruct (visual_field elementId) as [f|]; [|done].
  destruct (immediate f).
  - eapply waiting_ext; [apply protocol_applyVisualChange|]. by destruct s.
  - simpl.
    apply (waiting_arm n id
             (with_timers match previewTimer s with
                          | Some p => clearTimeout p (timers s)
                          | None => timers s
                          end s) _ CbFlushVisualPreview PREVIEW_DEBOUNCE_DELAY);
      try done; [|by right|by left].
    destruct (previewTimer s) as [p|] eqn:E; [|by destruct s].
    apply waiting_clear; [|done]. destruct Hw as (_ & Hp & _). congruence.
Qed.

Lemma waiting_commit_result n id count s :
  waiting n id s → waiting n id (commit_result false count s).
Proof. done. Qed.

Lemma waiting_resolve_other n id n' s :
  n' ≠ n → waiting n id s → waiting n id (resolve n' false s).
Proof.
  intros Hne Hw. unfold resolve.
  destruct (commits s !! n') as [c|]; [|done].
  destruct (c_settled c); [done|].
  apply waiting_commit_result.
  destruct Hw as (Hlt & Hpt & Hlt' & (c0 & Hc & Hrest) & Hin & Hcb).
  unfold waiting. simpl. repeat (split; [done|]). split; [|done].
  exists c0. by rewrite list_lookup_insert_ne.
Qed.

Lemma handleResponse_quiet data n s :
  is_response data = false → handleResponse data n s = s.
Proof.
  unfold is_response, handleResponse. destruct data as [[]|]; try done.
  intros ->. by destruct (commits s !! n).
Qed.

Lemma on_message_quiet data s :
  is_response data = false → on_message data s = s.
Proof.
  intros Hq. unfold on_message.
  generalize (List.filter (λ n, match commits s !! n with
                                | Some c => c_listening c
                                | None => false
                                end) (seq 0 (length (commits s)))).
  intros l. induction l as [|n l IH]; [done|].
  simpl. by rewrite handleResponse_quiet.
Qed.

Lemma waiting_fire_other n id id' s :
  id' ≠ id → waiting n id s → waiting n id (fire id' s).
Proof.
  intros Hne Hw. unfold fire.
  destruct (take_timer id' (timers s)) as [[cb q]|] eqn:E; [|done].
  apply take_timer_Some in E as (-> & t & Hin & Hid & Hcb).
  assert (Hw' := waiting_clear n id id' s Hne Hw).
  destruct cb as [| |m].
  - by apply waiting_flushVisualPreview.
  - done.
  - apply waiting_resolve_other; [|done].
    intros ->. destruct Hw as (_ & _ & _ & _ & _ & Huniq).
    apply Huniq in Hcb; [congruence|done].
Qed.

Lemma fresh_ext s s' : protocol s' = protocol s → fresh s → fresh s'.
Proof. unfold protocol, fresh. intros [= -> -> -> -> _]. done. Qed.

Lemma fresh_clear p s :
  fresh s → fresh (with_timers (clearTimeout p (timers s)) s).
Proof.
  intros (Hp & Hl & Hcb & Hid). unfold fresh. simpl.
  split; [done|]. split; [done|]. split.
  - intros t m [Ht _]%elem_of_clearTimeout. by apply Hcb.
  - intros t [Ht _]%elem_of_clearTimeout. by apply Hid.
Qed.

Lemma fresh_arm s s' cb d :
  fresh s →
  timers s' = snd (setTimeout cb d (timers s)) →
  (length (commits s) ≤ length (commits s'))%nat →
  (∀ m, cb = CbCommitTimeout m → (m < length (commits s'))%nat) →
  (previewTimer s' = previewTimer s ∨ previewTimer s' = Some (next_id (timers s))) →
  (localStorageTimer s' = localStorageTimer s
   ∨ localStorageTimer s' = Some (next_id (timers s))) →
  fresh s'.
Proof.
  intros (Hp & Hl & Hcb & Hid) Ht Hlen Hm Hp' Hl'.
  unfold fresh. rewrite Ht. simpl.
  split; [|split; [|split]].
  - intros p. destruct Hp' as [->| ->].
    + intros H%Hp. lia.
    + intros [= <-]. lia.
  - intros p. destruct Hl' as [->| ->].
    + intros H%Hl. lia.
    + intros [= <-]. lia.
  - intros t m [Hin|Hin]%elem_of_app Hcb'.
    + specialize (Hcb t m Hin Hcb'). lia.
    + apply list_elem_of_singleton in Hin as ->. by apply Hm.
  - intros t [Hin|Hin]%elem_of_app.
    + specialize (Hid t Hin). lia.
    + apply list_elem_of_singleton in Hin as ->. simpl. lia.
Qed.

Lemma fresh_debounced s : fresh s → fresh (debouncedLocalStorageSave s).
Proof.
  intros Hf.
  apply (fresh_arm
           (with_timers match localStorageTimer s with
                        | Some l => clearTimeout l (timers s)
                        | None => timers s
                        end s) _ CbLocalStorageSave LOCALSTORAGE_DEBOUNCE_DELAY);
    try done; [|by left|by right].
  destruct (localStorageTimer s); [by apply fresh_clear | by destruct s].
Qed.

Lemma fresh_flushVisualPreview s : fresh s → fresh (flushVisualPreview s).
Proof.
  intros Hf. apply fresh_debounced.
  by apply (fresh_ext s), Hf; [apply protocol_preview_fold].
Qed.

Lemma fresh_flushBatchedChanges s : fresh s → fresh (flushBatchedChanges s).
Proof.
  intros Hf. unfold flushBatchedChanges.
  set (s1 := match previewTimer s with
             | Some p => flushVisualPreview (with_timers (clearTimeout p (timers s)) s)
             | None => s
             end).
  assert (Hf1 : fresh s1).
  { subst s1. destruct (previewTimer s); [|done].
    by apply fresh_flushVisualPreview, fresh_clear. }
  clearbody s1.
  apply (fresh_ext
    match localStorageTimer s1 with
    | Some l => debouncedLocalStorageSave (with_timers (clearTimeout l (timers s1)) s1)
    | None => s1
    end); [done|].
  destruct (localStorageTimer s1); [|done].
  by apply fresh_debounced, fresh_clear.
Qed.

Lemma fresh_closeSettings s : fresh s → fresh (closeSettings s).
Proof.
  intros Hf%fresh_flushBatchedChanges. unfold closeSettings.
  by destruct (settings_modal (view (flushBatchedChanges s))).
Qed.

Lemma fresh_triggerVisualPreview elementId value s :
  fresh s → fresh (triggerVisualPreview elementId value s).
Proof.
  intros Hf. unfold triggerVisualPreview.
  destruct (visual_field elementId) as [f|]; [|done].
  destruct (immediate f).
  - eapply fresh_ext; [apply protocol_applyVisualChange|]. by destruct s.
  - simpl.
    apply (fresh_arm
             (with_timers match previewTimer s with
                          | Some p => clearTimeout p (timers s)
                          | None => timers s
                          end s) _ CbFlushVisualPreview PREVIEW_DEBOUNCE_DELAY);
      try done; [|by right|by left].
    destruct (previewTimer s); [by apply fresh_clear | by destruct s].
Qed.

Lemma fresh_commit_result b count s :
  fresh s → fresh (commit_result b count s).
Proof.
  intros Hf. unfold commit_result. destruct b; [|done].
  by apply fresh_closeSettings.
Qed.

Lemma fresh_insert_commit n c s :
  fresh s → fresh (with_commits (<[n := c]> (commits s)) s).
Proof.
  intros (Hp & Hl & Hcb & Hid). unfold fresh. simpl.
  rewrite length_insert. done.
Qed.

Lemma fresh_resolve n b s : fresh s → fresh (resolve n b s).
Proof.
  intros Hf. unfold resolve.
  destruct (commits s !! n) as [c|]; [|done].
  destruct (c_settled c); [done|].
  by apply fresh_commit_result, fresh_insert_commit.
Qed.

Lemma fresh_handleResponse data n s : fresh s → fresh (handleResponse data n s).
Proof.
  intros Hf. unfold handleResponse.
  destruct data as [[]|]; try done.
  destruct (commits s !! n) as [c|]; [|done].
  destruct (strict_eq _ _); [|done].
  apply fresh_resolve.
  by apply (fresh_insert_commit n _ (with_timers _ s)), fresh_clear.
Qed.

Lemma fresh_on_message data s : fresh s → fresh (on_message data s).
Proof.
  unfold on_message.
  generalize (List.filter (λ n, match commits s !! n with
                                | Some c => c_listening c
                                | None => false
                                end) (seq 0 (length (commits s)))).
  intros l. revert s. induction l as [|n l IH]; intros s Hf; [done|].
  simpl. by apply IH, fresh_handleResponse.
Qed.

Lemma fresh_fire id s : fresh s → fresh (fire id s).
Proof.
  intros Hf. unfold fire.
  destruct (take_timer id (timers s)) as [[cb q]|] eqn:E; [|done].
  apply take_timer_Some in E as (-> & _).
  assert (Hf' := fresh_clear id s Hf).
  destruct cb.
  - by apply fresh_flushVisualPreview.
  - done.
  - by apply fresh_resolve.
Qed.

Lemma conn_flushBatchedChanges s : conn (flushBatchedChanges s) = conn s.
Proof.
  assert (Hfold : ∀ l s, conn (fold_left preview_entry l s) = conn s).
  { intros l s'. by injection (protocol_preview_fold l s'). }
  unfold flushBatchedChanges.
  destruct (previewTimer s) as [p|].
  - destruct (localStorageTimer _); simpl; by rewrite Hfold.
  - by destruct (localStorageTimer s).
Qed.

(** The ways [saveSettingsFromModal] can end: closing the modal with
    nothing to send, giving up on an error, or arming the deadline and
    sending the request, which either leaves the commit waiting or
    fails at once. *)
Lemma saveSettingsFromModal_cases f currentSettings s :
  ∃ s0,
    protocol s0
    = protocol (flushBatchedChanges
                  (with_view (addLogEntry LogSelectiveSave Info (view s)) s))
    ∧ (saveSettingsFromModal f currentSettings s = closeSettings s0
       ∨ saveSettingsFromModal f currentSettings s = s0
       ∨ ∃ config count c sent,
           Connection.sendWebSocketMessage
             (JObj 0 [("type", JStr "config_update"); ("config", JObj 0 config)])
             (conn s0) = (c, sent)
           ∧ Connection.isConnected (conn s0) = true
           ∧ let n := length (commits s0) in
             let armed :=
               State (previewTimer s0) (localStorageTimer s0) (batchedChanges s0)
                 (lastAppliedValues s0)
                 (snd (setTimeout (CbCommitTimeout n) 5000 (timers s0)))
                 (view s0) c
                 (commits s0 ++ [Commit (next_id (timers s0)) true None count]) in
             (sent = true ∧ saveSettingsFromModal f currentSettings s = armed)
             ∨ (sent = false
                ∧ saveSettingsFromModal f currentSettings s
                  = resolve n false
                      (with_timers (clearTimeout (next_id (timers s0)) (timers armed))
                         armed))).
Proof.
  unfold saveSettingsFromModal.
  set (s1 := flushBatchedChanges (with_view _ s)). clearbody s1.
  destruct (nullish currentSettings).
  { eexists (with_view _ s1). split; [done|]. right. by left. }
  destruct (length (keys (detect_changes f currentSettings)) =? 0)%nat.
  { exists (with_view (addLogEntry LogNoChange Info (view s1)) s1).
    split; [done|]. by left. }
  set (light := List.filter _ (detect_changes f currentSettings)).
  set (heavy := List.filter _ (detect_changes f currentSettings)).
  set (applied := if (0 <? length (keys light))%nat
                  then let '(l, s) := applyLightChanges light s1 in
                       (l, with_view (addLogEntry LogVisualApplied Success (view s)) s)
                  else (light, s1)).
  assert (H2 : protocol (snd applied) = protocol s1).
  { subst applied. destruct (0 <? length (keys light))%nat; [|done].
    assert (H := protocol_applyLightChanges light s1).
    by destruct (applyLightChanges light s1). }
  destruct applied as [light' s2]. simpl in H2.
  destruct (0 <? length (keys (assign (assign [] light') heavy)))%nat;
    [|exists s2; split; [done|]; by left].
  destruct (match get (assign (assign [] light') heavy) "personality" with
            | JStr p => negb (String.eqb p "") && blank p
            | _ => false
            end).
  { eexists (with_view _ s2). split; [exact H2|]. right. by left. }
  destruct (negb (Connection.isConnected (conn s2))) eqn:Hconn.
  { eexists (with_view _ s2). split; [exact H2|]. right. by left. }
  exists s2. split; [done|]. right. right.
  simpl.
  destruct (Connection.sendWebSocketMessage _ (conn s2)) as [c sent] eqn:Hsend.
  exists (assign (assign [] light') heavy),
         (length (keys (assign (assign [] light') heavy))), c, sent.
  split; [done|]. split; [by apply negb_false_iff in Hconn|].
  destruct sent; [left | right]; done.
Qed.

Lemma commits_flushBatchedChanges s : commits (flushBatchedChanges s) = commits s.
Proof.
  assert (Hfold : ∀ l s, commits (fold_left preview_entry l s) = commits s).
  { intros l s'. by injection (protocol_preview_fold l s'). }
  unfold flushBatchedChanges.
  destruct (previewTimer s) as [p|].
  - destruct (localStorageTimer _); simpl; by rewrite Hfold.
  - by destruct (localStorageTimer s).
Qed.

Lemma commits_closeSettings s : commits (closeSettings s) = commits s.
Proof.
  unfold closeSettings. rewrite <- (commits_flushBatchedChanges s).
  by destruct (settings_modal (view (flushBatchedChanges s))).
Qed.

Lemma conn_closeSettings s : conn (closeSettings s) = conn s.
Proof.
  unfold closeSettings. rewrite <- (conn_flushBatchedChanges s).
  by destruct (settings_modal (view (flushBatchedChanges s))).
Qed.

Lemma commits_commit_result b count s :
  commits (commit_result b count s) = commits s.
Proof. unfold commit_result. destruct b; [|done]. by rewrite commits_closeSettings. Qed.

Lemma commits_triggerVisualPreview elementId value s :
  commits (triggerVisualPreview elementId value s) = commits s.
Proof.
  unfold triggerVisualPreview.
  destruct (visual_field elementId) as [f|]; [|done].
  destruct (immediate f); [|done].
  by injection (protocol_applyVisualChange (key f) value (handler f)
                  (with_batch (set (batchedChanges s) (key f) value) s)).
Qed.

Lemma waiting_saveSettingsFromModal n id f currentSettings s :
  waiting n id s → waiting n id (saveSettingsFromModal f currentSettings s).
Proof.
  intros Hw.
  destruct (saveSettingsFromModal_cases f currentSettings s)
    as (s0 & Hp & [->|[->|(config & count & c & sent & Hsend & _ & Hcase)]]).
  1-3: assert (Hw0 : waiting n id s0)
    by (apply (waiting_ext n id _ _ Hp), waiting_flushBatchedChanges;
        by apply (waiting_ext n id s)).
  - by apply waiting_closeSettings.
  - done.
  - assert (Hn : (n < length (commits s0))%nat).
    { destruct Hw0 as (_ & _ & _ & (c0 & Hc0 & _) & _). by eapply lookup_lt_Some. }
    cbv zeta in Hcase. set (armed := State _ _ _ _ _ _ c _) in Hcase.
    assert (Hwa : waiting n id armed).
    { apply (waiting_arm n id s0 armed
               (CbCommitTimeout (length (commits s0))) 5000); try done.
      - intros [= E]. lia.
      - intros c0 Hc0. by apply lookup_app_l_Some.
      - by left.
      - by left. }
    destruct Hcase as [[_ ->]|[_ ->]]; [done|].
    apply waiting_resolve_other; [lia|].
    apply waiting_clear; [|done].
    destruct Hw0 as (Hlt & _). lia.
Qed.

Lemma fresh_saveSettingsFromModal f currentSettings s :
  fresh s → fresh (saveSettingsFromModal f currentSettings s).
Proof.
  intros Hf.
  destruct (saveSettingsFromModal_cases f currentSettings s)
    as (s0 & Hp & [->|[->|(config & count & c & sent & Hsend & _ & Hcase)]]).
  1-3: assert (Hf0 : fresh s0)
    by (apply (fresh_ext _ _ Hp), fresh_flushBatchedChanges;
        by apply (fresh_ext s)).
  - by apply fresh_closeSettings.
  - done.
  - cbv zeta in Hcase. set (armed := State _ _ _ _ _ _ c _) in Hcase.
    assert (Hfa : fresh armed).
    { apply (fresh_arm s0 armed (CbCommitTimeout (length (commits s0))) 5000);
        try done; simpl.
      - rewrite length_app. lia.
      - intros m [= <-]. rewrite length_app. simpl. lia.
      - by left.
      - by left. }
    destruct Hcase as [[_ ->]|[_ ->]]; [done|].
    by apply fresh_resolve, fresh_clear.
Qed.

Lemma fresh_handle e s : fresh s → fresh (handle e s).
Proof.
  destruct e; simpl.
  - apply fresh_triggerVisualPreview.
  - apply fresh_closeSettings.
  - apply fresh_saveSettingsFromModal.
  - apply fresh_on_message.
  - apply fresh_fire.
Qed.

Lemma fresh_run es s : fresh s → fresh (run es s).
Proof.
  revert s. induction es as [|e es IH]; intros s Hf; [done|].
  simpl. by apply IH, fresh_handle.
Qed.

Lemma fresh_opened : fresh opened.
Proof.
  repeat split; try done; simpl; by intros ? ? ?%elem_of_nil || by intros ? ?%elem_of_nil.
Qed.

Lemma waiting_handle n id e s :
  quiet id e → waiting n id s → waiting n id (handle e s).
Proof.
  destruct e; simpl; intros Hq Hw.
  - by apply waiting_triggerVisualPreview.
  - by apply waiting_closeSettings.
  - by apply waiting_saveSettingsFromModal.
  - by rewrite on_message_quiet.
  - by apply waiting_fire_other.
Qed.

Lemma waiting_run n id es s :
  Forall (quiet id) es → waiting n id s → waiting n id (run es s).
Proof.
  revert s. induction es as [|e es IH]; intros s Hq Hw; [done|].
  apply Forall_cons in Hq as [Hq Hqs].
  simpl. by apply IH, waiting_handle.
Qed.

Lemma protocol_commits s s' : protocol s' = protocol s → commits s' = commits s.
Proof. unfold protocol. by intros [= _ _ _ -> _]. Qed.

Lemma protocol_conn s s' : protocol s' = protocol s → conn s' = conn s.
Proof. unfold protocol. by intros [= _ _ _ _ ->]. Qed.

Lemma keeps_refl cs : keeps_outcomes cs cs.
Proof. intros n c b Hc Hb. by exists c. Qed.

Lemma keeps_trans cs1 cs2 cs3 :
  keeps_outcomes cs1 cs2 → keeps_outcomes cs2 cs3 → keeps_outcomes cs1 cs3.
Proof.
  intros H12 H23 n c b Hc Hb.
  destruct (H12 n c b Hc Hb) as (c' & Hc' & Hb'). by apply (H23 n c').
Qed.

Lemma keeps_insert cs n c c' :
  cs !! n = Some c →
  (c_settled c = None ∨ c_settled c' = c_settled c) →
  keeps_outcomes cs (<[n := c']> cs).
Proof.
  intros Hn Hs m c0 b Hc0 Hb.
  destruct (decide (n = m)) as [->|Hne].
  - exists c'. split.
    + apply list_lookup_insert_eq. by eapply lookup_lt_Some.
    + destruct Hs as [Hs|Hs]; congruence.
  - exists c0. by rewrite list_lookup_insert_ne.
Qed.

Lemma keeps_resolve n b s : keeps_outcomes (commits s) (commits (resolve n b s)).
Proof.
  unfold resolve. destruct (commits s !! n) as [c|] eqn:Hc; [|apply keeps_refl].
  destruct (c_settled c) eqn:Hs; [apply keeps_refl|].
  rewrite commits_commit_result. simpl.
  apply (keeps_insert _ _ c); [done | by left].
Qed.

Lemma keeps_handleResponse data n s :
  keeps_outcomes (commits s) (commits (handleResponse data n s)).
Proof.
  unfold handleResponse. destruct data as [[]|]; try apply keeps_refl.
  destruct (commits s !! n) as [c|] eqn:Hc; [|apply keeps_refl].
  destruct (strict_eq _ _); [|apply keeps_refl].
  eapply keeps_trans; [|apply keeps_resolve]. simpl.
  apply (keeps_insert _ _ c); [done | by right].
Qed.

Lemma keeps_responses data l s :
  keeps_outcomes (commits s)
    (commits (fold_left (λ s n, handleResponse data n s) l s)).
Proof.
  revert s. induction l as [|n l IH]; intros s; [apply keeps_refl|].
  simpl. eapply keeps_trans; [apply keeps_handleResponse | apply IH].
Qed.

Lemma keeps_saveSettingsFromModal f currentSettings s :
  keeps_outcomes (commits s) (commits (saveSettingsFromModal f currentSettings s)).
Proof.
  destruct (saveSettingsFromModal_cases f currentSettings s)
    as (s0 & Hp & [->|[->|(config & count & c & sent & Hsend & _ & Hcase)]]).
  1-3: assert (Hc : commits s0 = commits s)
    by (rewrite (protocol_commits _ _ Hp); by rewrite commits_flushBatchedChanges).
  - rewrite commits_closeSettings, Hc. apply keeps_refl.
  - rewrite Hc. apply keeps_refl.
  - cbv zeta in Hcase. set (armed := State _ _ _ _ _ _ c _) in Hcase.
    assert (Ha : keeps_outcomes (commits s) (commits armed)).
    { simpl. rewrite Hc. intros n c0 b Hc0 Hb. exists c0.
      split; [by apply lookup_app_l_Some | done]. }
    destruct Hcase as [[_ ->]|[_ ->]]; [done|].
    eapply keeps_trans; [exact Ha|].
    exact (keeps_resolve (length (commits s0)) false
             (with_timers (clearTimeout (next_id (timers s0)) (timers armed)) armed)).
Qed.

Lemma keeps_fire id s : keeps_outcomes (commits s) (commits (fire id s)).
Proof.
  unfold fire. destruct (take_timer id (timers s)) as [[cb q]|]; [|apply keeps_refl].
  destruct cb.
  - unfold flushVisualPreview. simpl.
    injection (protocol_preview_fold (batchedChanges s) (with_timers q s))
      as _ _ _ -> _.
    apply keeps_refl.
  - apply keeps_refl.
  - apply (keeps_resolve _ _ (with_timers q s)).
Qed.

Lemma keeps_handle e s : keeps_outcomes (commits s) (commits (handle e s)).
Proof.
  destruct e; simpl.
  - rewrite commits_triggerVisualPreview. apply keeps_refl.
  - rewrite commits_closeSettings. apply keeps_refl.
  - apply keeps_saveSettingsFromModal.
  - apply keeps_responses.
  - apply keeps_fire.
Qed.

Lemma settled_run n b es s : settled n b s → settled n b (run es s).
Proof.
  revert s. induction es as [|e es IH]; intros s Hs; [done|].
  simpl. apply IH. destruct Hs as (c & Hc & Hb).
  by apply (keeps_handle e s n c b).
Qed.

Lemma unsettled_resolve_other n n' b s :
  n' ≠ n → unsettled n s → unsettled n (resolve n' b s).
Proof.
  intros Hne (c & Hc & Hs). unfold resolve.
  destruct (commits s !! n') as [c'|]; [|by exists c].
  destruct (c_settled c'); [by exists c|].
  exists c. rewrite commits_commit_result. simpl.
  by rewrite list_lookup_insert_ne.
Qed.

Lemma unsettled_handleResponse_other data n n' s :
  n' ≠ n → unsettled n s → unsettled n (handleResponse data n' s).
Proof.
  intros Hne Hu. unfold handleResponse.
  destruct data as [[]|]; try done.
  destruct (commits s !! n') as [c'|]; [|done].
  destruct (strict_eq _ _); [|done].
  apply unsettled_resolve_other; [done|].
  destruct Hu as (c & Hc & Hs). exists c. simpl.
  by rewrite list_lookup_insert_ne.
Qed.

Lemma handleResponse_settles r fields n s :
  unsettled n s →
  is_response (Some (JObj r fields)) = true →
  settled n (strict_eq (get fields "success") (JBool true))
    (handleResponse (Some (JObj r fields)) n s).
Proof.
  intros (c & Hc & Hs) Hr. unfold handleResponse. simpl in Hr. rewrite Hc, Hr.
  assert (Hn : (n < length (commits s))%nat) by (by eapply lookup_lt_Some).
  unfold resolve. simpl. rewrite list_lookup_insert_eq by done. simpl. rewrite Hs.
  eexists. rewrite commits_commit_result. simpl.
  rewrite list_lookup_insert_eq by (by rewrite length_insert). done.
Qed.

Lemma responses_settle r fields n l s :
  NoDup l → n ∈ l → unsettled n s →
  is_response (Some (JObj r fields)) = true →
  settled n (strict_eq (get fields "success") (JBool true))
    (fold_left (λ s n, handleResponse (Some (JObj r fields)) n s) l s).
Proof.
  intros Hnd Hin Hu Hr.
  apply list_elem_of_split in Hin as (l1 & l2 & ->).
  apply NoDup_app in Hnd as (_ & Hl1 & _).
  rewrite fold_left_app. cbn [fold_left].
  assert (Hu1 : unsettled n
            (fold_left (λ s n, handleResponse (Some (JObj r fields)) n s) l1 s)).
  { clear -Hu Hl1. revert s Hu.
    induction l1 as [|n' l1 IH]; intros s Hu; [done|].
    cbn [fold_left]. apply IH.
    - intros x Hx. apply Hl1. by right.
    - apply unsettled_handleResponse_other; [|done].
      intros ->. apply (Hl1 n); by left. }
  destruct (handleResponse_settles r fields n _ Hu1 Hr) as (c & Hc & Hb).
  by apply (keeps_responses _ l2 _ n c).
Qed.

Lemma on_message_settles r fields n s c :
  commits s !! n = Some c → c_settled c = None → c_listening c = true →
  is_response (Some (JObj r fields)) = true →
  settled n (strict_eq (get fields "success") (JBool true))
    (on_message (Some (JObj r fields)) s).
Proof.
  intros Hc Hs Hl Hr. unfold on_message.
  apply responses_settle; [| |by exists c|done].
  - apply NoDup_ListNoDup, List.NoDup_filter, NoDup_ListNoDup, NoDup_seq.
  - apply list_elem_of_In, filter_In. rewrite Hc. split; [|done].
    apply in_seq. apply lookup_lt_Some in Hc. lia.
Qed.

Lemma sendWebSocketMessage_sent message c c' :
  Connection.sendWebSocketMessage message c = (c', true) →
  Connection.sent c' = Connection.sent c ++ [message].
Proof.
  unfold Connection.sendWebSocketMessage.
  destruct (Connection.ws c) as [i|]; [|by intros [= _]].
  destruct (Connection.sockets c !! i) as [[]|]; by intros [= <-].
Qed.

Lemma fire_deadline n id s :
  waiting n id s →
  settled n false (fire id s)
  ∧ log (view (fire id s))
    = log (view s) ++ [(LogSaveError "Timeout ou erreur serveur", Error)]
  ∧ conn (fire id s) = conn s
  ∧ length (commits (fire id s)) = length (commits s)
  ∧ (∀ t, t ∈ pending (timers (fire id s)) →
          t ∈ pending (timers s) ∧ timer_id t ≠ id).
Proof.
  intros (Hlt & Hpt & Hlt' & (c & Hc & Hid & Hs & Hl) & Hin & Hcb).
  destruct (take_timer_pending id (timers s) _ Hin eq_refl) as [cb Htake].
  destruct (take_timer_Some _ _ _ _ Htake) as (_ & t & Ht & Htid & Htcb).
  apply Hcb in Htid; [|done]. rewrite Htid in Htcb. subst cb.
  unfold fire. rewrite Htake. unfold resolve. simpl. rewrite Hc, Hs. simpl.
  assert (Hn : (n < length (commits s))%nat) by (by eapply lookup_lt_Some).
  split; [|split; [done|split; [done|split]]].
  - eexists. simpl. by rewrite list_lookup_insert_eq.
  - by rewrite length_insert.
  - intros t' Ht'. by apply list_elem_of_filter in Ht' as [? ?].
Qed.

Lemma saveSettingsFromModal_new_commit f currentSettings s c :
  fresh s →
  commits (saveSettingsFromModal f currentSettings s) !! length (commits s) = Some c →
  c_settled c = None →
  waiting (length (commits s)) (c_timeout c) (saveSettingsFromModal f currentSettings s)
  ∧ ∃ config,
      Connection.sent (conn (saveSettingsFromModal f currentSettings s))
      = Connection.sent (conn s)
        ++ [JObj 0 [("type", JStr "config_update"); ("config", JObj 0 config)]].
Proof.
  intros Hf.
  destruct (saveSettingsFromModal_cases f currentSettings s)
    as (s0 & Hp & [->|[->|(config & count & c' & sent & Hsend & _ & Hcase)]]).
  1-3: assert (Hc : commits s0 = commits s)
    by (rewrite (protocol_commits _ _ Hp); by rewrite commits_flushBatchedChanges).
  1-3: assert (Hconn : conn s0 = conn s)
    by (rewrite (protocol_conn _ _ Hp); by rewrite conn_flushBatchedChanges).
  1-3: assert (Hf0 : fresh s0)
    by (apply (fresh_ext _ _ Hp), fresh_flushBatchedChanges; by apply (fresh_ext s)).
  - rewrite commits_closeSettings, Hc. intros Hl. by rewrite lookup_ge_None_2 in Hl.
  - rewrite Hc. intros Hl. by rewrite lookup_ge_None_2 in Hl.
  - cbv zeta in Hcase. rewrite Hc in Hcase.
    destruct Hcase as [[-> ->]|[-> ->]].
    + simpl. rewrite <- Hc, list_lookup_middle by done.
      intros [= <-] _. simpl.
      destruct Hf0 as (Hp0 & Hl0 & Hcb0 & Hid0).
      split; [|exists config; rewrite <- Hconn; by apply sendWebSocketMessage_sent].
      unfold waiting. simpl.
      split; [lia|].
      split; [intros H%Hp0; lia|].
      split; [intros H%Hl0; lia|].
      split; [eexists; by rewrite list_lookup_middle|].
      split; [apply elem_of_app; right; by apply list_elem_of_singleton|].
      intros t [Ht|Ht]%elem_of_app.
      * specialize (Hid0 t Ht). split.
        -- intros Hcb. specialize (Hcb0 t _ Ht Hcb). lia.
        -- intros E. lia.
      * by apply list_elem_of_singleton in Ht as ->.
    + unfold resolve. simpl. rewrite <- Hc, list_lookup_middle by done. simpl.
      rewrite list_lookup_insert_eq by (rewrite length_app; simpl; lia).
      by intros [= <-].
Qed.

(** C7. A settings commit that goes out sends one [config_update]
    frame and arms one deadline timer of 5000 ms.  As long as no
    [config_updated] frame arrives and the deadline has not fired, the
    commit keeps waiting with its deadline armed, whatever else happens
    to the modal.  When the deadline fires, the commit is resolved with
    failure and the failure is logged; nothing is sent and no timer is
    armed, so nothing is retried.  A [config_updated] frame arriving
    while the commit waits resolves it with that frame's [success].
    Whichever comes first, the outcome never changes afterwards. *)
Theorem commit_deadline f currentSettings s :
  fresh s →
  let n := length (commits s) in
  let s1 := saveSettingsFromModal f currentSettings s in
  ∀ c, commits s1 !! n = Some c → c_settled c = None →
    let id := c_timeout c in
    (∃ config,
       Connection.sent (conn s1)
       = Connection.sent (conn s)
         ++ [JObj 0 [("type", JStr "config_update"); ("config", JObj 0 config)]])
    ∧ Timer id 5000 (CbCommitTimeout n) ∈ pending (timers s1)
    ∧ ∀ es, Forall (quiet id) es →
        let s2 := run es s1 in
        waiting n id s2
        ∧ (let s3 := fire id s2 in
           settled n false s3
           ∧ log (view s3)
             = log (view s2) ++ [(LogSaveError "Timeout ou erreur serveur", Error)]
           ∧ conn s3 = conn s2
           ∧ length (commits s3) = length (commits s2)
           ∧ (∀ t, t ∈ pending (timers s3) →
                   t ∈ pending (timers s2) ∧ timer_id t ≠ id)
           ∧ ∀ later, settled n false (run later s3))
        ∧ (∀ r fields,
             is_response (Some (JObj r fields)) = true →
             let b := strict_eq (get fields "success") (JBool true) in
             let s3 := on_message (Some (JObj r fields)) s2 in
             settled n b s3 ∧ ∀ later, settled n b (run later s3)).
Proof.
  intros Hf n s1 c Hc Hs id.
  destruct (saveSettingsFromModal_new_commit f currentSettings s c Hf Hc Hs)
    as [Hw Hsent].
  split; [exact Hsent|].
  split; [by destruct Hw as (_ & _ & _ & _ & ? & _)|].
  intros es Hq s2.
  assert (Hw2 : waiting n id s2) by (by apply waiting_run).
  split; [exact Hw2|]. split.
  - destruct (fire_deadline n id s2 Hw2) as (H1 & H2 & H3 & H4 & H5).
    repeat (split; [done|]). intros later. by apply settled_run.
  - intros r fields Hr b s3.
    destruct Hw2 as (_ & _ & _ & (c2 & Hc2 & _ & Hs2 & Hl2) & _).
    assert (Hb : settled n b s3) by (by apply (on_message_settles r fields n s2 c2)).
    split; [exact Hb|]. intros later. by apply settled_run.
Qed.

Lemma commit_deadline_witness :
  let s1 := saveSettingsFromModal model_chosen server_defaults opened in
  Connection.sent (conn s1)
  = [JObj 0 [("type", JStr "config_update");
             ("config", JObj 0 [("llm_model", JStr "qwen2.5:7b")])]]
  ∧ settled 0 false (fire 1%positive s1)
  ∧ settled 0 true
      (on_message (Some (JObj 0 [("type", JStr "config_updated");
                                 ("success", JBool true)])) s1).
Proof.
  intros s1.
  destruct (commit_deadline model_chosen server_defaults opened fresh_opened
              (Commit 1%positive true None 1) eq_refl eq_refl)
    as (_ & _ & Hrun).
  destruct (Hrun [] (Forall_nil_2 _)) as (_ & (Hfail & _) & Hresp).
  split; [reflexivity|]. split; [exact Hfail|].
  exact (proj1 (Hresp 0%nat [("type", JStr "config_updated"); ("success", JBool true)]
                  eq_refl)).
Defined.

End SettingsClaims.

(** ** Efficiency statistic (variables-globals.js) *)

Section StatsClaims.
Import Binary64.
Local Open Scope Z_scope.

Lemma bias_eq : bias = 1074.
Proof. reflexivity. Qed.

#[local] Opaque bias.

Lemma pow2_pos n : 0 <= n → 0 < 2 ^ n.
Proof. intros. by apply Z.pow_pos_nonneg. Qed.

Lemma pow2_split a b : 0 <= a → 0 <= b → 2 ^ (a + b) = 2 ^ a * 2 ^ b.
Proof. intros. by apply Z.pow_add_r. Qed.

Lemma digits2_pos_bounds m :
  2 ^ (Zpos (digits2_pos m) - 1) <= Zpos m < 2 ^ Zpos (digits2_pos m).
Proof.
  induction m as [m IH|m IH|]; simpl digits2_pos; [| |done].
  - rewrite Pos2Z.inj_succ, Z.pow_succ_r by lia.
    replace (Z.succ (Zpos (digits2_pos m)) - 1) with (Z.succ (Zpos (digits2_pos m) - 1)) by lia.
    rewrite Z.pow_succ_r by lia. lia.
  - rewrite Pos2Z.inj_succ, Z.pow_succ_r by lia.
    replace (Z.succ (Zpos (digits2_pos m)) - 1) with (Z.succ (Zpos (digits2_pos m) - 1)) by lia.
    rewrite Z.pow_succ_r by lia. lia.
Qed.

Lemma iter_xO_value m d : Zpos (Pos.iter xO m d) = Zpos m * 2 ^ Zpos d.
Proof.
  induction d as [|d IH] using Pos.peano_ind.
  - simpl. lia.
  - rewrite Pos.iter_succ, Pos2Z.inj_succ, Z.pow_succ_r by lia.
    rewrite Pos2Z.inj_xO, IH. lia.
Qed.

Lemma shl_align_spec mx ex ex' :
  snd (shl_align mx ex ex') = Z.min ex ex'
  ∧ Zpos (fst (shl_align mx ex ex')) = Zpos mx * 2 ^ (ex - Z.min ex ex').
Proof.
  unfold shl_align. destruct (ex' - ex) as [|d|d] eqn:E; simpl.
  - replace (Z.min ex ex') with ex by lia. rewrite Z.sub_diag. simpl. lia.
  - replace (Z.min ex ex') with ex by lia. rewrite Z.sub_diag. simpl. lia.
  - replace (Z.min ex ex') with ex' by lia. split; [done|].
    rewrite iter_xO_value. f_equal. f_equal. lia.
Qed.

Lemma shr_1_bounds r :
  0 <= shr_m r → 0 <= shr_m (shr_1 r) ∧ 2 * shr_m (shr_1 r) <= shr_m r.
Proof. destruct r as [[|[p|p|]|p] r s]; simpl; lia. Qed.

Lemma iter_shr_1_bounds p r :
  0 <= shr_m r →
  0 <= shr_m (SpecFloat.iter_pos shr_1 p r)
  ∧ 2 ^ Zpos p * shr_m (SpecFloat.iter_pos shr_1 p r) <= shr_m r.
Proof.
  revert r. induction p as [p IH|p IH|]; intros r Hr; simpl SpecFloat.iter_pos.
  - destruct (shr_1_bounds r Hr) as [H1 H1'].
    destruct (IH _ H1) as [H2 H2']. destruct (IH _ H2) as [H3 H3'].
    split; [done|].
    replace (Zpos p~1) with (1 + (Zpos p + Zpos p)) by lia.
    rewrite !pow2_split by lia. change (2 ^ 1) with 2.
    assert (0 < 2 ^ Zpos p) by (by apply pow2_pos). nia.
  - destruct (IH _ Hr) as [H2 H2']. destruct (IH _ H2) as [H3 H3'].
    split; [done|].
    replace (Zpos p~0) with (Zpos p + Zpos p) by lia.
    rewrite !pow2_split by lia.
    assert (0 < 2 ^ Zpos p) by (by apply pow2_pos). nia.
  - destruct (shr_1_bounds r Hr). simpl. lia.
Qed.

Lemma shr_spec mrs e n :
  0 <= shr_m mrs →
  snd (shr mrs e n) = e + Z.max 0 n
  ∧ 0 <= shr_m (fst (shr mrs e n))
  ∧ 2 ^ Z.max 0 n * shr_m (fst (shr mrs e n)) <= shr_m mrs.
Proof.
  intros Hm. unfold shr. destruct n as [|p|p].
  - change (Z.max 0 0) with 0. change (2 ^ 0) with 1. simpl fst. simpl snd. lia.
  - destruct (iter_shr_1_bounds p mrs Hm) as [H1 H2].
    replace (Z.max 0 (Zpos p)) with (Zpos p) by lia. simpl fst. simpl snd. lia.
  - replace (Z.max 0 (Zneg p)) with 0 by lia. change (2 ^ 0) with 1.
    simpl fst. simpl snd. lia.
Qed.

Lemma shr_record_of_loc_m m l : shr_m (shr_record_of_loc m l) = m.
Proof. by destruct l as [|[]]. Qed.

Lemma shr_fexp_spec m e l :
  0 <= m →
  let e' := Z.max e (fexp prec emax (Zdigits2 m + e)) in
  snd (shr_fexp prec emax m e l) = e'
  ∧ 0 <= shr_m (fst (shr_fexp prec emax m e l))
  ∧ 2 ^ (e' - e) * shr_m (fst (shr_fexp prec emax m e l)) <= m.
Proof.
  intros Hm e'. unfold shr_fexp.
  destruct (shr_spec (shr_record_of_loc m l) e (fexp prec emax (Zdigits2 m + e) - e))
    as (H1 & H2 & H3); [by rewrite shr_record_of_loc_m|].
  rewrite shr_record_of_loc_m in H3.
  split; [subst e'; lia|]. split; [done|].
  replace (e' - e) with (Z.max 0 (fexp prec emax (Zdigits2 m + e) - e)) by (subst e'; lia).
  done.
Qed.

Lemma round_nearest_even_bounds m l :
  m <= round_nearest_even m l <= m + 1.
Proof. destruct l as [|[]]; simpl; try lia. destruct (Z.even m); lia. Qed.

Lemma binary_round_aux_rounded sx mx ex lx :
  0 <= mx → 0 <= ex + bias →
  rounded sx
    (mx * 2 ^ (ex + bias)
     + 2 ^ (Z.max ex (fexp prec emax (Zdigits2 mx + ex)) + bias))
    (binary_round_aux prec emax sx mx ex lx).
Proof.
  intros Hmx Hex. unfold binary_round_aux.
  destruct (shr_fexp_spec mx ex lx Hmx) as (He1 & Hm1 & Hv1).
  destruct (shr_fexp prec emax mx ex lx) as [mrs1 e1]. simpl in He1, Hm1, Hv1.
  set (m2 := round_nearest_even (shr_m mrs1) (loc_of_shr_record mrs1)).
  assert (Hm2 := round_nearest_even_bounds (shr_m mrs1) (loc_of_shr_record mrs1)).
  fold m2 in Hm2.
  destruct (shr_fexp_spec m2 e1 loc_Exact) as (He2 & Hm3 & Hv2); [lia|].
  destruct (shr_fexp prec emax m2 e1 loc_Exact) as [mrs2 e2]. simpl in He2, Hm3, Hv2.
  set (e1' := Z.max ex (fexp prec emax (Zdigits2 mx + ex))) in *.
  set (e2' := Z.max e1 (fexp prec emax (Zdigits2 m2 + e1))) in *.
  assert (Hle1 : ex <= e1) by lia. assert (Hle2 : e1 <= e2) by lia.
  assert (HP1 := pow2_pos (e1' - ex) ltac:(lia)).
  assert (HP2 := pow2_pos (e2' - e1) ltac:(lia)).
  assert (HQ := pow2_pos (ex + bias) Hex).
  assert (E1 : 2 ^ (e1 + bias) = 2 ^ (e1' - ex) * 2 ^ (ex + bias)).
  { rewrite <- pow2_split by lia. f_equal. lia. }
  assert (E2 : 2 ^ (e2 + bias) = 2 ^ (e2' - e1) * 2 ^ (e1 + bias)).
  { rewrite <- pow2_split by lia. f_equal. lia. }
  assert (Hbound : shr_m mrs2 * 2 ^ (e2 + bias)
                   <= mx * 2 ^ (ex + bias) + 2 ^ (e1' + bias)).
  { replace (e1' + bias) with (e1 + bias) by lia. rewrite E2, E1. nia. }
  destruct (shr_m mrs2) as [|m|m] eqn:Em; simpl; [done| |lia].
  destruct (e2 <=? emax - prec) eqn:Ee; simpl.
  - split; [done|]. split; [lia|done].
  - split; [done|]. apply Z.leb_gt in Ee. unfold emax, prec in Ee.
    etrans; [|exact Hbound].
    assert (2 ^ (972 + bias) <= 2 ^ (e2 + bias)) by (apply Z.pow_le_mono_r; lia).
    assert (0 < 2 ^ (e2 + bias)) by (apply pow2_pos; lia). nia.
Qed.

Lemma binary_round_rounded sx m e :
  0 <= e + bias →
  Zpos m * 2 ^ (e + bias) < 2 ^ (7 + bias) →
  rounded sx (Zpos m * 2 ^ (e + bias) + 2 ^ bias) (binary_round prec emax sx m e).
Proof.
  intros He Hv. unfold binary_round.
  destruct (shl_align_spec m e (fexp prec emax (Zpos (digits2_pos m) + e)))
    as [Hez Hmz].
  destruct (shl_align m e (fexp prec emax (Zpos (digits2_pos m) + e))) as [mz ez].
  simpl in Hez, Hmz.
  assert (Hemin : - bias <= fexp prec emax (Zpos (digits2_pos m) + e)).
  { unfold fexp, SpecFloat.emin, emax, prec. pose proof bias_eq. lia. }
  assert (Hez0 : 0 <= ez + bias) by lia.
  assert (Hval : Zpos mz * 2 ^ (ez + bias) = Zpos m * 2 ^ (e + bias)).
  { rewrite Hmz, <- Hez, <- Z.mul_assoc, <- pow2_split by lia. f_equal. f_equal. lia. }
  assert (Hdig : ∀ p x, 0 <= x + bias → Zpos p * 2 ^ (x + bias) < 2 ^ (7 + bias) →
                        fexp prec emax (Zpos (digits2_pos p) + x) <= -46).
  { intros p x Hx Hp.
    destruct (digits2_pos_bounds p) as [Hlow _].
    assert (2 ^ (Zpos (digits2_pos p) - 1 + (x + bias)) < 2 ^ (7 + bias)).
    { rewrite pow2_split by lia.
      assert (0 < 2 ^ (x + bias)) by (by apply pow2_pos). nia. }
    apply Z.pow_lt_mono_r_iff in H; [|lia|pose proof bias_eq; lia].
    unfold fexp, SpecFloat.emin, emax, prec in *. pose proof bias_eq. lia. }
  assert (He1 : Z.max ez (fexp prec emax (Zdigits2 (Zpos mz) + ez)) <= 0).
  { assert (H1 := Hdig m e He Hv).
    assert (H2 := Hdig mz ez Hez0 ltac:(by rewrite Hval)).
    simpl Zdigits2. lia. }
  assert (Hr := binary_round_aux_rounded sx (Zpos mz) ez loc_Exact ltac:(lia) Hez0).
  rewrite Hval in Hr.
  assert (Hpow : 2 ^ (Z.max ez (fexp prec emax (Zdigits2 (Zpos mz) + ez)) + bias)
                 <= 2 ^ bias) by (apply Z.pow_le_mono_r; lia).
  destruct (binary_round_aux prec emax sx (Zpos mz) ez loc_Exact) as [s|s| |s m' e'];
    simpl in *; try done.
  - split; [tauto|lia].
  - split; [tauto|]. split; [tauto|lia].
Qed.

Lemma valid_finite s m e :
  valid_binary (S754_finite s m e) = true →
  - bias <= e ∧ Zpos (digits2_pos m) <= 53
  ∧ (- bias < e → Zpos (digits2_pos m) = 53).
Proof.
  unfold SpecFloat.valid_binary, bounded, canonical_mantissa, fexp, SpecFloat.emin.
  unfold emax, prec. pose proof bias_eq.
  intros [Hc _]%andb_true_iff. apply Z.eqb_eq in Hc. lia.
Qed.

Lemma bias_split : 2 ^ bias = 2 ^ 46 * 2 ^ (bias - 46).
Proof. pose proof bias_eq. rewrite <- pow2_split by lia. f_equal; lia. Qed.

Lemma compare_cont_le m c :
  match Pos.compare_cont Eq m c with Gt => false | _ => true end = true
  ↔ Zpos m <= Zpos c.
Proof.
  change (Zpos m <= Zpos c) with (Pos.compare_cont Eq m c ≠ Gt).
  destruct (Pos.compare_cont Eq m c); split; congruence.
Qed.

Lemma le100_value m e :
  valid_binary (S754_finite false m e) = true →
  SFleb (S754_finite false m e) c100 = true →
  Zpos m * 2 ^ (e + bias) <= 100 * 2 ^ bias.
Proof.
  intros (Hmin & Hdig & _)%valid_finite. unfold SFleb, SFcompare, c100.
  destruct (e ?= -46) eqn:Ee; intros Hle; [| |discriminate Hle].
  - apply Z.compare_eq in Ee. subst e.
    apply compare_cont_le in Hle. rewrite bias_split, (Z.add_comm (-46) bias).
    change (bias + -46) with (bias - 46).
    assert (0 < 2 ^ (bias - 46)) by (apply pow2_pos; pose proof bias_eq; lia).
    change (2 ^ 46) with 70368744177664. nia.
  - change (e < -46) in Ee.
    destruct (digits2_pos_bounds m) as [_ Hup].
    assert (2 ^ Zpos (digits2_pos m) <= 2 ^ 53) by (apply Z.pow_le_mono_r; lia).
    assert (2 ^ (e + bias) <= 2 ^ (bias - 47)) by (apply Z.pow_le_mono_r; lia).
    assert (E : 2 ^ bias = 2 ^ 47 * 2 ^ (bias - 47)).
    { pose proof bias_eq. rewrite <- pow2_split by lia. f_equal; lia. }
    assert (0 < 2 ^ (e + bias)) by (apply pow2_pos; lia).
    rewrite E. change (2 ^ 47) with 140737488355328.
    change (2 ^ 53) with 9007199254740992 in *.
    assert (Zpos m * 2 ^ (e + bias) <= 9007199254740992 * 2 ^ (e + bias))
      by (apply Z.mul_le_mono_nonneg_r; lia).
    lia.
Qed.

Lemma value_le100 m e :
  valid_binary (S754_finite false m e) = true →
  Zpos m * 2 ^ (e + bias) <= 100 * 2 ^ bias →
  SFleb (S754_finite false m e) c100 = true.
Proof.
  intros (Hmin & Hdig & Hnorm)%valid_finite Hv. unfold SFleb, SFcompare, c100.
  destruct (e ?= -46) eqn:Ee; [|reflexivity|].
  - apply Z.compare_eq in Ee. subst e.
    apply compare_cont_le.
    rewrite bias_split, (Z.add_comm (-46) bias) in Hv.
    change (bias + -46) with (bias - 46) in Hv.
    assert (0 < 2 ^ (bias - 46)) by (apply pow2_pos; pose proof bias_eq; lia).
    change (2 ^ 46) with 70368744177664 in Hv. nia.
  - exfalso. apply Z.compare_gt_iff in Ee. change (-46 < e) in Ee.
    destruct (digits2_pos_bounds m) as [Hlow _].
    rewrite Hnorm in Hlow by (pose proof bias_eq; lia).
    assert (2 ^ (bias - 45) <= 2 ^ (e + bias)) by (apply Z.pow_le_mono_r; lia).
    assert (E : 2 ^ bias = 2 ^ 45 * 2 ^ (bias - 45)).
    { pose proof bias_eq. rewrite <- pow2_split by lia. f_equal; lia. }
    assert (0 < 2 ^ (bias - 45)) by (apply pow2_pos; pose proof bias_eq; lia).
    rewrite E in Hv. change (2 ^ 45) with 35184372088832 in Hv.
    change (2 ^ (53 - 1)) with 4503599627370496 in Hlow.
    assert (4503599627370496 * 2 ^ (e + bias) <= Zpos m * 2 ^ (e + bias))
      by (apply Z.mul_le_mono_nonneg_r; lia).
    lia.
Qed.

Lemma rounded_mono sx B B' y : rounded sx B y → B <= B' → rounded sx B' y.
Proof. destruct y; simpl; [done| |done|]; intuition lia. Qed.

Lemma rounded_not_nan sx B y : rounded sx B y → y ≠ S754_nan.
Proof. by destruct y. Qed.

Lemma rounded_nonneg B y : rounded false B y → SFleb (S754_zero false) y = true.
Proof. destruct y as [s|s| |s m e]; simpl; [done| |done|]; by intros [-> _]. Qed.

Lemma rounded_neg B y : rounded true B y → SFltb (S754_zero false) y = false.
Proof. destruct y as [s|s| |s m e]; simpl; [done| |done|]; by intros [-> _]. Qed.

Lemma rounded_le100 y :
  valid_binary y = true → rounded false (100 * 2 ^ bias) y → SFleb y c100 = true.
Proof.
  destruct y as [s|s| |s m e]; simpl rounded; [done| |done|].
  - intros _ [_ Hbig]. exfalso.
    assert (E : 2 ^ (972 + bias) = 2 ^ 7 * 2 ^ (965 + bias)).
    { pose proof bias_eq. rewrite <- pow2_split by lia. f_equal; lia. }
    assert (2 ^ bias <= 2 ^ (965 + bias))
      by (apply Z.pow_le_mono_r; pose proof bias_eq; lia).
    assert (0 < 2 ^ bias) by (apply pow2_pos; pose proof bias_eq; lia).
    rewrite E in Hbig. change (2 ^ 7) with 128 in Hbig. lia.
  - intros Hv (-> & _ & Hle). by apply value_le100.
Qed.

(** The three signs a comparison can return are exchanged when its
    arguments are. *)
Lemma SFcompare_antisym x y :
  SFcompare y x = option_map CompOpp (SFcompare x y).
Proof.
  destruct x as [[]|[]| |[] m1 e1], y as [[]|[]| |[] m2 e2]; try reflexivity;
    unfold SFcompare; rewrite (Z.compare_antisym e1 e2);
    change (Pos.compare_cont Eq m2 m1) with (Pos.compare m2 m1);
    rewrite (Pos.compare_antisym m1 m2); unfold Pos.compare;
    by destruct (e1 ?= e2), (Pos.compare_cont Eq m1 m2).
Qed.

Lemma SFcompare_refl x : x ≠ S754_nan → SFcompare x x = Some Eq.
Proof.
  intros Hx. assert (H := SFcompare_antisym x x).
  destruct x as [s|s| |s m e]; [done|by destruct s|done|].
  destruct (SFcompare (S754_finite s m e) (S754_finite s m e)) as [[]|] eqn:E;
    done.
Qed.

(** What a binary64 value between zero and a hundred looks like. *)
Lemma in_range_shape x :
  valid_binary x = true →
  SFleb (S754_zero false) x = true → SFleb x c100 = true →
  (∃ s, x = S754_zero s)
  ∨ (∃ m e, x = S754_finite false m e ∧ - bias <= e
            ∧ Zpos m * 2 ^ (e + bias) <= 100 * 2 ^ bias).
Proof.
  destruct x as [s|s| |s m e]; intros Hv H0 H100.
  - left. by exists s.
  - destruct s; discriminate.
  - discriminate.
  - destruct s; [discriminate|]. right. exists m, e. split; [done|].
    split; [by apply valid_finite in Hv as [? _]|by apply le100_value].
Qed.

Lemma SFcompare_some x y :
  x ≠ S754_nan → y ≠ S754_nan → SFcompare x y ≠ None.
Proof. by destruct x as [|[]| |], y as [|[]| |]. Qed.

Lemma align_value m e ez :
  0 <= ez + bias → ez <= e →
  Zpos (fst (shl_align m e ez)) * 2 ^ (ez + bias) = Zpos m * 2 ^ (e + bias).
Proof.
  intros Hz He. destruct (shl_align_spec m e ez) as [_ ->].
  replace (Z.min e ez) with ez by lia.
  rewrite <- Z.mul_assoc, <- pow2_split by lia. do 2 f_equal. lia.
Qed.

Lemma c01_value : 7205759403792794 * 2 ^ (-56 + bias) <= 2 ^ bias.
Proof.
  assert (E : 2 ^ bias = 2 ^ 56 * 2 ^ (-56 + bias)).
  { pose proof bias_eq. rewrite <- pow2_split by lia. f_equal; lia. }
  assert (0 < 2 ^ (-56 + bias)) by (apply pow2_pos; pose proof bias_eq; lia).
  rewrite E. change (2 ^ 56) with 72057594037927936. lia.
Qed.

Lemma c1_value : 4503599627370496 * 2 ^ (-52 + bias) = 2 ^ bias.
Proof.
  change 4503599627370496 with (2 ^ 52). pose proof bias_eq.
  rewrite <- pow2_split by lia. f_equal; lia.
Qed.

Lemma pow2_7 : 2 ^ (7 + bias) = 128 * 2 ^ bias.
Proof. pose proof bias_eq. by rewrite pow2_split by lia. Qed.

(** Adding a tenth to a value of the interval gives a number that is
    not negative. *)
Lemma add_c01_nonneg x :
  valid_binary x = true →
  SFleb (S754_zero false) x = true → SFleb x c100 = true →
  SFleb (S754_zero false) (SFadd prec emax x c01) = true.
Proof.
  intros Hv H0 H100.
  destruct (in_range_shape x Hv H0 H100) as [[s ->]|(m & e & -> & He & Hval)];
    [reflexivity|].
  unfold SFadd, c01, cond_Zopp. set (ez := Z.min e (-56)).
  assert (Hez : 0 <= ez + bias) by (pose proof bias_eq; lia).
  assert (Ha := align_value m e ez Hez ltac:(lia)).
  assert (Hb := align_value 7205759403792794 (-56) ez Hez ltac:(lia)).
  set (a := fst (shl_align m e ez)) in *.
  set (b := fst (shl_align 7205759403792794 (-56) ez)) in *.
  change (Zpos a + Zpos b) with (Zpos (a + b)). unfold binary_normalize.
  eapply rounded_nonneg, binary_round_rounded; [done|].
  assert (0 < 2 ^ bias) by (apply pow2_pos; pose proof bias_eq; lia).
  pose proof c01_value.
  rewrite Pos2Z.inj_add, Z.mul_add_distr_r, Ha, Hb, pow2_7. lia.
Qed.

(** Taking one from a value of the interval gives a number, and if that
    number is positive it is at most a hundred. *)
Lemma sub_c1_shape x :
  valid_binary x = true →
  SFleb (S754_zero false) x = true → SFleb x c100 = true →
  SFsub prec emax x c1 ≠ S754_nan
  ∧ (valid_binary (SFsub prec emax x c1) = true →
     SFltb (S754_zero false) (SFsub prec emax x c1) = true →
     SFleb (SFsub prec emax x c1) c100 = true).
Proof.
  intros Hv H0 H100.
  destruct (in_range_shape x Hv H0 H100) as [[s ->]|(m & e & -> & He & Hval)].
  { split; [done|]. intros _ Hlt. discriminate Hlt. }
  unfold SFsub, c1, cond_Zopp. set (ez := Z.min e (-52)).
  assert (Hez : 0 <= ez + bias) by (pose proof bias_eq; lia).
  assert (Ha := align_value m e ez Hez ltac:(lia)).
  assert (Hb := align_value 4503599627370496 (-52) ez Hez ltac:(lia)).
  rewrite c1_value in Hb.
  set (a := fst (shl_align m e ez)) in *.
  set (b := fst (shl_align 4503599627370496 (-52) ez)) in *.
  assert (0 < 2 ^ bias) by (apply pow2_pos; pose proof bias_eq; lia).
  assert (0 < 2 ^ (ez + bias)) by (by apply pow2_pos).
  destruct (Zpos a - Zpos b) as [|d|d] eqn:D; unfold binary_normalize.
  - split; [done|]. intros _ Hlt. discriminate Hlt.
  - assert (Hd : Zpos d * 2 ^ (ez + bias) = Zpos m * 2 ^ (e + bias) - 2 ^ bias).
    { rewrite <- D, Z.mul_sub_distr_r. lia. }
    assert (R := binary_round_rounded false d ez Hez).
    rewrite pow2_7, Hd in R. specialize (R ltac:(lia)).
    split; [by eapply rounded_not_nan|]. intros Hvy _.
    apply rounded_le100; [done|]. eapply rounded_mono; [done|lia].
  - assert (Hd : Zpos d * 2 ^ (ez + bias) = 2 ^ bias - Zpos m * 2 ^ (e + bias)).
    { replace (Zpos d) with (Zpos b - Zpos a) by lia.
      rewrite Z.mul_sub_distr_r. lia. }
    assert (R := binary_round_rounded true d ez Hez).
    rewrite pow2_7, Hd in R. specialize (R ltac:(lia)).
    split; [by eapply rounded_not_nan|]. intros _ Hlt.
    rewrite (rounded_neg _ _ R) in Hlt. discriminate Hlt.
Qed.

Lemma Prim2SF_0 : Prim2SF 0%float = S754_zero false.
Proof. reflexivity. Qed.

Lemma Prim2SF_100 : Prim2SF 100%float = c100.
Proof. reflexivity. Qed.

Lemma Prim2SF_01 : Prim2SF 0.1%float = c01.
Proof. reflexivity. Qed.

Lemma Prim2SF_1 : Prim2SF 1%float = c1.
Proof. reflexivity. Qed.

Lemma is_nan_false x : Prim2SF x ≠ S754_nan → PrimFloat.is_nan x = false.
Proof.
  intros Hx. unfold PrimFloat.is_nan. rewrite FloatAxioms.eqb_spec. unfold SFeqb.
  by rewrite SFcompare_refl.
Qed.

Lemma in_range_spec x :
  Stats.in_range x
  ↔ SFleb (S754_zero false) (Prim2SF x) = true ∧ SFleb (Prim2SF x) c100 = true.
Proof. unfold Stats.in_range. by rewrite !FloatAxioms.leb_spec, Prim2SF_0, Prim2SF_100. Qed.

Lemma in_range_0 : Stats.in_range 0%float.
Proof. by split. Qed.

Lemma in_range_100 : Stats.in_range 100%float.
Proof. by split. Qed.

(** [Math.min(100, y)] is in the interval as soon as [y] is a number
    that is not negative. *)
Lemma Math_min_in_range y :
  SFleb (S754_zero false) (Prim2SF y) = true →
  Stats.in_range (Stats.Math_min 100 y).
Proof.
  intros Hy.
  assert (Hn : Prim2SF y ≠ S754_nan) by (intros E; rewrite E in Hy; discriminate Hy).
  unfold Stats.Math_min. rewrite (is_nan_false y Hn).
  change (PrimFloat.is_nan 100) with false. cbn [orb].
  change (PrimFloat.get_sign 100) with false.
  rewrite !FloatAxioms.ltb_spec, Prim2SF_100. unfold SFltb.
  rewrite (SFcompare_antisym (Prim2SF y) c100).
  assert (Hc := SFcompare_some (Prim2SF y) c100 Hn ltac:(done)).
  destruct (SFcompare (Prim2SF y) c100) as [[]|] eqn:E; [| | |done]; cbn.
  - apply in_range_spec. split; [done|]. unfold SFleb. by rewrite E.
  - apply in_range_spec. split; [done|]. unfold SFleb. by rewrite E.
  - apply in_range_100.
Qed.

(** [Math.max(0, y)] is in the interval as soon as [y] is a number that
    is at most a hundred when it is positive. *)
Lemma Math_max_in_range y :
  Prim2SF y ≠ S754_nan →
  (SFltb (S754_zero false) (Prim2SF y) = true → SFleb (Prim2SF y) c100 = true) →
  Stats.in_range (Stats.Math_max 0 y).
Proof.
  intros Hn Hle. unfold Stats.Math_max. rewrite (is_nan_false y Hn).
  change (PrimFloat.is_nan 0) with false. cbn [orb].
  change (PrimFloat.get_sign 0) with false.
  rewrite (FloatAxioms.ltb_spec 0 y), Prim2SF_0.
  destruct (SFltb (S754_zero false) (Prim2SF y)) eqn:E.
  - apply in_range_spec. split; [|by apply Hle].
    unfold SFltb in E. unfold SFleb.
    by destruct (SFcompare (S754_zero false) (Prim2SF y)) as [[]|].
  - destruct (y <? 0)%float; apply in_range_0.
Qed.

Lemma updateTTSEfficiency_in_range success st :
  Stats.in_range (Stats.ttsEfficiency st) →
  Stats.in_range (Stats.ttsEfficiency (Stats.updateTTSEfficiency success st)).
Proof.
  intros [H0 H100]%in_range_spec.
  assert (Hv := FloatAxioms.Prim2SF_valid (Stats.ttsEfficiency st)).
  destruct success; cbn [Stats.updateTTSEfficiency Stats.ttsEfficiency].
  - apply Math_min_in_range. rewrite FloatAxioms.add_spec, Prim2SF_01.
    by apply add_c01_nonneg.
  - destruct (sub_c1_shape _ Hv H0 H100) as [Hn Hle].
    apply Math_max_in_range; rewrite FloatAxioms.sub_spec, Prim2SF_1; [done|].
    apply Hle. rewrite <- Prim2SF_1. change (SFsub prec emax) with SF64sub.
    rewrite <- FloatAxioms.sub_spec. apply FloatAxioms.Prim2SF_valid.
Qed.

Lemma updates_in_range calls st :
  Stats.in_range (Stats.ttsEfficiency st) →
  Stats.in_range (Stats.ttsEfficiency (Stats.updates calls st)).
Proof.
  revert st. induction calls as [|success calls IH]; intros st Hst; [done|].
  apply IH. by apply updateTTSEfficiency_in_range.
Qed.

(** C10. The efficiency statistic starts at a hundred; a success
    replaces it by [Math.min(100, e + 0.1)] and a failure by
    [Math.max(0, e - 1)], in binary64; and after any sequence of calls,
    starting from the initial statistics, it is a number between zero
    and a hundred, both included. *)
Theorem ttsEfficiency_stays_in_range :
  Stats.ttsEfficiency Stats.initial = 100%float
  ∧ (∀ st, Stats.ttsEfficiency (Stats.updateTTSEfficiency true st)
           = Stats.Math_min 100 (Stats.ttsEfficiency st + 0.1)%float)
  ∧ (∀ st, Stats.ttsEfficiency (Stats.updateTTSEfficiency false st)
           = Stats.Math_max 0 (Stats.ttsEfficiency st - 1)%float)
  ∧ ∀ calls, Stats.in_range (Stats.ttsEfficiency (Stats.updates calls Stats.initial)).
Proof.
  split; [reflexivity|]. split; [reflexivity|]. split; [reflexivity|].
  intros calls. apply updates_in_range, in_range_100.
Qed.

End StatsClaims.

(** ** Streaming a response, start to finish *)

Section StreamFacts.
Import Assembler Stream.

Lemma append_nil_r (a : string) : a +:+ "" = a.
Proof.
  induction a as [|x a IH]; [done|].
  change (String x (a +:+ "") = String x a). by rewrite IH.
Qed.

Lemma append_assoc (a b c : string) : (a +:+ b) +:+ c = a +:+ (b +:+ c).
Proof.
  induction a as [|x a IH]; [done|].
  change (String x ((a +:+ b) +:+ c) = String x (a +:+ (b +:+ c))). by rewrite IH.
Qed.

Lemma find_current_at before b after :
  Forall (λ x, is_current x = false) before →
  is_current b = true →
  List.find is_current (before ++ b :: after) = Some b.
Proof.
  intros Hbefore Hb. induction Hbefore as [|x before Hx _ IH]; simpl.
  - by rewrite Hb.
  - by rewrite Hx.
Qed.

Lemma update_current_at f before b after :
  Forall (λ x, is_current x = false) before →
  is_current b = true →
  update_current f (before ++ b :: after) = before ++ f b :: after.
Proof.
  intros Hbefore Hb. induction Hbefore as [|x before Hx _ IH]; simpl.
  - by rewrite Hb.
  - by rewrite Hx, IH.
Qed.

Lemma open_turn_current before kind shown times after s :
  open_turn before kind shown times after s →
  current_response s
  = Some (Bubble kind (Some "current-response") (Some shown) times).
Proof.
  intros [Hbefore [top Hd]]. unfold current_response. rewrite Hd. simpl.
  by apply find_current_at.
Qed.

(** A flush moves the whole buffer into the open bubble. *)
Lemma flushTokenBuffer_open before kind shown times after s :
  open_turn before kind shown times after s →
  open_turn before kind (shown +:+ tokenBuffer s) times after (flushTokenBuffer s)
  ∧ tokenBuffer (flushTokenBuffer s) = "".
Proof.
  intros Hopen. assert (Hcur := open_turn_current _ _ _ _ _ _ Hopen).
  destruct Hopen as [Hbefore [top Hd]]. unfold flushTokenBuffer.
  destruct (String.eqb (tokenBuffer s) "") eqn:E.
  { apply String.eqb_eq in E. rewrite E, append_nil_r.
    split; [|done]. split; [done|]. by exists top. }
  rewrite Hcur, Hd. simpl. rewrite resetTokenBuffer_spec.
  rewrite update_current_at by done. simpl.
  split; [|done]. split; [done|].
  unfold smartScrollToBottom. simpl.
  destruct (_ <=? _)%Z; simpl; by eexists.
Qed.

Lemma handle_streaming before kind shown times after e s :
  open_turn before kind shown times after s →
  streaming e →
  ∃ shown',
    open_turn before kind shown' times after (handle e s)
    ∧ shown' +:+ tokenBuffer (handle e s)
      = (shown +:+ tokenBuffer s) +:+ tokens_of [e].
Proof.
  intros Hopen He. destruct e as [|token| | | |id]; try done; simpl.
  - unfold appendToCurrentResponse.
    set (buffered := with_buffer (tokenBuffer s +:+ token) _ _ s).
    assert (Hb : open_turn before kind shown times after buffered) by exact Hopen.
    change (tokenBuffer buffered) with (tokenBuffer s +:+ token).
    rewrite append_nil_r, append_assoc.
    destruct (_ || _ || _).
    + destruct (flushTokenBuffer_open _ _ _ _ _ _ Hb) as [Hflushed Hempty].
      eexists. split; [exact Hflushed|]. by rewrite Hempty, append_nil_r.
    + exists shown. split; [exact Hopen|done].
  - rewrite append_nil_r. unfold fire.
    destruct (take_timer id (timers s)) as [[[] q]|]; [|by exists shown].
    set (taken := with_buffer _ _ q s).
    assert (Hb : open_turn before kind shown times after taken) by exact Hopen.
    destruct (flushTokenBuffer_open _ _ _ _ _ _ Hb) as [Hflushed Hempty].
    eexists. split; [exact Hflushed|]. by rewrite Hempty, append_nil_r.
Qed.

Lemma tokens_of_cons e es :
  tokens_of (e :: es) = tokens_of [e] +:+ tokens_of es.
Proof. destruct e; simpl; try done. by rewrite append_nil_r. Qed.

Lemma run_streaming before kind times after es : ∀ shown s,
  open_turn before kind shown times after s →
  Forall streaming es →
  ∃ shown',
    open_turn before kind shown' times after (run es s)
    ∧ shown' +:+ tokenBuffer (run es s)
      = (shown +:+ tokenBuffer s) +:+ tokens_of es.
Proof.
  induction es as [|e es IH]; intros shown s Hopen Hes.
  - exists shown. split; [done|]. by rewrite append_nil_r.
  - apply Forall_cons in Hes as [He Hes].
    destruct (handle_streaming _ _ _ _ _ e s Hopen He) as (mid & Hmid & Htext).
    destruct (IH mid (handle e s) Hmid Hes) as (shown' & Hopen' & Htext').
    exists shown'. split; [exact Hopen'|].
    change (run (e :: es) s) with (run es (handle e s)).
    by rewrite Htext', Htext, (tokens_of_cons e es), append_assoc.
Qed.

(** Completing the turn flushes what is left and closes the bubble. *)
Lemma finishCurrentResponse_open before kind shown times after now s :
  open_turn before kind shown times after s →
  tokenBuffer (finishCurrentResponse now s) = ""
  ∧ ∃ top, dialogue (finishCurrentResponse now s) =
           Some (Container
                   (before
                    ++ Bubble kind None (Some (shown +:+ tokenBuffer s))
                         (times ++ [now])
                    :: after) top).
Proof.
  intros Hopen. unfold finishCurrentResponse.
  destruct (flushTokenBuffer_open _ _ _ _ _ _ Hopen) as [Hflushed Hempty].
  rewrite (open_turn_current _ _ _ _ _ _ Hflushed).
  destruct Hflushed as [Hbefore [top Hd]]. rewrite Hd.
  cbn [children scrollTop]. rewrite update_current_at by done.
  unfold scrollToBottom. simpl. split; [exact Hempty|]. by eexists.
Qed.

Lemma stream_then_finish before kind shown times after es now s :
  open_turn before kind shown times after s →
  Forall streaming es →
  tokenBuffer (finishCurrentResponse now (run es s)) = ""
  ∧ ∃ top, dialogue (finishCurrentResponse now (run es s)) =
           Some (Container
                   (before
                    ++ Bubble kind None
                         (Some ((shown +:+ tokenBuffer s) +:+ tokens_of es))
                         (times ++ [now])
                    :: after) top).
Proof.
  intros Hopen Hes.
  destruct (run_streaming _ _ _ _ es shown s Hopen Hes) as (shown' & Hopen' & Htext).
  rewrite <- Htext. by apply finishCurrentResponse_open.
Qed.

(** X1. While a response streams in, no token is lost or reordered:
    with a turn open in the transcript, after any interleaving of
    [appendToCurrentResponse] calls and timers going off,
    [finishCurrentResponse] leaves the bubble holding what it showed at
    first, then what was in the buffer, then every token in arrival
    order; the bubble is no longer marked [current-response], carries
    the time stamp, the bubbles around it are untouched and the buffer
    is empty. *)
Theorem finishCurrentResponse_shows_every_token
    before kind shown times after es now s :
  open_turn before kind shown times after s →
  Forall streaming es →
  tokenBuffer (finishCurrentResponse now (run es s)) = ""
  ∧ ∃ top, dialogue (finishCurrentResponse now (run es s)) =
           Some (Container
                   (before
                    ++ Bubble kind None
                         (Some ((shown +:+ tokenBuffer s) +:+ tokens_of es))
                         (times ++ [now])
                    :: after) top).
Proof. apply stream_then_finish. Qed.

Lemma finishCurrentResponse_shows_every_token_witness :
  ∃ top,
    dialogue (finishCurrentResponse "12:00"
                (run [Token " w"; TimerFired 2%positive; Token "orld"]
                   turn_with_pending_text))
    = Some (Container [Bubble "assistant" None (Some "Hello world") ["12:00"]] top).
Proof.
  refine (proj2 (finishCurrentResponse_shows_every_token [] "assistant" "Hel" [] []
                   [Token " w"; TimerFired 2%positive; Token "orld"] "12:00"
                   turn_with_pending_text _ _)).
  - split; [constructor|]. by eexists.
  - repeat constructor.
Defined.

(** X3. A second [message_processing_start] while a turn is still open
    does not move the stream to the new bubble: the older bubble stays
    the first element marked [current-response], so it is the one the
    following tokens are appended to and the one [finishCurrentResponse]
    closes, while the new bubble is left empty and still marked. *)
Theorem startNewAssistantResponse_keeps_streaming_to_open_turn
    before kind shown times after es now s :
  open_turn before kind shown times after s →
  Forall streaming es →
  let fresh_bubble := Bubble "assistant" (Some "current-response") (Some "") [] in
  let s' := startNewAssistantResponse s in
  current_response s'
  = Some (Bubble kind (Some "current-response") (Some shown) times)
  ∧ ∃ top, dialogue (finishCurrentResponse now (run es s')) =
           Some (Container
                   (before
                    ++ Bubble kind None (Some (shown +:+ tokens_of es))
                         (times ++ [now])
                    :: after ++ [fresh_bubble]) top).
Proof.
  intros Hopen Hes fresh_bubble s'.
  assert (Hopen' : open_turn before kind shown times (after ++ [fresh_bubble]) s').
  { destruct Hopen as [Hbefore [top Hd]]. split; [done|].
    subst s'. unfold startNewAssistantResponse. rewrite resetTokenBuffer_spec.
    cbn [dialogue with_buffer]. rewrite Hd. unfold scrollToBottom. simpl.
    rewrite <- app_assoc. by eexists. }
  assert (Hbuf : tokenBuffer s' = "").
  { subst s'. unfold startNewAssistantResponse. rewrite resetTokenBuffer_spec.
    cbn [dialogue with_buffer]. destruct (dialogue s); [|done].
    unfold scrollToBottom. by simpl. }
  split; [by apply (open_turn_current _ _ _ _ _ _ Hopen')|].
  destruct (stream_then_finish _ _ _ _ _ es now s' Hopen' Hes) as [_ [top Hd]].
  rewrite Hbuf, append_nil_r in Hd. by exists top.
Qed.

Lemma startNewAssistantResponse_keeps_streaming_to_open_turn_witness :
  ∃ top,
    dialogue (finishCurrentResponse "12:00"
                (run [Token "Bonjour."]
                   (startNewAssistantResponse turn_with_pending_text)))
    = Some (Container
              [Bubble "assistant" None (Some "HelBonjour.") ["12:00"];
               Bubble "assistant" (Some "current-response") (Some "") []] top).
Proof.
  refine (proj2 (startNewAssistantResponse_keeps_streaming_to_open_turn
                   [] "assistant" "Hel" [] [] [Token "Bonjour."] "12:00"
                   turn_with_pending_text _ _)).
  - split; [constructor|]. by eexists.
  - repeat constructor.
Defined.

Lemma one_flush_ext s s' :
  timers s' = timers s → bufferFlushTimer s' = bufferFlushTimer s →
  one_flush_pending s → one_flush_pending s'.
Proof. unfold one_flush_pending. by intros -> ->. Qed.

Lemma cancel_flush_empty s :
  one_flush_pending s → pending (cancel_flush s) = [].
Proof.
  intros [Hlen Hid]. unfold cancel_flush.
  destruct (bufferFlushTimer s) as [id|] eqn:E; simpl.
  - destruct (pending (timers s)) as [|t [|??]]; [done| |simpl in Hlen; lia].
    destruct (Hid t ltac:(left)) as [[= ->] _].
    rewrite filter_cons_False; [done|]. by intros H.
  - destruct (pending (timers s)) as [|t ?]; [done|].
    by destruct (Hid t ltac:(left)) as [? _].
Qed.

Lemma one_flush_reset s :
  one_flush_pending s → one_flush_pending (resetTokenBuffer s).
Proof.
  intros H. rewrite resetTokenBuffer_spec. unfold one_flush_pending.
  cbn [timers bufferFlushTimer with_buffer]. rewrite (cancel_flush_empty s H).
  split; [simpl; lia|]. by intros t ?%elem_of_nil.
Qed.

Lemma one_flush_flush s :
  one_flush_pending s → one_flush_pending (flushTokenBuffer s).
Proof.
  intros H. destruct (decide (tokenBuffer s = "")) as [E|E].
  { unfold flushTokenBuffer. by rewrite E. }
  destruct (flushTokenBuffer_buffer s E) as (_ & Hnone & Htimers).
  unfold one_flush_pending. rewrite Hnone, Htimers, (cancel_flush_empty s H).
  split; [simpl; lia|]. by intros t ?%elem_of_nil.
Qed.

Lemma one_flush_handle e s :
  one_flush_pending s → one_flush_pending (handle e s).
Proof.
  intros H. destruct e as [|token|now|content| |id]; simpl.
  - unfold startNewAssistantResponse.
    assert (Hr := one_flush_reset s H).
    destruct (dialogue (resetTokenBuffer s)); [|done].
    revert Hr. by apply one_flush_ext.
  - unfold appendToCurrentResponse.
    set (buffered := with_buffer (tokenBuffer s +:+ token) _ _ s).
    assert (Hb : one_flush_pending buffered) by exact H.
    destruct (_ || _ || _); [by apply one_flush_flush|].
    cbn [bufferFlushTimer timers buffered with_buffer].
    change (match bufferFlushTimer s with
            | Some id => clearTimeout id (timers s)
            | None => timers s
            end) with (cancel_flush s).
    unfold one_flush_pending, setTimeout. simpl.
    rewrite (cancel_flush_empty s H). simpl. split; [lia|].
    by intros t ->%list_elem_of_singleton.
  - unfold finishCurrentResponse.
    assert (Hf := one_flush_flush s H).
    destruct (current_response (flushTokenBuffer s)); [|done].
    destruct (dialogue (flushTokenBuffer s)); [|done].
    revert Hf. by apply one_flush_ext.
  - unfold addUserMessage. destruct (dialogue s); [|done].
    revert H. by apply one_flush_ext.
  - by apply one_flush_reset.
  - unfold fire. destruct (take_timer id (timers s)) as [[[] q]|] eqn:Htake; [|done].
    apply one_flush_flush. destruct H as [Hlen Hid].
    unfold take_timer in Htake.
    destruct (list_find _ _) as [[i found]|]; [|done].
    injection Htake as <-. unfold one_flush_pending. simpl. split.
    + etrans; [apply length_filter|done].
    + intros t [_ Hin]%list_elem_of_filter. by apply Hid.
Qed.

(** X2. The deferred flush never piles up: whatever tokens, turn
    boundaries, user messages, page unloads and timer firings follow
    one another, at most one timer is pending, it is the one whose id
    [bufferFlushTimer] holds, and it is armed for 100 ms. *)
Theorem at_most_one_flush_timer es s :
  one_flush_pending s → one_flush_pending (run es s).
Proof.
  revert s. induction es as [|e es IH]; intros s H; [done|].
  apply (IH (handle e s)). by apply one_flush_handle.
Qed.

Lemma at_most_one_flush_timer_witness :
  one_flush_pending
    (run [TurnStarted; Token "Bon"; Token "j"; TimerFired 1%positive;
          Token "our"; TurnCompleted "12:00"; Token "x"; TurnStarted]
       (loaded (λ bs, 20 * Z.of_nat (length bs))%Z 100)).
Proof.
  apply at_most_one_flush_timer. split; [simpl; lia|].
  by intros t ?%elem_of_nil.
Defined.

End StreamFacts.

(** ** Routing metrics *)

Section InboundFacts.
Import Router Inbound.
Local Open Scope Z_scope.

Lemma SFcompare_Eq_l a b c :
  SFcompare a b = Some Eq → SFcompare a c = SFcompare b c.
Proof.
  destruct a as [[]|[]| |[] m1 e1], b as [[]|[]| |[] m2 e2]; try done.
  all: unfold SFcompare at 1; destruct (e1 ?= e2)%Z eqn:He; try done.
  all: apply Z.compare_eq in He; subst e2.
  all: destruct (Pos.compare_cont Eq m1 m2) eqn:Hm; try done.
  all: apply Pos.compare_eq in Hm; by subst m2.
Qed.

Lemma float_eqb_sym (x y : float) : PrimFloat.eqb x y = PrimFloat.eqb y x.
Proof.
  rewrite !FloatAxioms.eqb_spec. unfold SFeqb.
  rewrite (SFcompare_antisym (Prim2SF x) (Prim2SF y)).
  by destruct (SFcompare (Prim2SF x) (Prim2SF y)) as [[]|].
Qed.

Lemma float_eqb_l (x y z : float) :
  PrimFloat.eqb x y = true → PrimFloat.eqb x z = PrimFloat.eqb y z.
Proof.
  rewrite !FloatAxioms.eqb_spec. unfold SFeqb. intros H.
  destruct (SFcompare (Prim2SF x) (Prim2SF y)) as [[]|] eqn:E; try done.
  by rewrite (SFcompare_Eq_l _ _ (Prim2SF z) E).
Qed.

Lemma float_nan_eqb (x z : float) :
  PrimFloat.is_nan x = true → PrimFloat.eqb x z = false.
Proof.
  unfold PrimFloat.is_nan. rewrite !FloatAxioms.eqb_spec. unfold SFeqb.
  destruct (Prim2SF x) as [| |  |]; try done.
  - intros H. exfalso. revert H. by destruct s.
  - intros H. exfalso. revert H.
    by rewrite (SFcompare_refl (S754_finite s m e)).
Qed.

Lemma same_value_zero_refl v : JS.same_value_zero v v = true.
Proof.
  destruct v as [| |b|x|s|r items|r fields|[|name]]; simpl; try done.
  - by destruct b.
  - unfold PrimFloat.is_nan. by destruct (PrimFloat.eqb x x).
  - apply String.eqb_refl.
  - apply Nat.eqb_refl.
  - apply Nat.eqb_refl.
  - apply String.eqb_refl.
Qed.

Lemma same_value_zero_sym a b : JS.same_value_zero a b = JS.same_value_zero b a.
Proof.
  destruct a as [| |x|x|x|r ?|r ?|[|x]], b as [| |y|y|y|r' ?|r' ?|[|y]];
    simpl; try done.
  - by destruct x, y.
  - by rewrite float_eqb_sym, (andb_comm (PrimFloat.is_nan x)).
  - apply String.eqb_sym.
  - apply Nat.eqb_sym.
  - apply Nat.eqb_sym.
  - apply String.eqb_sym.
Qed.

Lemma same_value_zero_l a b c :
  JS.same_value_zero a b = true → JS.same_value_zero a c = JS.same_value_zero b c.
Proof.
  destruct a as [| |x|x|x|r ?|r ?|[|x]], b as [| |y|y|y|r' ?|r' ?|[|y]];
    simpl; try done.
  - by intros ->%Bool.eqb_prop.
  - intros [H|[Hx Hy]%andb_true_iff]%orb_true_iff; destruct c; try done.
    + rewrite (float_eqb_l x y _ H). f_equal.
      assert (Hx : PrimFloat.is_nan x = false).
      { destruct (PrimFloat.is_nan x) eqn:E; [|done].
        by rewrite (float_nan_eqb x y E) in H. }
      assert (Hy : PrimFloat.is_nan y = false).
      { destruct (PrimFloat.is_nan y) eqn:E; [|done].
        by rewrite float_eqb_sym, (float_nan_eqb y x E) in H. }
      by rewrite Hx, Hy.
    + by rewrite (float_nan_eqb x _ Hx), (float_nan_eqb y _ Hy), Hx, Hy.
  - by intros ->%String.eqb_eq.
  - by intros ->%Nat.eqb_eq.
  - by intros ->%Nat.eqb_eq.
  - by intros ->%String.eqb_eq.
Qed.

Lemma same_key_refl k : same_key k k = true.
Proof. apply same_value_zero_refl. Qed.

Lemma same_key_sym a b : same_key a b = same_key b a.
Proof. apply same_value_zero_sym. Qed.

Lemma same_key_l a b c : same_key a b = true → same_key a c = same_key b c.
Proof. apply same_value_zero_l. Qed.

Lemma map_get_same m key key' :
  same_key key key' = true → map_get m key = map_get m key'.
Proof.
  intros Hsame. induction m as [|[k w] rest IH]; simpl; [done|].
  rewrite (same_key_sym k key), (same_key_l key key' k Hsame),
    (same_key_sym key' k), IH. done.
Qed.

Lemma map_get_set_eq m key key' v :
  same_key key key' = true → map_get (map_set m key v) key' = Some v.
Proof.
  intros Hsame. induction m as [|[k w] rest IH]; simpl.
  - by rewrite Hsame.
  - destruct (same_key k key) eqn:E; simpl.
    + by rewrite (same_key_l k key key' E), Hsame.
    + destruct (same_key k key') eqn:E'; [|done].
      rewrite same_key_sym in Hsame, E'.
      by rewrite (same_key_l key' key k), same_key_sym, E in E'.
Qed.

Lemma map_get_set_ne m key key' v :
  same_key key key' = false → map_get (map_set m key v) key' = map_get m key'.
Proof.
  intros Hne. induction m as [|[k w] rest IH]; simpl.
  - by rewrite Hne.
  - destruct (same_key k key) eqn:E; simpl.
    + by rewrite (same_key_l k key key' E), Hne.
    + by destruct (same_key k key').
Qed.

Context {handler app : Type}.
Variable run_handler : handler → envelope → app → app * outcome.
Variable addLogEntry : log_message → level → app → app.
Variable logParseError : string → app → app.

(** What routing one message does to the counters, whether or not its
    handler returns. *)
Lemma routeWebSocketMessage_counts startTime endTime data
    (st : Router.state handler app) :
  let st' := fst (routeWebSocketMessage run_handler addLogEntry
                    startTime endTime data st) in
  messageRoutes st' = messageRoutes st
  ∧ totalMessages (metrics st') = totalMessages (metrics st) + 1
  ∧ unknownTypes (metrics st')
    = unknownTypes (metrics st)
      + (if bool_decide (route (messageRoutes st) (msg_type data) = None) then 1 else 0)
  ∧ mostFrequent (metrics st')
    = map_set (mostFrequent (metrics st)) (msg_type data)
        (recorded (metrics st) (msg_type data) + 1).
Proof.
  unfold routeWebSocketMessage, recorded.
  destruct (route (messageRoutes st) (msg_type data)) as [h|] eqn:Hroute.
  - rewrite bool_decide_eq_false_2 by done.
    destruct (run_handler h data (application st)) as [a []]; simpl.
    + destruct (_ =? 0); simpl; repeat split; lia.
    + repeat split; lia.
  - rewrite bool_decide_eq_true_2 by done. simpl.
    destruct (_ =? 0); simpl; repeat split; lia.
Qed.

Lemma handleWebSocketMessage_counts f (st : Router.state handler app) :
  let st' := handleWebSocketMessage run_handler addLogEntry logParseError f st in
  messageRoutes st' = messageRoutes st
  ∧ totalMessages (metrics st')
    = totalMessages (metrics st) + Z.of_nat (count_parsed [f])
  ∧ unknownTypes (metrics st')
    = unknownTypes (metrics st)
      + Z.of_nat (count_unknown (messageRoutes st) (messages [f]))
  ∧ ∀ t, recorded (metrics st') t
         = recorded (metrics st) t + Z.of_nat (count_type t (messages [f])).
Proof.
  unfold handleWebSocketMessage, messages, count_unknown, count_type, count_parsed,
    parses.
  destruct f as [[| |data] startTime endTime message]; simpl.
  1,2: repeat split; intros; unfold recorded; simpl; first [reflexivity|lia].
  destruct (routeWebSocketMessage_counts startTime endTime data st)
    as (Hroutes & Htotal & Hunknown & Hfreq).
  destruct (routeWebSocketMessage _ _ _ _ _ _) as [st' []]; simpl in *.
  all: split; [done|]; split; [lia|]; split.
  all: try (rewrite Hunknown; rewrite filter_cons, filter_nil;
            destruct (decide _); [rewrite bool_decide_eq_true_2 by done
                                 |rewrite bool_decide_eq_false_2 by done];
            simpl; lia).
  all: intros t; unfold recorded at 1; rewrite Hfreq;
       rewrite filter_cons, filter_nil;
       destruct (decide (same_key (msg_type data) t = true)) as [Heq|Hne];
       [rewrite map_get_set_eq by done
       |rewrite map_get_set_ne by (by apply not_true_is_false)]; simpl;
       unfold recorded; try lia.
  all: rewrite (map_get_same _ _ _ Heq); lia.
Qed.

Lemma messages_cons f fs : messages (f :: fs) = messages [f] ++ messages fs.
Proof. unfold messages. simpl. by destruct (parsed f). Qed.

(** X4. The routing counters add up over a whole session, whatever the
    handlers do (return or throw) and whether or not the frames parse:
    [totalMessages] grows by the number of frames that parsed, the
    count kept for each type by the number of messages of that type,
    [unknownTypes] by the number of messages with no registered route,
    and the routes are left as they were.  A frame that is not JSON is
    counted nowhere; one that parses to [null] is counted in the total
    only, because reading its type throws; one that parses to anything
    else is a message, of type [undefined] when it has none.  (The type
    of a message is a string, a number, a boolean, [null] or
    [undefined].) *)
Theorem receive_counts fs (st : Router.state handler app) :
  let st' := receive run_handler addLogEntry logParseError fs st in
  messageRoutes st' = messageRoutes st
  ∧ totalMessages (metrics st')
    = totalMessages (metrics st) + Z.of_nat (count_parsed fs)
  ∧ unknownTypes (metrics st')
    = unknownTypes (metrics st)
      + Z.of_nat (count_unknown (messageRoutes st) (messages fs))
  ∧ ∀ t, recorded (metrics st') t
         = recorded (metrics st) t + Z.of_nat (count_type t (messages fs)).
Proof.
  revert st. induction fs as [|f fs IH]; intros st.
  { unfold count_unknown, count_type, count_parsed. simpl.
    repeat split; intros; simpl; first [reflexivity|lia]. }
  destruct (handleWebSocketMessage_counts f st) as (Hr & Ht & Hu & Hf).
  destruct (IH (handleWebSocketMessage run_handler addLogEntry logParseError f st))
    as (Hr' & Ht' & Hu' & Hf').
  cbn zeta. change (receive _ _ _ (f :: fs) st)
    with (receive run_handler addLogEntry logParseError fs
            (handleWebSocketMessage run_handler addLogEntry logParseError f st)).
  rewrite messages_cons. unfold count_unknown, count_type, count_parsed in *.
  change (f :: fs) with ([f] ++ fs).
  rewrite !filter_app, !length_app.
  split; [congruence|]. split; [lia|]. split.
  - rewrite Hu', Hr, Hu. lia.
  - intros t. rewrite Hf', Hf, filter_app, length_app. lia.
Qed.

Lemma insert_by_count_perm x l : insert_by_count x l ≡ₚ x :: l.
Proof.
  induction l as [|y rest IH]; simpl; [done|].
  destruct (snd y <? snd x); [done|]. rewrite IH. apply Permutation_swap.
Qed.

Lemma insert_by_count_sorted x l :
  StronglySorted (λ a b, snd b <= snd a) l →
  StronglySorted (λ a b, snd b <= snd a) (insert_by_count x l).
Proof.
  induction 1 as [|y rest Hrest IH Hy]; simpl.
  - by repeat constructor.
  - destruct (snd y <? snd x) eqn:E.
    + apply Z.ltb_lt in E. constructor; [by constructor|].
      constructor; [lia|]. eapply Forall_impl; [exact Hy|]. simpl. intros. lia.
    + apply Z.ltb_ge in E. constructor; [done|].
      rewrite insert_by_count_perm. by constructor.
Qed.

Lemma fold_insert_by_count l : ∀ sorted,
  StronglySorted (λ a b, snd b <= snd a) sorted →
  StronglySorted (λ a b, snd b <= snd a)
    (fold_left (λ sorted x, insert_by_count x sorted) l sorted)
  ∧ fold_left (λ sorted x, insert_by_count x sorted) l sorted ≡ₚ sorted ++ l.
Proof.
  induction l as [|x l IH]; intros sorted Hs; simpl.
  - by rewrite app_nil_r.
  - destruct (IH (insert_by_count x sorted) (insert_by_count_sorted x sorted Hs))
      as [Hsorted Hperm].
    split; [done|]. rewrite Hperm, insert_by_count_perm.
    simpl. apply Permutation_middle.
Qed.

(** X5. The periodic summary names the leaders: [logRoutingMetrics]
    leaves routes and metrics alone and logs, besides the totals, the
    first three entries (fewer when fewer types were seen) of the
    per-type counts put in decreasing order; every entry it leaves out
    has a count no greater than each one it lists. *)
Theorem logRoutingMetrics_top3 (st : Router.state handler app) :
  ∃ top3 others,
    logRoutingMetrics addLogEntry st
    = State (messageRoutes st) (metrics st)
        (addLogEntry
           (LogRoutingSummary (totalMessages (metrics st))
              (routingTimeSum (metrics st)) top3)
           Info (application st))
    ∧ length top3 = (3 `min` length (mostFrequent (metrics st)))%nat
    ∧ mostFrequent (metrics st) ≡ₚ top3 ++ others
    ∧ StronglySorted (λ a b, snd b <= snd a) top3
    ∧ ∀ a b, a ∈ top3 → b ∈ others → snd b <= snd a.
Proof.
  destruct (fold_insert_by_count (mostFrequent (metrics st)) [])
    as [Hsorted Hperm]; [constructor|].
  fold (sort_by_count (mostFrequent (metrics st))) in Hsorted, Hperm.
  simpl in Hperm.
  exists (take 3 (sort_by_count (mostFrequent (metrics st)))),
         (drop 3 (sort_by_count (mostFrequent (metrics st)))).
  rewrite <- (take_drop 3 (sort_by_count _)) in Hsorted.
  split; [done|]. split; [by rewrite length_take, Hperm|].
  split; [by rewrite take_drop|]. split.
  - by apply StronglySorted_app_1_l in Hsorted.
  - intros a b Ha Hb. by apply (StronglySorted_app_1_elem_of _ _ _ a b) in Hsorted.
Qed.

(** X6. A message whose type has a route is handed to that route's
    handler once, with the application as it stands, and is counted
    before the call: the total and the count of its type go up by one
    and [unknownTypes] stays put even when the handler throws.  The
    exception is not caught here; it skips the timing, so
    [routingTimeSum] is unchanged, and the periodic summary.  When the
    handler returns, the elapsed time is added and the summary is
    logged exactly when the new total is a multiple of 100. *)
Theorem routeWebSocketMessage_known_type startTime endTime data h
    (st : Router.state handler app) :
  route (messageRoutes st) (msg_type data) = Some h →
  let result :=
    routeWebSocketMessage run_handler addLogEntry startTime endTime data st in
  let handled := run_handler h data (application st) in
  snd result = snd handled
  ∧ totalMessages (metrics (fst result)) = totalMessages (metrics st) + 1
  ∧ unknownTypes (metrics (fst result)) = unknownTypes (metrics st)
  ∧ recorded (metrics (fst result)) (msg_type data)
    = recorded (metrics st) (msg_type data) + 1
  ∧ (snd handled = Threw →
       routingTimeSum (metrics (fst result)) = routingTimeSum (metrics st)
       ∧ application (fst result) = fst handled)
  ∧ (snd handled = Returned →
       routingTimeSum (metrics (fst result))
       = (routingTimeSum (metrics st) + (endTime - startTime))%float
       ∧ ((totalMessages (metrics st) + 1) mod 100 ≠ 0 →
            application (fst result) = fst handled)
       ∧ ((totalMessages (metrics st) + 1) mod 100 = 0 →
            ∃ top3,
              application (fst result)
              = addLogEntry
                  (LogRoutingSummary (totalMessages (metrics st) + 1)
                     (routingTimeSum (metrics st) + (endTime - startTime))%float
                     top3)
                  Info (fst handled))).
Proof.
  intros Hroute result handled. subst result handled.
  unfold routeWebSocketMessage, recorded. rewrite Hroute.
  destruct (run_handler h data (application st)) as [a []]; simpl.
  - destruct (_ =? 0) eqn:E; simpl;
      rewrite map_get_set_eq by apply same_key_refl; simpl.
    + apply Z.eqb_eq in E.
      repeat split; try done. intros _. by eexists.
    + apply Z.eqb_neq in E.
      repeat split; done.
  - rewrite map_get_set_eq by apply same_key_refl. simpl. repeat split; done.
Qed.

End InboundFacts.

Lemma routeWebSocketMessage_known_type_witness :
  let st := Router.State ({[ "llm_token" := true; "status" := false ]} : gmap string bool)
              (Router.Metrics 99 0 0 [(JS.PStr "status", 99%Z)])
              ([] : list (Router.log_message * level)) in
  let result :=
    Router.routeWebSocketMessage
      (λ (h : bool) _ a, (a, if h then Router.Threw else Router.Returned))
      (λ m l a, a ++ [(m, l)]) 0 1
      (Router.Envelope (JS.PStr "llm_token") (JS.JObj 0 [("type", JS.JStr "llm_token")])) st in
  snd result = Router.Threw
  ∧ Router.totalMessages (Router.metrics (fst result)) = 100%Z
  ∧ Router.application (fst result) = [].
Proof.
  intros st result.
  destruct (routeWebSocketMessage_known_type
              (λ (h : bool) _ a, (a, if h then Router.Threw else Router.Returned))
              (λ m l a, a ++ [(m, l)]) 0 1
              (Router.Envelope (JS.PStr "llm_token") (JS.JObj 0 [("type", JS.JStr "llm_token")])) true st)
    as (Hout & Htotal & _ & _ & Hthrew & _).
  - reflexivity.
  - split; [exact Hout|]. split; [exact Htotal|].
    exact (proj2 (Hthrew eq_refl)).
Defined.

(** ** The connection over time *)

Section SessionFacts.
Import Connection Session.
Local Open Scope nat_scope.

Lemma fire_attempts id c :
  attempts (fire id c) + length (pending (timers (fire id c)))
  ≤ attempts c + length (pending (timers c))
  ∧ (isConnected c = true → sockets (fire id c) = sockets c)
  ∧ isConnected (fire id c) = isConnected c.
Proof.
  unfold fire, take_timer.
  destruct (list_find _ _) as [[i found]|] eqn:Hfind; [|done].
  apply list_find_Some in Hfind as (Hin%list_elem_of_lookup_2 & Hid & _).
  assert (Hlt := length_filter_lt (λ t : timer callback, timer_id t ≠ id)
                   (pending (timers c)) found Hin ltac:(by intros H)).
  destruct (timer_callback found). unfold reconnect, attempts. simpl.
  destruct (isConnected c); simpl; [split; [lia|done]|].
  rewrite length_app. simpl. split; [lia|done].
Qed.

Lemma handle_attempts e c :
  attempts (handle e c) + length (pending (timers (handle e c)))
  ≤ attempts c + length (pending (timers c))
    + (if is_close e then 1 else 0) + (if is_check e then 1 else 0).
Proof.
  destruct e as [i|i|message|id| |[]]; simpl.
  - unfold attempts. simpl. rewrite length_insert. lia.
  - unfold attempts. simpl. rewrite length_insert, length_app. simpl. lia.
  - unfold attempts. simpl. lia.
  - destruct (fire_attempts id c) as [H _]. lia.
  - unfold checkConnection, attempts.
    destruct (negb (isConnected c) && _); simpl; [|lia].
    rewrite length_app. simpl. lia.
  - unfold attempts. simpl. lia.
  - unfold handleVisibilityChange, attempts. simpl.
    destruct (negb (isConnected c)); simpl; [|lia].
    rewrite length_app. simpl. lia.
Qed.

(** X7. Reconnection cannot run away: over any trace of socket events,
    timer firings, periodic connection checks and changes of the page's
    visibility, the number of sockets ever created plus the number of
    reconnect timers still pending grows by at most one per close
    event, per connection check and per return of the page to the
    foreground. *)
Theorem reconnects_bounded_by_closes es c :
  attempts (run es c) + length (pending (timers (run es c)))
  ≤ attempts c + length (pending (timers c)) + closes es + checks es.
Proof.
  revert c. induction es as [|e es IH]; intros c; [simpl; lia|].
  change (run (e :: es) c) with (run es (handle e c)).
  specialize (IH (handle e c)). assert (H := handle_attempts e c).
  unfold closes, checks in *. simpl.
  destruct (is_close e), (is_check e); simpl; lia.
Qed.

Lemma handle_connected e c :
  is_close e = false → isConnected c = true →
  isConnected (handle e c) = true ∧ attempts (handle e c) = attempts c.
Proof.
  intros He Hc. destruct e as [i|i|message|id| |[]]; try done; simpl.
  - unfold attempts. simpl. by rewrite length_insert.
  - destruct (fire_attempts id c) as (_ & Hs & Hi).
    unfold attempts. by rewrite Hi, (Hs Hc).
  - unfold checkConnection. by rewrite Hc.
  - unfold handleVisibilityChange. simpl. by rewrite Hc.
Qed.

(** X8. A connected session opens no further socket as long as no close
    event arrives: socket opens, errors, timers going off (stale
    reconnect timers included), the periodic connection check and
    changes of the page's visibility leave the number of sockets
    unchanged and the session connected. *)
Theorem connected_session_opens_no_socket es c :
  isConnected c = true → closes es = 0%nat →
  isConnected (run es c) = true ∧ attempts (run es c) = attempts c.
Proof.
  revert c. induction es as [|e es IH]; intros c Hc Hes; [done|].
  change (run (e :: es) c) with (run es (handle e c)).
  unfold closes in Hes. simpl in Hes.
  destruct (is_close e) eqn:He; [done|].
  destruct (handle_connected e c He Hc) as [Hc' Ha].
  destruct (IH (handle e c) Hc' Hes) as [? ?]. split; [done|congruence].
Qed.

Lemma connected_session_opens_no_socket_witness :
  let c := handleWebSocketOpen
             (handleWebSocketClose
                (State true (Some 0%nat) [OPEN] (Queue [] 1%positive) [] [] 0 [])) in
  attempts (run [TimerFired 1%positive; SocketErrored "reset"; TimerFired 1%positive] c)
  = attempts c.
Proof.
  intros c.
  exact (proj2 (connected_session_opens_no_socket
                  [TimerFired 1%positive; SocketErrored "reset"; TimerFired 1%positive]
                  c eq_refl eq_refl)).
Defined.

End SessionFacts.

(** ** Sending, and clearing the conversation *)

Section ChatFacts.
Import Assembler Chat.
Variable trim : string → string.
Local Open Scope Z_scope.

Lemma sendWebSocketMessage_outcome message c :
  let result := Connection.sendWebSocketMessage message c in
  (snd result = true ↔ socket_open c)
  ∧ Connection.sent (fst result)
    = (if snd result then Connection.sent c ++ [message] else Connection.sent c)
  ∧ Connection.isConnected (fst result) = Connection.isConnected c.
Proof.
  unfold Connection.sendWebSocketMessage, socket_open.
  destruct (Connection.ws c) as [i|] eqn:Hws; simpl.
  2: { split; [|done]. split; [done|]. by intros (i & [=] & _). }
  destruct (Connection.sockets c !! i) as [[]|] eqn:Hs; simpl;
    (split; [|done]); split; try done; try (by intros (j & [= <-] & H); congruence).
  intros _. by exists i.
Qed.

Lemma stream_no_turn e s :
  current_response s = None → Stream.streaming e →
  dialogue (Stream.handle e s) = dialogue s.
Proof.
  intros Hcur He. destruct e as [|token| | | |id]; try done; simpl.
  - unfold appendToCurrentResponse.
    set (buffered := with_buffer (tokenBuffer s +:+ token) _ _ s).
    destruct (_ || _ || _); [|done].
    by apply (flushTokenBuffer_no_turn buffered).
  - unfold fire. destruct (take_timer id (timers s)) as [[[] q]|]; [|done].
    by apply (flushTokenBuffer_no_turn (with_buffer _ _ q s)).
Qed.

Lemma run_no_turn es : ∀ s,
  current_response s = None → Forall Stream.streaming es →
  dialogue (Stream.run es s) = dialogue s.
Proof.
  induction es as [|e es IH]; intros s Hcur Hes; [done|].
  apply Forall_cons in Hes as [He Hes].
  assert (Hd := stream_no_turn e s Hcur He).
  change (Stream.run (e :: es) s) with (Stream.run es (Stream.handle e s)).
  rewrite IH; [done| |done].
  unfold current_response in *. by rewrite Hd.
Qed.

Lemma connection_handle_sent e c :
  Connection.sent (Connection.handle e c) = Connection.sent c.
Proof.
  destruct e as [i|i|message|id| |[]]; try done; simpl.
  - unfold Connection.fire.
    destruct (take_timer id (Connection.timers c)) as [[[] q]|]; [|done].
    unfold Connection.reconnect. simpl. by destruct (Connection.isConnected c).
  - unfold Connection.checkConnection.
    by destruct (negb (Connection.isConnected c) && _).
  - unfold Connection.handleVisibilityChange. simpl.
    by destruct (Connection.isConnected c).
Qed.

Lemma handle_counts e s :
  Stats.messages (stats (handle trim e s)) - text_frames (link (handle trim e s))
  = Stats.messages (stats s) - text_frames (link s).
Proof.
  destruct e as [value| | |listening|e|e]; simpl; try done.
  - unfold sendMessage. destruct (String.eqb _ _); [done|].
    destruct (negb _); [done|]. unfold Session.sendTextMessage.
    destruct (sendWebSocketMessage_outcome
                (JS.JObj 0 [("type", JS.JStr "text_message");
                            ("text", JS.JStr (trim (input s)))]) (link s))
      as (_ & Hsent & _).
    simpl link in *.
    destruct (Connection.sendWebSocketMessage _ _) as [c []]; simpl in *.
    + unfold text_frames. rewrite Hsent, List.filter_app, length_app. simpl. lia.
    + unfold text_frames. by rewrite Hsent.
  - unfold toggleVoiceInput. destruct (negb _); [done|].
    destruct (isListening s); [done|]. unfold Session.requestVoiceInput.
    destruct (sendWebSocketMessage_outcome
                (JS.JObj 0 [("type", JS.JStr "voice_input")]) (link s))
      as (_ & Hsent & _).
    destruct (Connection.sendWebSocketMessage _ _) as [c []]; simpl in *.
    + unfold text_frames. rewrite Hsent, List.filter_app, length_app. simpl. lia.
    + unfold text_frames. by rewrite Hsent.
  - unfold text_frames. by rewrite connection_handle_sent.
Qed.

(** X9. The message counter tells the truth: over any sequence of
    typing, send and microphone presses, listening notifications,
    socket events and streaming, [stats.messages] grows by exactly the
    number of [text_message] frames handed to the socket; a send that
    is refused or fails, and a voice request, count for nothing. *)
Theorem messages_count_text_frames es s :
  Stats.messages (stats (run trim es s)) - Stats.messages (stats s)
  = text_frames (link (run trim es s)) - text_frames (link s).
Proof.
  revert s. induction es as [|e es IH]; intros s; [simpl; lia|].
  change (run trim (e :: es) s) with (run trim es (handle trim e s)).
  specialize (IH (handle trim e s)). assert (H := handle_counts e s). lia.
Qed.

(** X10. A message typed while the session counts as connected but the
    socket is not open is shown and not sent: the user bubble is added
    to the transcript, no frame goes out, the field keeps its text and
    the counter its value. *)
Theorem sendMessage_unsent_is_still_shown s :
  trim (input s) ≠ "" →
  Connection.isConnected (link s) = true →
  ¬ socket_open (link s) →
  transcript (sendMessage trim s)
  = Stream.addUserMessage (trim (input s)) (transcript s)
  ∧ Connection.sent (link (sendMessage trim s)) = Connection.sent (link s)
  ∧ input (sendMessage trim s) = input s
  ∧ stats (sendMessage trim s) = stats s
  ∧ log (sendMessage trim s) = log s.
Proof.
  intros Hmsg Hconn Hclosed. unfold sendMessage.
  destruct (String.eqb _ _) eqn:E; [by apply String.eqb_eq in E|].
  rewrite Hconn. simpl negb. cbv iota. unfold Session.sendTextMessage.
  destruct (sendWebSocketMessage_outcome
              (JS.JObj 0 [("type", JS.JStr "text_message");
                          ("text", JS.JStr (trim (input s)))]) (link s))
    as (Hok & Hsent & _).
  simpl link in *.
  destruct (Connection.sendWebSocketMessage _ _) as [c []]; simpl in *.
  - destruct Hclosed. by apply Hok.
  - done.
Qed.

(** X11. Clearing the conversation empties the token buffer before
    asking.  If the user declines, the transcript is kept but the
    tokens that were waiting are gone: the open turn later closes
    showing only what it showed.  If the user accepts, the transcript
    becomes the single notice, the statistics return to their initial
    values, and tokens that still arrive for the interrupted response
    never show. *)
Theorem clearConversation_drops_pending_tokens
    before kind shown times after now es s :
  Stream.open_turn before kind shown times after (transcript s) →
  Forall Stream.streaming es →
  (∃ top,
     dialogue (finishCurrentResponse now
                 (transcript (clearConversation false s)))
     = Some (Container
               (before ++ Bubble kind None (Some shown) (times ++ [now]) :: after)
               top))
  ∧ stats (clearConversation false s) = stats s
  ∧ stats (clearConversation true s) = Stats.initial
  ∧ ∃ top,
      dialogue (Stream.run es (transcript (clearConversation true s)))
      = Some (Container [cleared_notice] top).
Proof.
  intros Hopen Hes. split; [|split; [done|]].
  - assert (Hopen' : Stream.open_turn before kind shown times after
                       (resetTokenBuffer (transcript s))).
    { destruct Hopen as [Hbefore [top Hd]]. split; [done|]. exists top.
      by rewrite resetTokenBuffer_spec. }
    destruct (finishCurrentResponse_open _ _ _ _ _ now _ Hopen') as [_ [top Hd]].
    rewrite resetTokenBuffer_spec in Hd. cbn [tokenBuffer with_buffer] in Hd.
    rewrite append_nil_r in Hd. exists top. simpl.
    by rewrite resetTokenBuffer_spec.
  - destruct Hopen as [_ [top Hd]]. unfold clearConversation. simpl.
    rewrite resetTokenBuffer_spec. cbn [dialogue with_buffer]. rewrite Hd.
    simpl. split; [done|]. exists top. by rewrite run_no_turn.
Qed.

End ChatFacts.

Lemma sendMessage_unsent_is_still_shown_witness :
  let s := Chat.State (Stream.loaded (λ bs, 20 * Z.of_nat (length bs))%Z 100)
             (Connection.State true (Some 0%nat) [Connection.CLOSING]
                (Queue [] 1%positive) [] [] 0 [])
             Stats.initial "Bonjour" false [] [] in
  Connection.sent (Chat.link (Chat.sendMessage (λ text, text) s)) = []
  ∧ Chat.input (Chat.sendMessage (λ text, text) s) = "Bonjour".
Proof.
  intros s.
  destruct (sendMessage_unsent_is_still_shown (λ text, text) s)
    as (_ & Hsent & Hinput & _).
  - done.
  - reflexivity.
  - by intros (i & [= <-] & H).
  - split; [exact Hsent | exact Hinput].
Defined.

Lemma clearConversation_drops_pending_tokens_witness :
  let s := Chat.State Assembler.turn_with_pending_text
             (Connection.State true (Some 0%nat) [Connection.OPEN]
                (Queue [] 1%positive) [] [] 0 [])
             (Stats.Stats_ 3 40 0 100) "" false [] [] in
  ∃ top,
    Assembler.dialogue
      (Assembler.finishCurrentResponse "12:00"
         (Chat.transcript (Chat.clearConversation false s)))
    = Some (Assembler.Container
              [Assembler.Bubble "assistant" None (Some "Hel") ["12:00"]] top).
Proof.
  intros s.
  refine (proj1 (clearConversation_drops_pending_tokens [] "assistant" "Hel" [] []
                   "12:00" [] s _ _)).
  - split; [constructor|]. by eexists.
  - constructor.
Defined.

(** ** More on the settings diff *)

Section ConfigFacts.
Import JS Diff Config.



Lemma get_elem (o : props) key v :
  NoDup (keys o) → (key, v) ∈ o → get o key = v.
Proof.
  unfold keys. induction o as [|[k w] rest IH]; simpl.
  - by intros _ ?%elem_of_nil.
  - intros [Hk Hnd]%NoDup_cons [[= <- <-]|Hin]%elem_of_cons.
    + by rewrite String.eqb_refl.
    + destruct (String.eqb k key) eqn:E; [|by apply IH].
      apply String.eqb_eq in E. subst k. destruct Hk.
      by apply (list_elem_of_fmap_2 fst _ (key, v)).
Qed.





(** X13. The diff speaks only about the proposal: a key it reports is
    an own key of the proposed object and is reported with the proposed
    value, whatever the baseline holds; so a setting present in the
    baseline and absent from the proposal is never reported. *)
Theorem getChangedSettings_reports_proposal current r entries key changes :
  NoDup (keys entries) →
  getChangedSettings current (JObj r entries) = Some changes →
  hasOwn changes key = true →
  hasOwn entries key = true
  ∧ get changes key = get entries key.
Proof.
  intros Hnd Hret Hown.
  destruct (nullish current) eqn:Hcur.
  { destruct entries as [|entry entries]; [by injection Hret as <-|].
    by rewrite getChangedSettings_throws in Hret. }
  rewrite getChangedSettings_rounds in Hret by done. injection Hret as <-.
  destruct (decide (key ∈ keys entries)) as [Hin|Hout].
  - apply list_elem_of_fmap in Hin as ([k v] & -> & Hin). simpl in *.
    split; [apply hasOwn_elem; by apply (list_elem_of_fmap_2 fst _ (k, v))|].
    rewrite (get_elem entries k v Hnd Hin).
    destruct (entry_changes getChangedSettings (default JUndefined (index current k)) v)
      eqn:E.
    + destruct (decide (k = "__proto__")) as [->|Hk].
      { by rewrite rounds_proto in Hown. }
      by destruct (rounds_included getChangedSettings current entries [] k v
                     Hnd Hin Hk E) as [-> _].
    + by rewrite (rounds_excluded getChangedSettings current entries [] k v
                    Hnd Hin E) in Hown.
  - by destruct (rounds_get_other getChangedSettings current entries [] key Hout)
      as [_ Hown']; rewrite Hown' in Hown.
Qed.

Lemma getChangedSettings_reports_proposal_witness :
  getChangedSettings
    (JObj 1 [("theme", JStr "dark"); ("background", JStr "space.jpg")])
    (JObj 2 [("theme", JStr "light")]) = Some [("theme", JStr "light")]
  ∧ hasOwn [("theme", JStr "light")] "background" = false
  ∧ get [("theme", JStr "light")] "theme" = JStr "light".
Proof.
  split; [reflexivity|]. split; [reflexivity|].
  refine (proj2 (getChangedSettings_reports_proposal
                   (JObj 1 [("theme", JStr "dark"); ("background", JStr "space.jpg")])
                   2 [("theme", JStr "light")] "theme" [("theme", JStr "light")] _ _ _)).
  - apply NoDup_singleton.
  - reflexivity.
  - reflexivity.
Defined.

End ConfigFacts.

(** ** What a save does besides the commit *)

Section SavingFacts.
Import JS Settings Saving.
#[local] Arguments String.eqb : simpl never.

Lemma keys_set (o : props) k v :
  keys (set o k v) = if hasOwn o k then keys o else keys o ++ [k].
Proof.
  unfold keys. induction o as [|[k' w] rest IH]; [done|].
  simpl set. simpl hasOwn. destruct (String.eqb k' k) eqn:E; [done|].
  rewrite !fmap_cons, IH. simpl. by destruct (hasOwn rest k).
Qed.

Lemma NoDup_keys_set (o : props) k v : NoDup (keys o) → NoDup (keys (set o k v)).
Proof.
  intros Hnd. rewrite keys_set. destruct (hasOwn o k) eqn:E; [done|].
  apply NoDup_app. split; [done|]. split; [|apply NoDup_singleton].
  intros x Hx ->%list_elem_of_singleton.
  apply hasOwn_elem in Hx. congruence.
Qed.

Lemma NoDup_addChange key newValue currentValue (changes : props) :
  NoDup (keys changes) → NoDup (keys (addChange key newValue currentValue changes)).
Proof.
  intros Hnd. unfold addChange. destruct (strict_neq _ _); [|done].
  by apply NoDup_keys_set.
Qed.





Lemma NoDup_detect_changes f currentSettings :
  NoDup (keys (detect_changes f currentSettings)).
Proof.
  unfold detect_changes. destruct (nullish currentSettings); [apply NoDup_nil_2|].
  repeat apply NoDup_addChange. apply NoDup_nil_2.
Qed.



Lemma filter_all (p : string * jsval → bool) (l : props) :
  (∀ kv, kv ∈ l → p kv = true) → List.filter p l = l.
Proof.
  induction l as [|kv rest IH]; intros Hall; simpl; [done|].
  rewrite (Hall kv) by left. f_equal. apply IH. intros ? ?. apply Hall. by right.
Qed.

Lemma filter_none (p : string * jsval → bool) (l : props) :
  (∀ kv, kv ∈ l → p kv = false) → List.filter p l = [].
Proof.
  induction l as [|kv rest IH]; intros Hall; simpl; [done|].
  rewrite (Hall kv) by left. apply IH. intros ? ?. apply Hall. by right.
Qed.

Lemma conn_flushed_for_save s : conn (flushed_for_save s) = conn s.
Proof. unfold flushed_for_save. by rewrite conn_flushBatchedChanges. Qed.

Lemma commits_flushed_for_save s : commits (flushed_for_save s) = commits s.
Proof. unfold flushed_for_save. by rewrite commits_flushBatchedChanges. Qed.

(** X14. A save whose every detected change is a light change already
    in the Last-Applied Cache, for instance a background the user has
    just previewed, tells the server nothing: [applyLightChanges] deletes
    the cached entries from the very object the payload is built from,
    so no frame is sent and no commit is started.  The same holds when
    no change is detected at all. *)
Theorem cached_changes_never_reach_the_server f currentSettings s :
  (∀ k v, (k, v) ∈ detect_changes f currentSettings →
          k ∈ light_keys ∧ cached (flushed_for_save s) k v) →
  conn (saveSettingsFromModal f currentSettings s) = conn s
  ∧ commits (saveSettingsFromModal f currentSettings s) = commits s
  ∧ batchedChanges (saveSettingsFromModal f currentSettings s) = [].
Proof.
  intros Hall. unfold saveSettingsFromModal. fold (flushed_for_save s).
  set (s1 := flushed_for_save s) in *.
  assert (Hconn : conn s1 = conn s) by apply conn_flushed_for_save.
  assert (Hcommits : commits s1 = commits s) by apply commits_flushed_for_save.
  assert (Hbatch : batchedChanges s1 = []) by done.
  clearbody s1.
  destruct (nullish currentSettings); [done|].
  set (changes := detect_changes f currentSettings) in *.
  destruct (length (keys changes) =? 0)%nat eqn:Hlen.
  { rewrite conn_closeSettings, commits_closeSettings.
    split; [done|]. split; [done|]. apply closeSettings_keeps. }
  rewrite (filter_all _ changes)
    by (intros [k v] Hin; apply bool_decide_eq_true_2; by apply (Hall k v)).
  rewrite (filter_none _ changes)
    by (intros [k v] Hin; apply negb_false_iff, bool_decide_eq_true_2;
        by apply (Hall k v)).
  assert (Hpos : (0 <? length (keys changes))%nat = true).
  { apply Nat.eqb_neq in Hlen. apply Nat.ltb_lt. lia. }
  rewrite Hpos.
  rewrite (applyLightChanges_skip changes s1)
    by (apply NoDup_detect_changes || (intros k v Hin; by apply (Hall k v))).
  simpl. rewrite conn_closeSettings, commits_closeSettings.
  split; [done|]. split; [done|]. apply closeSettings_keeps.
Qed.

Lemma cached_changes_never_reach_the_server_witness :
  Connection.sent
    (conn (saveSettingsFromModal background_chosen server_defaults background_previewed))
  = [].
Proof.
  destruct (cached_changes_never_reach_the_server background_chosen server_defaults
              background_previewed) as [Hconn _].
  - intros k v [[= -> ->]|?%elem_of_nil]%elem_of_cons; [|done].
    split; [by apply (bool_decide_unpack _) | vm_compute; reflexivity].
  - by rewrite Hconn.
Defined.

(** X15. While the session is disconnected a save writes nothing to
    the socket and starts no commit, whatever the form holds. *)
Theorem disconnected_save_never_commits f currentSettings s :
  Connection.isConnected (conn s) = false →
  conn (saveSettingsFromModal f currentSettings s) = conn s
  ∧ commits (saveSettingsFromModal f currentSettings s) = commits s.
Proof.
  intros Hoff.
  destruct (saveSettingsFromModal_cases f currentSettings s)
    as (s0 & Hprot & Hcase).
  fold (flushed_for_save s) in Hprot.
  assert (Hconn : conn s0 = conn s).
  { rewrite <- (conn_flushed_for_save s). by injection Hprot. }
  assert (Hcommits : commits s0 = commits s).
  { rewrite <- (commits_flushed_for_save s). by injection Hprot. }
  destruct Hcase as [->|[->|(config & count & c & sent & _ & Hon & _)]].
  - by rewrite conn_closeSettings, commits_closeSettings.
  - done.
  - congruence.
Qed.

Lemma disconnected_save_never_commits_witness :
  Connection.sent (conn (saveSettingsFromModal model_chosen server_defaults offline)) = []
  ∧ commits (saveSettingsFromModal model_chosen server_defaults offline) = [].
Proof.
  destruct (disconnected_save_never_commits model_chosen server_defaults offline eq_refl)
    as [Hconn Hcommits].
  split; [by rewrite Hconn | exact Hcommits].
Defined.









(** *** The debounced preview *)

Lemma filter_keep {A} (P : A → Prop) `{∀ x, Decision (P x)} (l : list A) :
  (∀ x, x ∈ l → P x) → filter P l = l.
Proof.
  induction l as [|x l IH]; intros Hall; [done|].
  rewrite filter_cons_True by (apply Hall; left).
  f_equal. apply IH. intros y Hy. apply Hall. by right.
Qed.

Lemma take_timer_last {C} (older : list (timer C)) id delay cb n :
  (∀ t, t ∈ older → timer_id t ≠ id) →
  take_timer id (Queue (older ++ [Timer id delay cb]) n) = Some (cb, Queue older n).
Proof.
  intros Hold. unfold take_timer. simpl.
  assert (Hnone : list_find (λ t : timer C, timer_id t = id) older = None).
  { apply list_find_None, Forall_forall. exact Hold. }
  rewrite (list_find_app_r _ _ _ Hnone). simpl.
  destruct (decide (id = id)); [|done]. simpl.
  unfold clearTimeout. simpl. rewrite filter_app, filter_keep by done.
  rewrite filter_cons_False by (simpl; by intros H). by rewrite app_nil_r.
Qed.

Lemma set_set (o : props) k v v' : set (set o k v) k v' = set o k v'.
Proof.
  induction o as [|[k' w] rest IH]; simpl.
  - by rewrite String.eqb_refl.
  - destruct (String.eqb k' k) eqn:E; simpl; rewrite E; [done|]. by rewrite IH.
Qed.

(** One change of the background select. *)
Lemma triggerVisualPreview_background value s :
  ids_fresh s →
  let s' := triggerVisualPreview "interface-background" value s in
  view s' = view s
  ∧ lastAppliedValues s' = lastAppliedValues s
  ∧ localStorageTimer s' = localStorageTimer s
  ∧ batchedChanges s' = set (batchedChanges s) "background" value
  ∧ previewTimer s' = Some (next_id (timers s))
  ∧ timers s'
    = Queue (pending (cancel_preview s)
             ++ [Timer (next_id (timers s)) 250 CbFlushVisualPreview])
        (Pos.succ (next_id (timers s)))
  ∧ ids_fresh s'
  ∧ cancel_preview s' = Queue (pending (cancel_preview s)) (Pos.succ (next_id (timers s))).
Proof.
  intros Hfresh s'. subst s'. unfold triggerVisualPreview. simpl.
  fold (cancel_preview s).
  assert (Hnext : next_id (cancel_preview s) = next_id (timers s)).
  { unfold cancel_preview. by destruct (previewTimer s). }
  assert (Hold : ∀ t, t ∈ pending (cancel_preview s) →
                      (timer_id t < next_id (timers s))%positive).
  { intros t Ht. apply Hfresh. unfold cancel_preview in Ht.
    destruct (previewTimer s); [|done]. by apply elem_of_clearTimeout in Ht as [? _]. }
  unfold setTimeout. rewrite Hnext. simpl.
  repeat split.
  - intros t [Ht|Ht]%elem_of_app; simpl.
    + specialize (Hold t Ht). lia.
    + apply list_elem_of_singleton in Ht as ->. simpl. lia.
  - unfold cancel_preview, clearTimeout. simpl.
    rewrite filter_app, filter_keep.
    + rewrite filter_cons_False by (simpl; by intros H). by rewrite app_nil_r.
    + intros t Ht. specialize (Hold t Ht). lia.
Qed.

Lemma pick_backgrounds_last values : ∀ value s,
  ids_fresh s →
  let s' := pick_backgrounds (values ++ [value]) s in
  view s' = view s
  ∧ lastAppliedValues s' = lastAppliedValues s
  ∧ localStorageTimer s' = localStorageTimer s
  ∧ batchedChanges s' = set (batchedChanges s) "background" value
  ∧ ∃ id,
      (next_id (timers s) ≤ id)%positive
      ∧ previewTimer s' = Some id
      ∧ timers s'
        = Queue (pending (cancel_preview s) ++ [Timer id 250 CbFlushVisualPreview])
            (Pos.succ id).
Proof.
  induction values as [|v values IH]; intros value s Hfresh.
  - destruct (triggerVisualPreview_background value s Hfresh)
      as (Hv & Ha & Hl & Hb & Hp & Ht & _).
    repeat (split; [done|]). exists (next_id (timers s)). split; [lia|done].
  - destruct (triggerVisualPreview_background v s Hfresh)
      as (Hv & Ha & Hl & Hb & Hp & Ht & Hfresh' & Hc).
    destruct (IH value _ Hfresh') as (Hv' & Ha' & Hl' & Hb' & id & Hid & Hp' & Ht').
    change (pick_backgrounds ((v :: values) ++ [value]) s)
      with (pick_backgrounds (values ++ [value])
              (triggerVisualPreview "interface-background" v s)).
    cbv zeta. rewrite Hv', Ha', Hl', Hb', Hb, set_set.
    repeat (split; [done|]). exists id.
    rewrite Ht in Hid. simpl in Hid. split; [lia|]. split; [done|].
    by rewrite Ht', Hc.
Qed.

Lemma preview_fold_background (batch : props) : ∀ s,
  NoDup (keys batch) →
  fold_left preview_entry batch s
  = if hasOwn batch "background"
    then applyVisualChange "background" (get batch "background") "setBackground" s
    else s.
Proof.
  unfold keys. induction batch as [|[k v] rest IH]; intros s Hnd; [done|].
  simpl in Hnd. apply NoDup_cons in Hnd as [Hk Hnd].
  simpl. rewrite (String.eqb_sym "background" k).
  destruct (String.eqb k "background") eqn:E; simpl.
  - apply String.eqb_eq in E. subst k. rewrite IH by done.
    assert (Hrest : hasOwn rest "background" = false).
    { apply not_true_iff_false. by rewrite hasOwn_elem. }
    by rewrite Hrest.
  - rewrite (String.eqb_sym "background_opacity" k).
    destruct (String.eqb k "background_opacity"); simpl; by apply IH.
Qed.

(** The timer armed by the last pick goes off. *)
Lemma fire_coalesced_preview values value s :
  ids_fresh s → NoDup (keys (batchedChanges s)) →
  let s' := pick_backgrounds (values ++ [value]) s in
  ∃ id,
    previewTimer s' = Some id
    ∧ pending (timers s')
      = pending (cancel_preview s) ++ [Timer id 250 CbFlushVisualPreview]
    ∧ fire id s'
      = debouncedLocalStorageSave
          (applyVisualChange "background" value "setBackground"
             (with_timers (Queue (pending (cancel_preview s)) (Pos.succ id)) s'))
    ∧ (∀ t, t ∈ pending (cancel_preview s) → (timer_id t < id)%positive).
Proof.
  intros Hfresh Hnd s'.
  destruct (pick_backgrounds_last values value s Hfresh)
    as (Hv & Ha & Hl & Hb & id & Hid & Hp & Ht).
  fold s' in Hv, Ha, Hl, Hb, Hp, Ht.
  assert (Hold : ∀ t, t ∈ pending (cancel_preview s) → (timer_id t < id)%positive).
  { intros t Hin. unfold cancel_preview in Hin.
    assert (t ∈ pending (timers s)).
    { destruct (previewTimer s); [|done]. by apply elem_of_clearTimeout in Hin as [? _]. }
    specialize (Hfresh t H). lia. }
  exists id. split; [done|]. split; [by rewrite Ht|]. split; [|done].
  unfold fire. rewrite Ht, take_timer_last by (intros t Hin; specialize (Hold t Hin); lia).
  unfold flushVisualPreview. f_equal.
  cbn [batchedChanges with_timers]. rewrite preview_fold_background.
  - rewrite Hb, hasOwn_set, String.eqb_refl, get_set_eq. done.
  - rewrite Hb. by apply NoDup_keys_set.
Qed.

(** X17. Picking a background several times in a row is applied once:
    the picks leave the page untouched and exactly one preview timer,
    of 250 ms, beside the timers that were pending for other reasons;
    when it goes off [setBackground] runs once, with the value picked
    last, unless that value is the one the cache already holds. *)
Theorem background_picks_coalesce values value s :
  ids_fresh s → NoDup (keys (batchedChanges s)) →
  let s' := pick_backgrounds (values ++ [value]) s in
  view s' = view s
  ∧ ∃ id,
      previewTimer s' = Some id
      ∧ pending (timers s')
        = pending (cancel_preview s) ++ [Timer id 250 CbFlushVisualPreview]
      ∧ view (fire id s')
        = if strict_eq (lastApplied s "background") value
          then view s else setBackground value (view s).
Proof.
  intros Hfresh Hnd s'.
  destruct (pick_backgrounds_last values value s Hfresh) as (Hv & Ha & _).
  fold s' in Hv, Ha.
  destruct (fire_coalesced_preview values value s Hfresh Hnd)
    as (id & Hp & Ht & Hfire & _).
  fold s' in Hp, Ht, Hfire.
  split; [done|]. exists id. split; [done|]. split; [done|].
  rewrite Hfire. unfold debouncedLocalStorageSave, applyVisualChange, lastApplied.
  cbn [lastAppliedValues with_timers view]. rewrite Ha.
  destruct (strict_eq _ _); simpl; by rewrite Hv.
Qed.

Lemma background_picks_coalesce_witness :
  let s' := pick_backgrounds [JStr "a.jpg"; JStr "b.jpg"; JStr "space.jpg"] opened in
  pending (timers s') = [Timer 3%positive 250 CbFlushVisualPreview]
  ∧ dom (view (fire 3%positive s'))
    = [DomBackgroundCleared; DomBackgroundImage "static/images/space.jpg"].
Proof.
  intros s'.
  destruct (background_picks_coalesce [JStr "a.jpg"; JStr "b.jpg"] (JStr "space.jpg")
              opened) as (_ & id & Hp & Ht & Hfire).
  - by intros t ?%elem_of_nil.
  - apply NoDup_nil_2.
  - vm_compute in Hp. injection Hp as <-.
    split; [exact Ht|]. exact (eq_trans (f_equal dom Hfire) eq_refl).
Defined.




End SavingFacts.

(** ** Themes and backgrounds *)

Section ThemeFacts.
Import JS Settings Theme.
#[local] Arguments String.eqb : simpl never.

Lemma setTheme_applied theme p :
  theme_known theme p = true →
  setTheme theme p
  = addLogEntry (LogThemeApplied theme) Success
      (saveSettings
         (addDom (DomBodyClass theme)
            (Page (localStorage p) (dom p) (log p) theme (themes p)
               (dialogue_section p) (settings_modal p) (settingsModalOpen p)
               (ui_settings p) (themes_loaded p)))).
Proof. intros Ht. unfold setTheme. by rewrite Ht. Qed.

Lemma theme_known_loaded t p : t ∈ themes p → theme_known (JStr t) p = true.
Proof. intros Ht. unfold theme_known. simpl. by rewrite bool_decide_eq_true_2. Qed.

Lemma setTheme_known t p :
  t ∈ themes p →
  setTheme (JStr t) p
  = addLogEntry (LogThemeApplied (JStr t)) Success
      (saveSettings
         (addDom (DomBodyClass (JStr t))
            (Page (localStorage p) (dom p) (log p) (JStr t) (themes p)
               (dialogue_section p) (settings_modal p) (settingsModalOpen p)
               (ui_settings p) (themes_loaded p)))).
Proof. intros Ht. by apply setTheme_applied, theme_known_loaded. Qed.

Lemma setTheme_unknown theme p :
  unknown_theme theme p →
  setTheme theme p = addLogEntry (LogThemeUnknown theme) Error p.
Proof.
  intros (t & Hkey & Hun & Hinh). unfold setTheme, theme_known.
  by rewrite Hkey, Hinh, andb_false_r, bool_decide_eq_false_2.
Qed.

Lemma savedSettings_setTheme_applied theme p :
  theme_known theme p = true →
  savedSettings (setTheme theme p) = ("theme", theme) :: ui_settings p.
Proof.
  intros Ht. rewrite setTheme_applied by done.
  unfold saveSettings, savedSettings, storeSettings, addLogEntry, setItem. simpl.
  by rewrite lookup_insert_eq.
Qed.

Lemma savedSettings_setTheme t p :
  t ∈ themes p →
  savedSettings (setTheme (JStr t) p) = ("theme", JStr t) :: ui_settings p.
Proof. intros Ht. by apply savedSettings_setTheme_applied, theme_known_loaded. Qed.

(** X19. [setTheme] on a name that is neither the id of a loaded theme
    nor a property every object inherits changes nothing but the log.
    On a loaded theme, and also on an inherited name such as
    ['constructor'] once the themes are loaded, it sets [currentTheme],
    and [saveSettings] then rewrites the [jarvis-settings] entry from
    scratch, as the theme followed by the interface flags: whatever the
    preview debounce or a save had merged into that entry, a stored
    background for instance, is no longer in it. *)
Theorem setTheme_rewrites_stored_settings theme p :
  (unknown_theme theme p →
     setTheme theme p = addLogEntry (LogThemeUnknown theme) Error p)
  ∧ ∀ t, theme = JStr t →
      t ∈ themes p ∨ (themes_loaded p = true ∧ inherited t = true) →
      currentTheme (setTheme theme p) = theme
      ∧ savedSettings (setTheme theme p) = ("theme", theme) :: ui_settings p
      ∧ ∀ k, k ≠ "theme" → hasOwn (ui_settings p) k = false →
             get (savedSettings (setTheme theme p)) k = JUndefined.
Proof.
  split; [apply setTheme_unknown|].
  intros t -> Ht.
  assert (Hknown : theme_known (JStr t) p = true).
  { destruct Ht as [Ht|[Hl Hi]]; [by apply theme_known_loaded|].
    unfold theme_known. simpl. rewrite Hl, Hi. apply orb_true_r. }
  split; [by rewrite setTheme_applied|].
  split; [by apply savedSettings_setTheme_applied|].
  intros k Hk Hown. rewrite savedSettings_setTheme_applied by done. simpl.
  destruct (String.eqb "theme" k) eqn:E.
  - apply String.eqb_eq in E. congruence.
  - by apply get_not_own.
Qed.

Lemma setTheme_rewrites_stored_settings_witness :
  let p := storeSettings [("theme", JStr "dark"); ("background", JStr "space.jpg")]
             (view opened) in
  get (savedSettings (setTheme (JStr "light") p)) "background" = JUndefined
  ∧ currentTheme (setTheme (JStr "constructor") p) = JStr "constructor"
  ∧ setTheme (JStr "sepia") p = addLogEntry (LogThemeUnknown (JStr "sepia")) Error p.
Proof.
  intros p. split; [|split].
  - refine (proj2 (proj2 (proj2 (setTheme_rewrites_stored_settings (JStr "light") p)
                            "light" eq_refl _)) "background" _ _).
    + left. by apply (bool_decide_unpack _).
    + done.
    + reflexivity.
  - refine (proj1 (proj2 (setTheme_rewrites_stored_settings (JStr "constructor") p)
                     "constructor" eq_refl _)).
    right. split; reflexivity.
  - refine (proj1 (setTheme_rewrites_stored_settings (JStr "sepia") p) _).
    exists "sepia". split; [reflexivity|]. split; [|reflexivity].
    by apply (bool_decide_unpack _).
Defined.

Lemma indexOf_found themes i t :
  NoDup themes → themes !! i = Some t →
  indexOf themes (JStr t) = Z.of_nat i.
Proof.
  revert i. induction themes as [|x rest IH]; intros i Hnd Hi; [done|].
  apply NoDup_cons in Hnd as [Hx Hnd]. simpl.
  destruct i as [|i]; simpl in Hi.
  - injection Hi as ->. by rewrite String.eqb_refl.
  - destruct (String.eqb x t) eqn:E.
    { apply String.eqb_eq in E. subst x. destruct Hx.
      by apply list_elem_of_lookup_2 in Hi. }
    rewrite (IH i Hnd Hi).
    destruct (Z.of_nat i <? 0)%Z eqn:E'; [apply Z.ltb_lt in E'; lia|lia].
Qed.

Lemma next_in_cycle_at themes i next :
  themes !! ((i + 1) mod length themes)%nat = Some next →
  (i < length themes)%nat →
  next_in_cycle themes (Z.of_nat i) = JStr next.
Proof.
  intros Hnext Hi. unfold next_in_cycle.
  destruct (length themes =? 0)%nat eqn:E; [apply Nat.eqb_eq in E; lia|].
  replace (Z.of_nat i + 1)%Z with (Z.of_nat (i + 1)) by lia.
  by rewrite <- Nat2Z.inj_mod, Nat2Z.id, Hnext.
Qed.

Lemma cycle_toggleTheme s : cycle (toggleTheme s) = cycle s
  ∧ themes (page (toggleTheme s)) = themes (page s)
  ∧ themesConfig (toggleTheme s) = themesConfig s.
Proof.
  unfold toggleTheme, cycle. destruct (themesConfig s) as [cfg|] eqn:Hcfg; simpl.
  2: { by rewrite Hcfg. }
  rewrite Hcfg.
  assert (Ht : ∀ v p, themes (setTheme v p) = themes p).
  { intros v p. unfold setTheme. by destruct (negb _). }
  by rewrite Ht.
Qed.

(** One press, from a theme of the cycle to the next. *)
Lemma toggleTheme_step s i t next :
  themesConfig s ≠ None →
  NoDup (cycle s) →
  currentTheme (page s) = JStr t →
  cycle s !! i = Some t →
  cycle s !! ((i + 1) mod length (cycle s))%nat = Some next →
  next ∈ themes (page s) →
  currentTheme (page (toggleTheme s)) = JStr next.
Proof.
  intros Hcfg Hnd Hcur Hi Hnext Hknown. unfold toggleTheme, cycle in *.
  destruct (themesConfig s) as [cfg|]; [|done]. simpl.
  rewrite Hcur, (indexOf_found _ i t Hnd Hi).
  rewrite (next_in_cycle_at _ i next Hnext) by (by eapply lookup_lt_Some).
  by rewrite setTheme_known.
Qed.

Lemma toggles_position s i t :
  themesConfig s ≠ None →
  NoDup (cycle s) →
  (∀ x, x ∈ cycle s → x ∈ themes (page s)) →
  currentTheme (page s) = JStr t →
  cycle s !! i = Some t →
  ∀ n, ∃ x,
    cycle s !! ((i + n) mod length (cycle s))%nat = Some x
    ∧ currentTheme (page (toggles n s)) = JStr x
    ∧ cycle (toggles n s) = cycle s
    ∧ themes (page (toggles n s)) = themes (page s)
    ∧ themesConfig (toggles n s) = themesConfig s.
Proof.
  intros Hcfg Hnd Hknown Hcur Hi n.
  assert (Hlen : (i < length (cycle s))%nat) by (by eapply lookup_lt_Some).
  induction n as [|n (x & Hx & Hcurn & Hcyc & Hth & Hc)].
  - exists t. rewrite Nat.add_0_r, Nat.mod_small by done. done.
  - destruct (lookup_lt_is_Some_2 (cycle s) ((i + S n) mod length (cycle s))%nat)
      as [y Hy]; [apply Nat.mod_upper_bound; lia|].
    exists y. split; [done|].
    change (toggles (S n) s) with (toggleTheme (toggles n s)).
    destruct (cycle_toggleTheme (toggles n s)) as (Hcyc' & Hth' & Hc').
    rewrite Hcyc', Hth', Hc', Hcyc, Hth, Hc. repeat split; try done.
    apply (toggleTheme_step (toggles n s) ((i + n) mod length (cycle s))%nat x y).
    + by rewrite Hc.
    + by rewrite Hcyc.
    + done.
    + by rewrite Hcyc.
    + rewrite Hcyc, Nat.Div0.add_mod_idemp_l.
      by replace (i + n + 1)%nat with (i + S n)%nat by lia.
    + rewrite Hth. apply Hknown. by eapply list_elem_of_lookup_2.
Qed.

(** X20. [toggleTheme] walks the cycle: from a theme of the cycle it
    goes to the entry that follows, the first one after the last, and
    as many presses as the cycle has entries bring the theme back;
    provided the configuration is loaded, no theme is listed twice and
    every entry is a loaded theme. *)
Theorem toggleTheme_goes_round s t :
  themesConfig s ≠ None →
  NoDup (cycle s) →
  (∀ x, x ∈ cycle s → x ∈ themes (page s)) →
  currentTheme (page s) = JStr t →
  t ∈ cycle s →
  currentTheme (page (toggles (length (cycle s)) s)) = JStr t
  ∧ ∀ i next,
      cycle s !! i = Some t →
      cycle s !! ((i + 1) mod length (cycle s))%nat = Some next →
      currentTheme (page (toggleTheme s)) = JStr next.
Proof.
  intros Hcfg Hnd Hknown Hcur Hin. split.
  - apply list_elem_of_lookup_1 in Hin as [i Hi].
    destruct (toggles_position s i t Hcfg Hnd Hknown Hcur Hi (length (cycle s)))
      as (x & Hx & Hcurn & _).
    assert (Hlen : (i < length (cycle s))%nat) by (by eapply lookup_lt_Some).
    replace ((i + length (cycle s)) mod length (cycle s))%nat with i in Hx.
    + congruence.
    + rewrite <- Nat.Div0.add_mod_idemp_r, Nat.Div0.mod_same, Nat.add_0_r.
      by rewrite Nat.mod_small.
  - intros i next Hi Hnext.
    apply (toggleTheme_step s i t next); try done.
    apply Hknown. by eapply list_elem_of_lookup_2.
Qed.

Lemma toggleTheme_goes_round_witness :
  let s := State (view opened) (Some (Config None JUndefined)) [] in
  currentTheme (page (toggles 2 s)) = JStr "dark"
  ∧ currentTheme (page (toggleTheme s)) = JStr "light".
Proof.
  intros s.
  destruct (toggleTheme_goes_round s "dark") as [Hround Hstep].
  - done.
  - by apply (bool_decide_unpack _).
  - intros x Hx. exact Hx.
  - reflexivity.
  - by apply (bool_decide_unpack _).
  - split; [exact Hround|]. by apply (Hstep 0%nat "light").
Defined.

Lemma toggleTheme_unknown_next s cfg :
  themesConfig s = Some cfg →
  unknown_theme (next_in_cycle (cycle s) (indexOf (cycle s) (currentTheme (page s))))
    (page s) →
  currentTheme (page (toggleTheme s)) = currentTheme (page s)
  ∧ dom (page (toggleTheme s)) = dom (page s)
  ∧ localStorage (page (toggleTheme s)) = localStorage (page s).
Proof.
  intros Hcfg Hun. unfold toggleTheme, cycle in *. rewrite Hcfg in *. simpl.
  by rewrite setTheme_unknown.
Qed.

(** X21. A cycle entry that names no theme blocks the cycle: when the
    entry after the current theme is neither the id of a loaded theme
    nor a name [themesConfig.themes] inherits from [Object.prototype]
    (or the cycle is empty and no theme is called ['undefined']),
    [toggleTheme] changes neither the theme, nor the document, nor the
    storage, and pressing again, any number of times, never gets past
    it. *)
Theorem toggleTheme_blocked_by_unknown_entry s n :
  themesConfig s ≠ None →
  unknown_theme (next_in_cycle (cycle s) (indexOf (cycle s) (currentTheme (page s))))
    (page s) →
  currentTheme (page (toggles n s)) = currentTheme (page s)
  ∧ dom (page (toggles n s)) = dom (page s)
  ∧ localStorage (page (toggles n s)) = localStorage (page s).
Proof.
  intros Hcfg Hun. destruct (themesConfig s) as [cfg|] eqn:Hc; [|done]. clear Hcfg.
  assert (H : currentTheme (page (toggles n s)) = currentTheme (page s)
              ∧ dom (page (toggles n s)) = dom (page s)
              ∧ localStorage (page (toggles n s)) = localStorage (page s)
              ∧ cycle (toggles n s) = cycle s
              ∧ themes (page (toggles n s)) = themes (page s)
              ∧ themesConfig (toggles n s) = Some cfg).
  { induction n as [|n (Hcur & Hdom & Hls & Hcyc & Hth & Hcn)]; [done|].
    change (toggles (S n) s) with (toggleTheme (toggles n s)).
    destruct (cycle_toggleTheme (toggles n s)) as (Hcyc' & Hth' & Hc').
    destruct (toggleTheme_unknown_next (toggles n s) cfg Hcn) as (H1 & H2 & H3).
    { rewrite Hcyc, Hcur. destruct Hun as (t & Hkey & Hun & Hinh).
      exists t. by rewrite Hth. }
    rewrite H1, H2, H3, Hcyc', Hth', Hc'. done. }
  by destruct H as (? & ? & ? & _).
Qed.

Lemma toggleTheme_blocked_by_unknown_entry_witness :
  let s := State (view opened) (Some (Config (Some ["dark"; "sepia"; "light"]) JUndefined))
             [] in
  currentTheme (page (toggles 5 s)) = JStr "dark".
Proof.
  intros s.
  refine (proj1 (toggleTheme_blocked_by_unknown_entry s 5 _ _)); [done|].
  exists "sepia". split; [reflexivity|]. split; [|reflexivity].
  by apply (bool_decide_unpack _).
Defined.

Lemma prefix_append (a b : string) :
  String.prefix a b = true → ∃ rest, b = a +:+ rest.
Proof.
  revert b. induction a as [|x a IH]; intros b; [by exists b|].
  destruct b as [|y b]; simpl; [done|].
  destruct (Ascii.ascii_dec x y) as [->|]; [|done].
  intros (rest & ->)%IH. by exists rest.
Qed.

(** X22. [setBackground] does nothing at all without the dialogue
    section.  With it, a path other than the empty string and
    ['default'] is stored under [jarvis-background] as given and shown
    through a URL that always lies under [static/images/], the same
    whether or not the path already starts with [images/]; a falsy
    argument, or ['default'], clears the image and stores ['default'];
    and a truthy argument that is not a string makes the call throw
    once the old image is cleared, nothing being stored.  The
    [jarvis-settings] entry is never touched. *)
Theorem setBackground_outcomes backgroundPath p :
  (dialogue_section p = false →
     setBackground backgroundPath p = p
     ∧ setBackground_throws backgroundPath p = false)
  ∧ savedSettings (setBackground backgroundPath p) = savedSettings p
  ∧ (dialogue_section p = true →
     (∀ path, backgroundPath = JStr path → path ≠ "" → path ≠ "default" →
        setBackground_throws backgroundPath p = false
        ∧ localStorage (setBackground backgroundPath p) !! "jarvis-background"
          = Some (JStr path)
        ∧ ∃ rest,
            dom (setBackground backgroundPath p)
            = dom p ++ [DomBackgroundCleared;
                        DomBackgroundImage ("static/images/" +:+ rest)]
            ∧ (path = rest ∨ path = "images/" +:+ rest))
     ∧ (truthy backgroundPath = false ∨ backgroundPath = JStr "default" →
        setBackground_throws backgroundPath p = false
        ∧ localStorage (setBackground backgroundPath p) !! "jarvis-background"
          = Some (JStr "default")
        ∧ dom (setBackground backgroundPath p) = dom p ++ [DomBackgroundCleared])
     ∧ (truthy backgroundPath = true → is_string backgroundPath = false →
        setBackground_throws backgroundPath p = true
        ∧ localStorage (setBackground backgroundPath p) = localStorage p
        ∧ dom (setBackground backgroundPath p) = dom p ++ [DomBackgroundCleared])).
Proof.
  split.
  { intros Hno. unfold setBackground, setBackground_throws. by rewrite Hno. }
  split; [apply savedSettings_setBackground|].
  intros Hsec. unfold setBackground, setBackground_throws. rewrite Hsec. simpl.
  split; [|split].
  - intros path -> Hne Hnd. unfold strict_neq. simpl.
    destruct (String.eqb path "") eqn:E1; [by apply String.eqb_eq in E1|].
    destruct (String.eqb path "default") eqn:E2; [by apply String.eqb_eq in E2|].
    simpl. rewrite lookup_insert_eq. split; [done|]. split; [done|].
    destruct (String.prefix "images/" path) eqn:Hp.
    + apply prefix_append in Hp as [rest ->]. exists rest.
      split; [by rewrite <- app_assoc|by right].
    + exists path. split; [by rewrite <- app_assoc|by left].
  - intros [Hfalsy| ->].
    + rewrite Hfalsy. simpl. by rewrite lookup_insert_eq.
    + change (truthy (JStr "default") && strict_neq (JStr "default") (JStr "default"))
        with false.
      simpl. by rewrite lookup_insert_eq.
  - intros Htruthy Hstr. rewrite Htruthy.
    destruct backgroundPath as [| |b|x|path|r items|r fields|b]; try done.
Qed.

Lemma setBackground_outcomes_witness :
  (∃ rest,
     dom (setBackground (JStr "images/space.jpg") (view opened))
     = [DomBackgroundCleared; DomBackgroundImage ("static/images/" +:+ rest)]
     ∧ ("images/space.jpg" = rest ∨ "images/space.jpg" = "images/" +:+ rest))
  ∧ setBackground_throws (JNum 5) (view opened) = true
  ∧ localStorage (setBackground JUndefined (view opened)) !! "jarvis-background"
    = Some (JStr "default").
Proof.
  destruct (proj2 (proj2 (setBackground_outcomes (JStr "images/space.jpg")
                            (view opened)))) as [Hpath _]; [reflexivity|].
  destruct (Hpath "images/space.jpg" eq_refl) as (_ & _ & rest & Hdom & Hrest);
    [done..|].
  split; [by exists rest|]. split.
  - destruct (proj2 (proj2 (setBackground_outcomes (JNum 5) (view opened))))
      as (_ & _ & Hthrows); [reflexivity|].
    exact (proj1 (Hthrows eq_refl eq_refl)).
  - destruct (proj2 (proj2 (setBackground_outcomes JUndefined (view opened))))
      as (_ & Hdef & _); [reflexivity|].
    exact (proj1 (proj2 (Hdef (or_introl eq_refl)))).
Defined.

(** X23. The theme chosen survives a reload: after [setTheme] on a
    loaded theme, [initializeTheme] run on any page that has the same
    [localStorage] and the same themes finds the theme in
    [jarvis-settings] and applies it again, whatever default the
    configuration or the caller proposes. *)
Theorem chosen_theme_survives_reload t p q cfg defaultTheme notes :
  t ∈ themes p → t ≠ "" →
  localStorage q = localStorage (setTheme (JStr t) p) →
  themes q = themes p →
  currentTheme (page (initializeTheme defaultTheme (State q cfg notes))) = JStr t.
Proof.
  intros Ht Hne Hls Hth. unfold initializeTheme. cbn [page].
  assert (Hs : savedSettings q = ("theme", JStr t) :: ui_settings p).
  { rewrite <- (savedSettings_setTheme t p Ht). unfold savedSettings. by rewrite Hls. }
  rewrite Hs. cbn [get]. rewrite String.eqb_refl.
  assert (Htruthy : truthy (JStr t) = true).
  { simpl. destruct (String.eqb t "") eqn:E; [by apply String.eqb_eq in E|done]. }
  rewrite Htruthy. cbn [page with_page note].
  rewrite setTheme_known; [done|]. by rewrite Hth.
Qed.

Lemma chosen_theme_survives_reload_witness :
  let stored := localStorage (setTheme (JStr "dark") (view opened)) in
  currentTheme
    (page (initializeTheme (JStr "light")
             (State (Page stored [] [] (JStr "light") ["dark"; "light"] true true false []
                       true)
                (Some (Config None (JStr "light"))) [])))
  = JStr "dark".
Proof.
  intros stored.
  apply (chosen_theme_survives_reload "dark" (view opened));
    [by apply (bool_decide_unpack _)|done|reflexivity|reflexivity].
Defined.

End ThemeFacts.

(** ** Resetting the settings *)

Section ResetFacts.
Import JS Settings Reset.
#[local] Arguments String.eqb : simpl never.




End ResetFacts.
